(** * Monte Carlo project simulator: CPM scheduler, sampling engine, statistics

    A shallow embedding of the scheduling and simulation core of [src/App.js]
    (and of the sampling and percentile helpers of [src/helpers.js]), of the
    histogram, of the editing of the task list and of the order in which it
    is shown.

    Numbers.  JavaScript numbers are IEEE binary64 doubles, and the code is
    modelled in two readings.  The exact reading takes a number for the
    rational [Q] it denotes: it covers the finite numbers, without rounding,
    and serves the statements about which computation the scheduler and the
    engine perform; results are compared with [==], and [Math.sqrt] and
    [Math.exp], which have no rational counterpart, are parameters of the
    samplers.  The reading in doubles, module [Double], uses the primitive
    binary64 floats, whose operations round as those of the code do and
    which have the infinities and [NaN]: it serves the samplers, the
    statistics and every statement that rounding, an overflow or [NaN]
    decides.

    Containers.  A JavaScript [Map] and a plain object are association lists
    in insertion order ([JsMap]); a [Set] is a duplicate-free list in
    insertion order ([JsSet]); arrays are lists.

    Effects.  The random generator is threaded through the samplers and the
    engine; the engine also carries a ghost count of the trials it has
    executed.  The aggregation of the accumulated samples into the analysis
    object is a parameter of the engine. *)

From Stdlib Require Import List String Bool Arith ZArith Lia.
From Stdlib Require Import QArith Qminmax Qabs Qround Lqa.
From Stdlib Require Import Permutation Sorted Relations.
From Stdlib Require Floats.
Import ListNotations.

Set Warnings "-inexact-float".

Local Open Scope string_scope.
Local Open Scope list_scope.
Local Open Scope Q_scope.

(** ** Insertion-ordered maps and sets *)

Module JsMap.
Section Defs.
Context {V : Type}.

Definition t := list (string * V).

Definition empty : t := [].

(** [m.get(k)]: [None] stands for [undefined]. *)
Fixpoint get (m : t) (k : string) : option V :=
  match m with
  | [] => None
  | (k', v) :: rest => if String.eqb k k' then Some v else get rest k
  end.

(** [m.has(k)] *)
Definition has (m : t) (k : string) : bool :=
  match get m k with Some _ => true | None => false end.

(** [m.set(k, v)]: an existing key keeps its position. *)
Fixpoint set (m : t) (k : string) (v : V) : t :=
  match m with
  | [] => [(k, v)]
  | (k', v') :: rest =>
      if String.eqb k k' then (k, v) :: rest else (k', v') :: set rest k v
  end.

Definition keys (m : t) : list string := map fst m.
End Defs.
Arguments t : clear implicits.
End JsMap.

Module JsSet.
Definition t := list string.

Definition has (s : t) (x : string) : bool := existsb (String.eqb x) s.

(** [s.add(x)] *)
Definition add (s : t) (x : string) : t := if has s x then s else s ++ [x].
End JsSet.

(** [a < b] on numbers *)
Definition Qltb (a b : Q) : bool := negb (Qle_bool b a).

(** ** Data model *)

Inductive DepType := FS | SS | FF | SF.

Record Dependency := {
  predecessorId : string;
  type : DepType;
  lag : Q
}.

Inductive DistType := Triangular | PERT | Normal | LogNormal.

(** [{ min, likely, max }] *)
Record Estimate := {
  emin : Q;
  likely : Q;
  emax : Q
}.

Record Task := {
  id : string;
  name : string;
  distType : DistType;
  duration : Estimate;
  normalParams : Q * Q;        (* mean, stdDev *)
  logNormalParams : Q * Q;     (* mu, sigma *)
  cost : Estimate;
  dependencies : list Dependency
}.

Definition MIN_SLACK_TOLERANCE : Q := 1 # 1000000.

(** ** The CPM scheduler: [calculateCPM] *)

(** An entry of [taskMap]: [{ ...task, index, duration: runDurations[index] }].
    The sampled duration is [None] when [runDurations] is shorter than
    [tasks] ([undefined]). *)
Record TaskEntry := {
  task : Task;
  index : nat;
  sampled : option Q
}.

Abbreviation Adjacency := (JsMap.t (list string)).

Record Graph := {
  adj : Adjacency;
  revAdj : Adjacency
}.

(** [m.get(k).push(x)].  On a missing key JavaScript throws; every call
    below is made on a key that [initGraph] has set and that stays (lemmas
    [initGraph_keys] and [addEdge_keys]), or behind a test of [adj.has];
    the model leaves the map unchanged on a missing key. *)
Definition push (m : Adjacency) (k x : string) : Adjacency :=
  match JsMap.get m k with
  | Some l => JsMap.set m k (l ++ [x])
  | None => m
  end.

Definition buildTaskMap (tasks : list Task) (runDurations : list Q)
  : JsMap.t TaskEntry :=
  fst (fold_left
         (fun (acc : JsMap.t TaskEntry * nat) t =>
            let (m, i) := acc in
            (JsMap.set m (id t)
               {| task := t; index := i; sampled := nth_error runDurations i |},
             S i))
         tasks (JsMap.empty, 0%nat)).

Definition buildNodes (tasks : list Task) : JsSet.t :=
  fold_left (fun ns t => JsSet.add ns (id t)) tasks ["START"; "END"].

Definition initGraph (tasks : list Task) : Graph :=
  let g := fold_left
             (fun g t => {| adj := JsMap.set (adj g) (id t) [];
                            revAdj := JsMap.set (revAdj g) (id t) [] |})
             tasks {| adj := JsMap.empty; revAdj := JsMap.empty |} in
  {| adj := JsMap.set (adj g) "START" [];
     revAdj := JsMap.set (revAdj g) "END" [] |}.

Definition addEdge (g : Graph) (from to : string) : Graph :=
  {| adj := push (adj g) from to; revAdj := push (revAdj g) to from |}.

(** One dependency of task [tid]: an edge from a known predecessor. *)
Definition addDependency (tid : string) (g : Graph) (dep : Dependency) : Graph :=
  let predId := predecessorId dep in
  if negb (String.eqb predId "") && JsMap.has (adj g) predId
  then addEdge g predId tid
  else g.

Definition getList (m : Adjacency) (k : string) : list string :=
  match JsMap.get m k with Some l => l | None => [] end.

Definition addTaskEdges (g : Graph) (t : Task) : Graph :=
  match dependencies t with
  | [] => addEdge g "START" (id t)
  | deps =>
      let g' := fold_left (addDependency (id t)) deps g in
      let actualPreds :=
        filter (fun p => negb (String.eqb p "START")) (getList (revAdj g') (id t)) in
      if (List.length actualPreds =? 0)%nat then addEdge g' "START" (id t) else g'
  end.

(** A task without successor is linked to END. *)
Definition linkToEnd (g : Graph) (t : Task) : Graph :=
  match JsMap.get (adj g) (id t) with
  | Some [] => addEdge g (id t) "END"
  | _ => g
  end.

Definition buildGraph (tasks : list Task) : Graph :=
  fold_left linkToEnd tasks (fold_left addTaskEdges tasks (initGraph tasks)).

(** *** Kahn's algorithm *)

(** [inDegree.set(succ, (inDegree.get(succ) || 0) + 1)] *)
Definition countEdge (inDegree : JsMap.t Z) (succ : string) : JsMap.t Z :=
  JsMap.set inDegree succ
    ((match JsMap.get inDegree succ with Some d => d | None => 0 end) + 1)%Z.

Definition buildInDegree (nodes : JsSet.t) (adj : Adjacency) : JsMap.t Z :=
  fold_left (fun m kv => fold_left countEdge (snd kv) m) adj
    (fold_left (fun m n => JsMap.set m n 0%Z) nodes JsMap.empty).

Definition initialQueue (nodes : JsSet.t) (inDegree : JsMap.t Z) : list string :=
  filter (fun n => match JsMap.get inDegree n with
                   | Some d => (d =? 0)%Z
                   | None => false
                   end) nodes.

(** The body of [adj.get(u).forEach(v => ...)].  A successor without
    in-degree entry would get [NaN], which never equals 0; the model leaves
    it absent, which never equals 0 either. *)
Definition relax (st : JsMap.t Z * list string) (v : string)
  : JsMap.t Z * list string :=
  match JsMap.get (fst st) v with
  | Some d =>
      (JsMap.set (fst st) v (d - 1)%Z,
       if (d - 1 =? 0)%Z then snd st ++ [v] else snd st)
  | None => st
  end.

(** The [while (queue.length > 0)] loop; [None] when the fuel runs out. *)
Fixpoint kahnLoop (fuel : nat) (adj : Adjacency) (inDegree : JsMap.t Z)
  (queue topoOrder : list string) : option (list string) :=
  match queue with
  | [] => Some topoOrder
  | u :: rest =>
      match fuel with
      | O => None
      | S fuel' =>
          let st := fold_left relax (getList adj u) (inDegree, rest) in
          kahnLoop fuel' adj (fst st) (snd st) (topoOrder ++ [u])
      end
  end.

(** The positive part of the in-degrees: every later enqueueing lowers it. *)
Definition positivePart (inDegree : JsMap.t Z) : nat :=
  fold_right (fun kv acc => (Z.to_nat (snd kv) + acc)%nat) 0%nat inDegree.

Definition kahnMeasure (inDegree : JsMap.t Z) (queue : list string) : nat :=
  (2 * positivePart inDegree + List.length queue)%nat.

(** The topological order; the fuel is enough for the loop to run to its
    end on every input (lemma [topoSort_total]). *)
Definition topoSort (nodes : JsSet.t) (adj : Adjacency) : option (list string) :=
  let inDegree := buildInDegree nodes adj in
  let queue := initialQueue nodes inDegree in
  kahnLoop (kahnMeasure inDegree queue) adj inDegree queue [].

(** *** Forward and backward passes *)

Abbreviation Times := (JsMap.t Q).

Definition getOr (m : Times) (k : string) (d : Q) : Q :=
  match JsMap.get m k with Some q => q | None => d end.

(** [taskJ?.dependencies?.find(d => d.predecessorId === i)] *)
Definition findDependency (entry : option TaskEntry) (i : string)
  : option Dependency :=
  match entry with
  | Some e => find (fun d => String.eqb (predecessorId d) i) (dependencies (task e))
  | None => None
  end.

Definition depTypeOf (d : option Dependency) : DepType :=
  match d with Some d => type d | None => FS end.

Definition lagOf (d : option Dependency) : Q :=
  match d with Some d => lag d | None => 0 end.

(** [Math.max(0, entry?.duration ?? 0)] *)
Definition clampedDuration (entry : option TaskEntry) : Q :=
  Qmax 0 (match entry with
          | Some e => match sampled e with Some d => d | None => 0 end
          | None => 0
          end).

Definition requiredStart (depType : DepType) (esI efI lag durJ : Q) : Q :=
  match depType with
  | FS => efI + lag
  | SS => esI + lag
  | FF => efI + lag - durJ
  | SF => esI + lag - durJ
  end.

Definition requiredFinish (depType : DepType) (lsJ lfJ lag durI : Q) : Q :=
  match depType with
  | FS => lsJ - lag
  | SS => lsJ - lag + durI
  | FF => lfJ - lag
  | SF => lfJ - lag + durI
  end.

Section Passes.
Variable taskMap : JsMap.t TaskEntry.
Variable g : Graph.

Definition forwardDuration (j : string) : Q :=
  if String.eqb j "END" then 0 else clampedDuration (JsMap.get taskMap j).

Definition backwardDuration (i : string) : Q :=
  if String.eqb i "START" then 0 else clampedDuration (JsMap.get taskMap i).

(** The required start that predecessor [i] imposes on [j]. *)
Definition startDueTo (es ef : Times) (j i : string) : Q :=
  let dependency := findDependency (JsMap.get taskMap j) i in
  requiredStart (depTypeOf dependency) (getOr es i 0) (getOr ef i 0)
    (lagOf dependency) (forwardDuration j).

Definition earliestStartOf (es ef : Times) (j : string) : Q :=
  fold_left (fun earliestStartJ i => Qmax earliestStartJ (startDueTo es ef j i))
    (getList (revAdj g) j) 0.

Definition forwardStep (st : Times * Times) (j : string) : Times * Times :=
  if String.eqb j "START" then st
  else
    let earliestStartJ := earliestStartOf (fst st) (snd st) j in
    (JsMap.set (fst st) j earliestStartJ,
     JsMap.set (snd st) j (earliestStartJ + forwardDuration j)).

Definition initTimes (nodes : JsSet.t) (v : Q) : Times :=
  fold_left (fun m n => JsMap.set m n v) nodes JsMap.empty.

Definition forwardPass (nodes : JsSet.t) (topoOrder : list string)
  : Times * Times :=
  fold_left forwardStep topoOrder (initTimes nodes 0, initTimes nodes 0).

(** The required finish that successor [j] imposes on [i]. *)
Definition finishDueTo (totalDuration : Q) (ls lf : Times) (i j : string) : Q :=
  let dependency := findDependency (JsMap.get taskMap j) i in
  requiredFinish (depTypeOf dependency) (getOr ls j totalDuration)
    (getOr lf j totalDuration) (lagOf dependency) (backwardDuration i).

Definition latestFinishOf (totalDuration : Q) (ls lf : Times) (i : string) : Q :=
  fold_left (fun latestFinishI j =>
               Qmin latestFinishI (finishDueTo totalDuration ls lf i j))
    (getList (adj g) i) totalDuration.

Definition backwardStep (totalDuration : Q) (st : Times * Times) (i : string)
  : Times * Times :=
  if String.eqb i "END" then st
  else
    let latestFinishI := latestFinishOf totalDuration (fst st) (snd st) i in
    (JsMap.set (fst st) i (latestFinishI - backwardDuration i),
     JsMap.set (snd st) i latestFinishI).

(** Returns [(ls, lf)]. *)
Definition backwardPass (nodes : JsSet.t) (topoOrder : list string)
  (totalDuration : Q) : Times * Times :=
  fold_left (backwardStep totalDuration) (rev topoOrder)
    (JsMap.set (initTimes nodes totalDuration) "END" totalDuration,
     JsMap.set (initTimes nodes totalDuration) "END" totalDuration).
End Passes.

(** Everything [calculateCPM] has computed when it reaches its critical-path
    test. *)
Record Schedule := {
  nodes : JsSet.t;
  graph : Graph;
  topoOrder : list string;
  es : Times;
  ef : Times;
  ls : Times;
  lf : Times;
  projectFinish : Q
}.

(** [ef.get('END')]; END is a node, so the entry is there. *)
Definition finishOfEnd (ef : Times) : Q := getOr ef "END" 0.

(** The passes of [calculateCPM].  The sort never runs out of fuel (lemma
    [topoSort_total]): [None] comes from the comparison of the lengths. *)
Definition schedule (tasks : list Task) (runDurations : list Q) : option Schedule :=
  let taskMap := buildTaskMap tasks runDurations in
  let nodes := buildNodes tasks in
  let g := buildGraph tasks in
  match topoSort nodes (adj g) with
  | None => None
  | Some topoOrder =>
      if negb (List.length topoOrder =? List.length nodes)%nat then None
      else
        let fw := forwardPass taskMap g nodes topoOrder in
        let totalDuration := finishOfEnd (snd fw) in
        let bw := backwardPass taskMap g nodes topoOrder totalDuration in
        Some {| nodes := nodes; graph := g; topoOrder := topoOrder;
                es := fst fw; ef := snd fw; ls := fst bw; lf := snd bw;
                projectFinish := totalDuration |}
  end.

(** The critical-path test of one task.  A missing entry would make the
    subtraction [NaN] and both comparisons false. *)
Definition isCritical (s : Schedule) (tid : string) : bool :=
  match JsMap.get (es s) tid, JsMap.get (ls s) tid, JsMap.get (ef s) tid with
  | Some esVal, Some lsVal, Some efVal =>
      let currentSlack := lsVal - esVal in
      Qltb (Qabs currentSlack) MIN_SLACK_TOLERANCE
      || Qltb (Qabs (efVal - projectFinish s)) MIN_SLACK_TOLERANCE
  | _, _, _ => false
  end.

Record Timing := { timing_es : Q; timing_ef : Q }.

Record CPMResult := {
  totalDuration : Q;
  criticalPathTasks : JsSet.t;
  taskTimings : JsMap.t Timing
}.

Definition resultOf (tasks : list Task) (s : Schedule) : CPMResult :=
  {| totalDuration := projectFinish s;
     criticalPathTasks :=
       fold_left (fun cp t => if isCritical s (id t) then JsSet.add cp (id t) else cp)
         tasks [];
     taskTimings :=
       fold_left (fun m t => JsMap.set m (id t)
                               {| timing_es := getOr (es s) (id t) 0;
                                  timing_ef := getOr (ef s) (id t) 0 |})
         tasks JsMap.empty |}.

(** [calculateCPM(tasks, runDurations)]; [None] is the [null] of a cycle
    (theorem [schedule_iff_acyclic]). *)
Definition calculateCPM (tasks : list Task) (runDurations : list Q)
  : option CPMResult :=
  option_map (resultOf tasks) (schedule tasks runDurations).

(** ** Exceptions *)

(** The exceptions that the modelled code meets; their messages, which
    depend on the engine, are left out. *)
Inductive Exception :=
| TypeError
| RangeError.

(** What a call yields: a value, or an exception on its way to the nearest
    [catch]. *)
Inductive Outcome (A : Type) :=
| Returned (value : A)
| Thrown (e : Exception).
Arguments Returned {A}.
Arguments Thrown {A}.

(** ** Distribution samplers *)

(** [mu = (min + gamma * likely + max) / (gamma + 2)].  The model follows
    the code for every [gamma] other than -2, where JavaScript divides by
    zero. *)
Definition pertMean (min likely max gamma : Q) : Q :=
  (min + gamma * likely + max) / (gamma + 2).

(** The samplers in the exact reading, which the engine of this model
    calls.  The generator is threaded explicitly.  Its primitives are
    parameters: [random.realZeroToOneExclusive()] and the standard normal
    draw that [randomNormal] computes by Box-Muller from two non-zero
    uniform draws; so are [Math.sqrt] and [Math.exp], which here yield
    finite numbers (on doubles [Math.exp] overflows to Infinity).  The
    [console.warn] calls are not modelled.  The samplers as the doubles
    compute them, with the branches and the bounds that rounding decides,
    are in module [Double]. *)
Section Sampling.
Variable RNG : Type.
Variable realZeroToOneExclusive : RNG -> Q * RNG.
Variable boxMuller : RNG -> Q * RNG.
Variable Math_sqrt : Q -> Q.
Variable Math_exp : Q -> Q.

Definition Rand (A : Type) : Type := RNG -> A * RNG.

Definition ret {A} (a : A) : Rand A := fun r => (a, r).

Definition bind {A B} (m : Rand A) (k : A -> Rand B) : Rand B :=
  fun r => let (a, r') := m r in k a r'.

(** [Math.max(min, Math.min(x, max))] *)
Definition clamp (min x max : Q) : Q := Qmax min (Qmin x max).

Definition randomTriangular (min mode max : Q) : Rand Q :=
  if Qeq_bool max min then ret min
  else
    let range := max - min in
    let clampedMode := clamp min mode max in
    let c := (clampedMode - min) / range in
    bind realZeroToOneExclusive (fun u =>
      if Qltb u c
      then ret (min + Math_sqrt (u * range * (clampedMode - min)))
      else ret (max - Math_sqrt ((1 - u) * range * (max - clampedMode)))).

Definition randomNormal (mean stdDev : Q) : Rand Q :=
  if Qltb stdDev 0 then ret mean
  else if Qeq_bool stdDev 0 then ret mean
  else bind boxMuller (fun z => ret (mean + stdDev * z)).

Definition randomLogNormal (mu sigma : Q) : Rand Q :=
  if Qltb sigma 0 then ret (Math_exp mu)
  else if Qeq_bool sigma 0 then ret (Math_exp mu)
  else bind (randomNormal mu sigma) (fun x => ret (Math_exp x)).

(** The Beta shape parameters of [randomPERT]; [None] is the
    "calculation instability" exit. *)
Definition pertShape (min clampedLikely max gamma : Q) : option (Q * Q) :=
  let range := max - min in
  let mu := pertMean min clampedLikely max gamma in
  if Qeq_bool mu max || Qeq_bool clampedLikely mu then Some (gamma + 1, 1)
  else if Qeq_bool mu min then Some (1, gamma + 1)
  else
    let muMinusMin := mu - min in
    let maxMinusMu := max - mu in
    let likelyMinusMu := clampedLikely - mu in
    if Qeq_bool likelyMinusMu 0 || Qeq_bool muMinusMin 0 || Qeq_bool range 0
    then None
    else
      let alpha :=
        (muMinusMin * (2 * clampedLikely - min - max)) / (likelyMinusMu * range) in
      let beta := (alpha * maxMinusMu) / muMinusMin in
      Some (alpha, beta).

(** [!isFinite(alpha) || !isFinite(beta) || alpha <= 0 || beta <= 0].
    Both quotients of [pertShape] are taken with non-zero divisors, so the
    rationals they yield are finite and the first two tests are false. *)
Definition invalidShape (alpha beta : Q) : bool :=
  Qle_bool alpha 0 || Qle_bool beta 0.

(** [randomPERT] of App.js, the sampler the engine calls.  [random] is a
    [Random] of random-js, which has no method [beta]: with a valid shape
    the call [random.beta(alpha, beta)] throws a [TypeError], before any
    draw. *)
Definition randomPERT (min likely max gamma : Q) : Rand (Outcome Q) :=
  if Qeq_bool max min then ret (Returned min)
  else if Qltb max min || Qltb likely min || Qltb max likely then ret (Returned likely)
  else
    let range := max - min in
    let clampedLikely := clamp min likely max in
    match pertShape min clampedLikely max gamma with
    | None => bind (randomTriangular min clampedLikely max) (fun x => ret (Returned x))
    | Some (alpha, beta) =>
        if invalidShape alpha beta
        then bind (randomTriangular min clampedLikely max) (fun x => ret (Returned x))
        else ret (Thrown TypeError)
    end.

(** [try { return sampler(...); } catch (e) { return 0; }] *)
Definition orZero (sampler : Rand (Outcome Q)) : Rand Q :=
  bind sampler (fun outcome =>
    ret (match outcome with Returned x => x | Thrown _ => 0 end)).

(** The [switch (distType)] of the engine inside its [try]; [gamma] is left
    at its default.  Of the four samplers only [randomPERT] throws. *)
Definition sampleDuration (t : Task) : Rand Q :=
  match distType t with
  | Normal => randomNormal (fst (normalParams t)) (snd (normalParams t))
  | LogNormal => randomLogNormal (fst (logNormalParams t)) (snd (logNormalParams t))
  | PERT =>
      orZero (randomPERT (emin (duration t)) (likely (duration t)) (emax (duration t)) 4)
  | Triangular =>
      randomTriangular (emin (duration t)) (likely (duration t)) (emax (duration t))
  end.

Definition sampleCost (t : Task) : Rand Q :=
  randomTriangular (emin (cost t)) (likely (cost t)) (emax (cost t)).

(** [tasks.map(f)] with the generator threaded from left to right *)
Fixpoint mapRand {A B} (f : A -> Rand B) (l : list A) : Rand (list B) :=
  match l with
  | [] => ret []
  | a :: rest =>
      bind (f a) (fun b => bind (mapRand f rest) (fun bs => ret (b :: bs)))
  end.
End Sampling.
Arguments Rand RNG A : clear implicits.
Arguments ret {RNG A}.
Arguments bind {RNG A B}.
Arguments mapRand {RNG A B}.

(** ** The Monte Carlo engine: [runMonteCarloSimulation] *)

Record SimulationRun := {
  run_totalDuration : Q;
  run_totalCost : Q;
  run_criticalPathTasks : JsSet.t
}.

(** [{ starts: [], finishes: [] }] *)
Record TimingSamples := {
  starts : list Q;
  finishes : list Q
}.

(** The arrays and objects the trial loop mutates. *)
Record Accumulators := {
  simulationRuns : list SimulationRun;
  allTaskTimings : JsMap.t TimingSamples;
  taskDurationSamples : list (list Q);
  taskCostSamples : list (list Q);
  criticalCounts : list Z
}.

(** [l[idx] = f(l[idx])]; the engine only uses indices below the length. *)
Fixpoint modifyAt {A} (f : A -> A) (idx : nat) (l : list A) : list A :=
  match l, idx with
  | [], _ => []
  | a :: rest, O => f a :: rest
  | a :: rest, S idx' => a :: modifyAt f idx' rest
  end.

(** [tasks.forEach((task, idx) => body)] on a state [S] *)
Definition forEachIndexed {S} (tasks : list Task) (body : S -> Task -> nat -> S)
  (s : S) : S :=
  fold_left (fun s ti => body s (snd ti) (fst ti))
    (combine (seq 0 (List.length tasks)) tasks) s.

(** [samples[idx].push(values[idx])] for every task index *)
Definition recordSamples (tasks : list Task) (values : list Q)
  (samples : list (list Q)) : list (list Q) :=
  forEachIndexed tasks
    (fun s _ idx => modifyAt (fun l => l ++ [nth idx values 0]) idx s) samples.

(** [samples[idx].pop()] for every task index *)
Definition dropSamples (tasks : list Task) (samples : list (list Q))
  : list (list Q) :=
  forEachIndexed tasks (fun s _ idx => modifyAt (@removelast Q) idx s) samples.

Definition countCritical (tasks : list Task) (criticalPathTasks : JsSet.t)
  (counts : list Z) : list Z :=
  forEachIndexed tasks
    (fun c t idx =>
       if JsSet.has criticalPathTasks (id t)
       then modifyAt (fun n => (n + 1)%Z) idx c else c)
    counts.

Definition recordTimings (tasks : list Task) (taskTimings : JsMap.t Timing)
  (all : JsMap.t TimingSamples) : JsMap.t TimingSamples :=
  fold_left
    (fun all t =>
       match JsMap.get all (id t), JsMap.get taskTimings (id t) with
       | Some samples, Some timing =>
           JsMap.set all (id t)
             {| starts := starts samples ++ [timing_es timing];
                finishes := finishes samples ++ [timing_ef timing] |}
       | _, _ => all
       end)
    tasks all.

Definition initialAccumulators (tasks : list Task) : Accumulators :=
  {| simulationRuns := [];
     allTaskTimings :=
       fold_left (fun acc t => JsMap.set acc (id t) {| starts := []; finishes := [] |})
         tasks JsMap.empty;
     taskDurationSamples := map (fun _ => []) tasks;
     taskCostSamples := map (fun _ => []) tasks;
     criticalCounts := map (fun _ => 0%Z) tasks |}.

(** What one trial does to the accumulators once its durations and costs
    are drawn. *)
Definition settleTrial (tasks : list Task) (runDurations runCosts : list Q)
  (acc : Accumulators) : Accumulators :=
  let durationSamples := recordSamples tasks runDurations (taskDurationSamples acc) in
  let costSamples := recordSamples tasks runCosts (taskCostSamples acc) in
  match calculateCPM tasks runDurations with
  | Some cpmResult =>
      {| simulationRuns :=
           simulationRuns acc ++
           [{| run_totalDuration := totalDuration cpmResult;
               run_totalCost := fold_left Qplus runCosts 0;
               run_criticalPathTasks := criticalPathTasks cpmResult |}];
         allTaskTimings :=
           recordTimings tasks (taskTimings cpmResult) (allTaskTimings acc);
         taskDurationSamples := durationSamples;
         taskCostSamples := costSamples;
         criticalCounts :=
           countCritical tasks (criticalPathTasks cpmResult) (criticalCounts acc) |}
  | None =>
      {| simulationRuns := simulationRuns acc;
         allTaskTimings := allTaskTimings acc;
         taskDurationSamples := dropSamples tasks durationSamples;
         taskCostSamples := dropSamples tasks costSamples;
         criticalCounts := criticalCounts acc |}
  end.

(** What [runMonteCarloSimulation] returns. *)
Record SimulationOutput (Analysis : Type) := {
  out_simulationRuns : list SimulationRun;
  out_analysis : option Analysis;          (* [None] is [null] *)
  out_taskDurationSamples : list (list Q);
  out_taskCostSamples : list (list Q);
  out_allTaskTimings : JsMap.t TimingSamples
}.
Arguments out_simulationRuns {Analysis}.
Arguments out_analysis {Analysis}.
Arguments out_taskDurationSamples {Analysis}.
Arguments out_taskCostSamples {Analysis}.
Arguments out_allTaskTimings {Analysis}.

(** A trial is valid when the scheduler returns on its durations. *)
Definition isValidTrial (tasks : list Task) (draw : list Q * list Q) : bool :=
  match calculateCPM tasks (fst draw) with Some _ => true | None => false end.

Section Engine.
Variable RNG : Type.
Variable realZeroToOneExclusive : RNG -> Q * RNG.
Variable boxMuller : RNG -> Q * RNG.
Variable Math_sqrt : Q -> Q.
Variable Math_exp : Q -> Q.

(** The aggregation into the [analysis] object (means, deviations,
    percentiles, sensitivities, criticality indices) is a parameter: the
    properties below concern whether it is computed, not its values. *)
Variable Analysis : Type.
Variable analyse : list Task -> Accumulators -> Analysis.

(** The generator together with a ghost counter of the trials executed
    (one per iteration of the simulation loop, that is, per call of
    [calculateCPM]). *)
Record World := {
  gen : RNG;
  trialsExecuted : nat
}.

Definition drawDurations (tasks : list Task) : Rand RNG (list Q) :=
  mapRand
    (sampleDuration RNG realZeroToOneExclusive boxMuller Math_sqrt Math_exp)
    tasks.

Definition drawCosts (tasks : list Task) : Rand RNG (list Q) :=
  mapRand (sampleCost RNG realZeroToOneExclusive Math_sqrt) tasks.

(** One iteration of the simulation loop. *)
Definition runTrial (tasks : list Task) (st : Accumulators * World)
  : Accumulators * World :=
  let (acc, w) := st in
  let (runDurations, g1) := drawDurations tasks (gen w) in
  let (runCosts, g2) := drawCosts tasks g1 in
  (settleTrial tasks runDurations runCosts acc,
   {| gen := g2; trialsExecuted := S (trialsExecuted w) |}).

(** The durations and the costs that one trial draws. *)
Definition drawTrial (tasks : list Task) : Rand RNG (list Q * list Q) :=
  bind (drawDurations tasks) (fun runDurations =>
  bind (drawCosts tasks) (fun runCosts => ret (runDurations, runCosts))).

(** The draws of the first [n] trials, in their order, and the generator
    after them. *)
Fixpoint drawnTrials (tasks : list Task) (n : nat) : Rand RNG (list (list Q * list Q)) :=
  match n with
  | O => ret []
  | S n' =>
      bind (drawnTrials tasks n') (fun draws =>
      bind (drawTrial tasks) (fun draw => ret (draws ++ [draw])))
  end.

(** The draws of the valid trials among the first [n]. *)
Definition validTrials (tasks : list Task) (n : nat) (g : RNG)
  : list (list Q * list Q) :=
  filter (isValidTrial tasks) (fst (drawnTrials tasks n g)).

(** [for (let i = 0; i < numRuns; i++)] *)
Definition simulationLoop (tasks : list Task) (numRuns : nat)
  (st : Accumulators * World) : Accumulators * World :=
  Nat.iter numRuns (runTrial tasks) st.

Definition emptyOutput : SimulationOutput Analysis :=
  {| out_simulationRuns := [];
     out_analysis := None;
     out_taskDurationSamples := [];
     out_taskCostSamples := [];
     out_allTaskTimings := JsMap.empty |}.

Definition runMonteCarloSimulation (tasks : list Task) (numRuns : nat) (w : World)
  : SimulationOutput Analysis * World :=
  let (acc, w') := simulationLoop tasks numRuns (initialAccumulators tasks, w) in
  let validRuns := List.length (simulationRuns acc) in
  if (validRuns =? 0)%nat then (emptyOutput, w')
  else
    ({| out_simulationRuns := simulationRuns acc;
        out_analysis := Some (analyse tasks acc);
        out_taskDurationSamples := taskDurationSamples acc;
        out_taskCostSamples := taskCostSamples acc;
        out_allTaskTimings := allTaskTimings acc |}, w').

(** *** The caller: [runSimulation] *)

Inductive SimulationError :=
| PleaseAddTask
| DirectCycle (taskName predecessorName : string)
| NoValidResults.

(** The React state that [runSimulation] writes. *)
Record AppState := {
  error : option SimulationError;
  simulationResults : option (list SimulationRun);
  analysis : option Analysis;
  shownTaskTimings : JsMap.t TimingSamples;
  isLoading : bool
}.

Definition setError (st : AppState) (e : SimulationError) : AppState :=
  {| error := Some e; simulationResults := simulationResults st;
     analysis := analysis st; shownTaskTimings := shownTaskTimings st;
     isLoading := isLoading st |}.

(** [new Map(tasks.map(t => [t.id, t]))] *)
Definition tasksById (tasks : list Task) : JsMap.t Task :=
  fold_left (fun m t => JsMap.set m (id t) t) tasks JsMap.empty.

(** [predecessor?.dependencies?.some(pDep => pDep.predecessorId === task.id)] *)
Definition dependsBack (predecessor : option Task) (tid : string) : bool :=
  match predecessor with
  | Some p => existsb (fun pDep => String.eqb (predecessorId pDep) tid) (dependencies p)
  | None => false
  end.

(** The first dependency of [t] whose predecessor depends on [t]. *)
Definition directCycleOf (byId : JsMap.t Task) (t : Task) : option SimulationError :=
  match find (fun dep => dependsBack (JsMap.get byId (predecessorId dep)) (id t))
          (dependencies t) with
  | Some dep =>
      match JsMap.get byId (predecessorId dep) with
      | Some predecessor => Some (DirectCycle (name t) (name predecessor))
      | None => None
      end
  | None => None
  end.

(** The two nested [for ... of] loops, left at their first hit. *)
Fixpoint findDirectCycle (byId : JsMap.t Task) (tasks : list Task)
  : option SimulationError :=
  match tasks with
  | [] => None
  | t :: rest =>
      match directCycleOf byId t with
      | Some e => Some e
      | None => findDirectCycle byId rest
      end
  end.

(** [runSimulation]: the deferred body of its [setTimeout] runs right
    after the state resets.  The engine returns an array, never [null],
    so the branch for [simRuns === null] is left out. *)
Definition runSimulation (tasks : list Task) (numRuns : nat)
  (st : AppState) (w : World) : AppState * World :=
  match tasks with
  | [] => (setError st PleaseAddTask, w)
  | _ =>
      match findDirectCycle (tasksById tasks) tasks with
      | Some e => (setError st e, w)
      | None =>
          let (out, w') := runMonteCarloSimulation tasks numRuns w in
          match out_simulationRuns out, out_analysis out with
          | _ :: _, Some simAnalysis =>
              ({| error := None;
                  simulationResults := Some (out_simulationRuns out);
                  analysis := Some simAnalysis;
                  shownTaskTimings := out_allTaskTimings out;
                  isLoading := false |}, w')
          | _, _ =>
              ({| error := Some NoValidResults;
                  simulationResults := None;
                  analysis := None;
                  shownTaskTimings := JsMap.empty;
                  isLoading := false |}, w')
          end
      end
  end.
End Engine.
Arguments gen {RNG}.
Arguments trialsExecuted {RNG}.
Arguments error {Analysis}.
Arguments simulationResults {Analysis}.
Arguments analysis {Analysis}.
Arguments shownTaskTimings {Analysis}.
Arguments isLoading {Analysis}.
Arguments setError {Analysis}.
Arguments emptyOutput {Analysis}.

(** ** Percentiles: [getPercentiles] (App.js and helpers.js agree) *)

Fixpoint insertSorted (x : Q) (l : list Q) : list Q :=
  match l with
  | [] => [x]
  | y :: rest => if Qle_bool x y then x :: l else y :: insertSorted x rest
  end.

(** [[...data].sort((a, b) => a - b)] *)
Definition sortAscending (data : list Q) : list Q :=
  fold_right insertSorted [] data.

(** [rank = (p / 100) * (n - 1)] *)
Definition rankOf (n : nat) (p : Q) : Q := (p / 100) * (inject_Z (Z.of_nat n) - 1).

(** The body of [percentiles.forEach]. *)
Definition percentileOf (sortedData : list Q) (p : Q) : Q :=
  let n := List.length sortedData in
  let rank := rankOf n p in
  let lowerIndex := Qfloor rank in
  let upperIndex := Qceiling rank in
  let weight := rank - inject_Z lowerIndex in
  if (Z.of_nat n <=? upperIndex)%Z then nth (n - 1) sortedData 0
  else if (lowerIndex <? 0)%Z then nth 0 sortedData 0
  else nth (Z.to_nat lowerIndex) sortedData 0 * (1 - weight)
       + nth (Z.to_nat upperIndex) sortedData 0 * weight.

(** The result object as the list of its assignments; [None] is [NaN]. *)
Definition getPercentiles (data percentiles : list Q) : list (Q * option Q) :=
  match data with
  | [] => map (fun p => (p, None)) percentiles
  | _ => let sortedData := sortAscending data in
         map (fun p => (p, Some (percentileOf sortedData p))) percentiles
  end.


(** ** The criticality index of the analysis *)

(** [analysis.criticalityIndex = criticalCounts.map(count => count / validRuns)] *)
Definition criticalityIndex (acc : Accumulators) : list Q :=
  let validRuns := List.length (simulationRuns acc) in
  map (fun count => inject_Z count / inject_Z (Z.of_nat validRuns)) (criticalCounts acc).

(** ** Editing the task list: [handleSaveTask], [deleteTask] *)

Definition MAX_TASKS : nat := 100.

(** What [handleSaveTask] does to the task list: nothing but an error
    message when a new task would exceed [MAX_TASKS]. *)
Inductive SaveOutcome :=
| CannotAddMore
| Saved (tasks : list Task).

Definition handleSaveTask (taskData : Task) (isEditing : bool) (tasks : list Task)
  : SaveOutcome :=
  if negb isEditing && (MAX_TASKS <=? List.length tasks)%nat then CannotAddMore
  else
    Saved (if isEditing
           then map (fun task => if String.eqb (id task) (id taskData)
                                 then taskData else task) tasks
           else tasks ++ [taskData]).

(** [{ ...task, dependencies: updatedDependencies }] *)
Definition withDependencies (t : Task) (deps : list Dependency) : Task :=
  {| id := id t; name := name t; distType := distType t; duration := duration t;
     normalParams := normalParams t; logNormalParams := logNormalParams t;
     cost := cost t; dependencies := deps |}.

(** The task list after [deleteTask(taskIdToDelete)]. *)
Definition deleteTask (taskIdToDelete : string) (prevTasks : list Task) : list Task :=
  map (fun task =>
         withDependencies task
           (filter (fun dep => negb (String.eqb (predecessorId dep) taskIdToDelete))
              (dependencies task)))
    (filter (fun task => negb (String.eqb (id task) taskIdToDelete)) prevTasks).

(** ** The order of the task list: [compareWbsArrays] *)

(** The parts of a WBS code are the integers that [parseWbsCode] yields.
    The loop over the common prefix, then the difference of the lengths. *)
Fixpoint compareWbsArrays (a b : list Z) : Z :=
  match a, b with
  | x :: a', y :: b' =>
      if (x <? y)%Z then (-1)%Z
      else if (y <? x)%Z then 1%Z
      else compareWbsArrays a' b'
  | _, _ => (Z.of_nat (List.length a) - Z.of_nat (List.length b))%Z
  end.

(** ** The code in doubles *)

(** The numeric functions of the code on the binary64 floats of the
    kernel: [+], [-], [*], [/] and [sqrt] are the IEEE operations with
    rounding to nearest, [=?], [<?] and [<=?] the IEEE comparisons, which
    are what JavaScript's arithmetic, [Math.sqrt], [===], [<] and [<=] are
    on numbers.  [Math.exp], [Math.log], [Math.cos] and [Math.pow] have no
    counterpart here: [randomNormal] and [randomLogNormal] are modelled in
    the exact reading only, and [Math.pow] is a parameter. *)
Module Double.
Import Floats.
Local Open Scope float_scope.

(** [Math.max(a, b)]: [NaN] when an argument is, and [+0] above [-0]. *)
Definition Math_max (a b : float) : float :=
  if is_nan a || is_nan b then nan
  else if a <? b then b
  else if b <? a then a
  else if get_sign a then b else a.

(** [Math.min(a, b)]: [NaN] when an argument is, and [-0] below [+0]. *)
Definition Math_min (a b : float) : float :=
  if is_nan a || is_nan b then nan
  else if a <? b then a
  else if b <? a then b
  else if get_sign a then a else b.

(** [x || d] on numbers: zero of either sign and [NaN] are falsy. *)
Definition orElse (x d : float) : float :=
  if is_nan x || is_zero x then d else x.

(** The double of an integer below 2^53 in size. *)
Definition ofZ (z : Z) : float :=
  match z with
  | Z0 => 0
  | Zpos _ => of_uint63 (Uint63.of_Z z)
  | Zneg p => - of_uint63 (Uint63.of_Z (Zpos p))
  end.

(** The number of a length or of an index. *)
Definition ofNat (n : nat) : float := ofZ (Z.of_nat n).

(** The double nearest to a rational whose numerator and denominator are
    below 2^53: what [parseFloat] makes of its decimal. *)
Definition ofQ (q : Q) : float := ofZ (Qnum q) / ofZ (Zpos (Qden q)).

(** The integer not above a finite double. *)
Definition floorZ (x : float) : option Z :=
  match Prim2SF x with
  | S754_zero _ => Some 0%Z
  | S754_finite s m e =>
      let n := if s then Zneg m else Zpos m in
      Some (if (0 <=? e)%Z then n * 2 ^ e else Z.shiftr n (- e))%Z
  | _ => None
  end.

(** [Math.floor(x)]: integers, zeros, infinities and [NaN] are returned as
    they are. *)
Definition Math_floor (x : float) : float :=
  match Prim2SF x with
  | S754_finite s m e =>
      if (0 <=? e)%Z then x
      else match floorZ x with Some z => ofZ z | None => x end
  | _ => x
  end.

(** [Math.ceil(x)], which is [-Math.floor(-x)]. *)
Definition Math_ceil (x : float) : float := - Math_floor (- x).

(** [a[i]] for a number [i]: [undefined], here [None], unless [i] is an
    index of [a]. *)
Definition at_ {A} (a : list A) (i : float) : option A :=
  match floorZ i with
  | Some z => if (0 <=? z)%Z && (ofZ z =? i) then nth_error a (Z.to_nat z) else None
  | None => None
  end.

(** *** The statistics in doubles *)

(** [a.reduce((acc, val) => acc + f(val), 0)] *)
Definition sumOf (f : float -> float) (a : list float) : float :=
  fold_left (fun acc val => acc + f val) a 0.

(** [a.reduce((acc, val) => acc + val, 0) / n] *)
Definition meanOf (n : nat) (a : list float) : float :=
  sumOf (fun val => val) a / ofNat n.

(** [Math.sqrt(a.reduce((acc, val) => acc + (val - mean) ** 2, 0) / (n - 1))].
    [v ** 2] is taken as [v * v], which is what the engines compute for
    the exponent 2. *)
Definition stdDevOf (n : nat) (a : list float) : float :=
  let mean := meanOf n a in
  sqrt (sumOf (fun val => (val - mean) * (val - mean)) a / (ofNat n - 1)).

(** The [for] loop accumulating [numerator]; [x] and [y] have the same
    length where it runs. *)
Definition crossDeviations (meanX meanY : float) (x y : list float) : float :=
  fold_left (fun numerator xy => numerator + (fst xy - meanX) * (snd xy - meanY))
    (combine x y) 0.

(** [pearsonCorrelation(x, y)] *)
Definition pearsonCorrelation (x y : list float) : float :=
  let n := List.length x in
  if (n <=? 1)%nat || negb (n =? List.length y)%nat then 0
  else
    let meanX := meanOf n x in
    let meanY := meanOf n y in
    let stdDevX := stdDevOf n x in
    let stdDevY := stdDevOf n y in
    if (stdDevX =? 0) || (stdDevY =? 0) then 0
    else
      let numerator := crossDeviations meanX meanY x y in
      let denominator := (ofNat n - 1) * stdDevX * stdDevY in
      if denominator =? 0 then 0
      else Math_max (-1) (Math_min 1 (numerator / denominator)).

(** [[...data].sort((a, b) => a - b)] on data without [NaN], where the
    comparator is an order and every sorting algorithm agrees; equal
    numbers keep their order. *)
Fixpoint insertSorted (x : float) (l : list float) : list float :=
  match l with
  | [] => [x]
  | y :: rest => if x <? y then x :: l else y :: insertSorted x rest
  end.

Definition sortAscending (data : list float) : list float :=
  fold_left (fun sorted x => insertSorted x sorted) data [].

(** [sortedData[i]] inside an arithmetic expression: [undefined] counts as
    [NaN]. *)
Definition valueAt (sortedData : list float) (i : float) : float :=
  match at_ sortedData i with Some v => v | None => nan end.

(** The body of [percentiles.forEach]. *)
Definition percentileOf (sortedData : list float) (p : float) : float :=
  let n := ofNat (List.length sortedData) in
  let rank := (p / 100) * (n - 1) in
  let lowerIndex := Math_floor rank in
  let upperIndex := Math_ceil rank in
  let weight := rank - lowerIndex in
  if n <=? upperIndex then valueAt sortedData (n - 1)
  else if lowerIndex <? 0 then valueAt sortedData 0
  else valueAt sortedData lowerIndex * (1 - weight)
       + valueAt sortedData upperIndex * weight.

(** The result object as the list of its assignments. *)
Definition getPercentiles (data percentiles : list float) : list (float * float) :=
  match data with
  | [] => map (fun p => (p, nan)) percentiles
  | _ => let sortedData := sortAscending data in
         map (fun p => (p, percentileOf sortedData p)) percentiles
  end.

(** [Math.min(...data)] and [Math.max(...data)] *)
Definition minOf (data : list float) : float := fold_left Math_min data infinity.
Definition maxOf (data : list float) : float := fold_left Math_max data neg_infinity.

(** The bin that [calculateHistogram] counts [value] in; [None] when the
    index is [NaN], where [bins[binIndex]++] sets a property and leaves
    every count as it is. *)
Definition binIndexOf (minVal binWidth : float) (effectiveBinCount : nat)
  (value : float) : option nat :=
  let binIndex := Math_floor ((value - minVal) / binWidth) in
  let binIndex := if binIndex =? ofNat effectiveBinCount then binIndex - 1 else binIndex in
  let binIndex := Math_max 0 (Math_min binIndex (ofNat effectiveBinCount - 1)) in
  match floorZ binIndex with Some z => Some (Z.to_nat z) | None => None end.

(** The bounds of a bin stand for its label, which prints them with one
    decimal. *)
Record Histogram := {
  bounds : list (float * float);
  counts : list nat
}.

(** [calculateHistogram(data, binCount)]; the callers leave [binCount] at
    its default, 20, and the model covers the bin counts from 1 on.  The
    spread of [data] into the arguments of [Math.min] and [Math.max] throws
    above the number of arguments that the engine accepts in one call. *)
Definition calculateHistogram (argumentLimit : N) (data : list float)
  (binCount : positive) : Outcome Histogram :=
  match data with
  | [] => Returned {| bounds := []; counts := [] |}
  | _ =>
      if (argumentLimit <? N.of_nat (List.length data))%N
      then Thrown RangeError
      else
        let minVal := minOf data in
        let maxVal := maxOf data in
        if minVal =? maxVal
        then Returned {| bounds := [(minVal, minVal)]; counts := [List.length data] |}
        else
          let range := maxVal - minVal in
          let effectiveBinCount := Pos.to_nat (Pos.min binCount (Pos.max 1 binCount)) in
          let binWidth := range / ofNat effectiveBinCount in
          Returned
            {| bounds :=
                 map (fun i => let binStart := minVal + ofNat i * binWidth in
                               (binStart, binStart + binWidth))
                   (seq 0 effectiveBinCount);
               counts :=
                 fold_left
                   (fun bins value =>
                      match binIndexOf minVal binWidth effectiveBinCount value with
                      | Some binIndex => modifyAt S binIndex bins
                      | None => bins
                      end)
                   data (repeat 0%nat effectiveBinCount) |}
  end.

(** *** The samplers in doubles *)

(** [Math.max(min, Math.min(x, max))] *)
Definition clamp (min x max : float) : float := Math_max min (Math_min x max).

(** [mu = (min + gamma * likely + max) / (gamma + 2)] *)
Definition pertMean (min likely max gamma : float) : float :=
  (min + gamma * likely + max) / (gamma + 2).

(** The Beta shape parameters of [randomPERT]; [None] is the
    "calculation instability" exit. *)
Definition pertShape (min clampedLikely max gamma : float) : option (float * float) :=
  let range := max - min in
  let mu := pertMean min clampedLikely max gamma in
  if (mu =? max) || (clampedLikely =? mu) then Some (gamma + 1, 1)
  else if mu =? min then Some (1, gamma + 1)
  else
    let muMinusMin := mu - min in
    let maxMinusMu := max - mu in
    let likelyMinusMu := clampedLikely - mu in
    if (likelyMinusMu =? 0) || (muMinusMin =? 0) || (range =? 0) then None
    else
      let alpha :=
        (muMinusMin * (2 * clampedLikely - min - max)) / (likelyMinusMu * range) in
      let beta := (alpha * maxMinusMu) / muMinusMin in
      Some (alpha, beta).

(** [!isFinite(alpha) || !isFinite(beta) || alpha <= 0 || beta <= 0] *)
Definition invalidShape (alpha beta : float) : bool :=
  negb (is_finite alpha) || negb (is_finite beta) || (alpha <=? 0) || (beta <=? 0).

Section Sampling.
Variable RNG : Type.
Variable realZeroToOneExclusive : RNG -> float * RNG.

Definition randomTriangular (min mode max : float) : Rand RNG float :=
  if max =? min then ret min
  else
    let range := max - min in
    let clampedMode := clamp min mode max in
    let c := (clampedMode - min) / range in
    bind realZeroToOneExclusive (fun u =>
      if u <? c
      then ret (min + sqrt (u * range * (clampedMode - min)))
      else ret (max - sqrt ((1 - u) * range * (max - clampedMode)))).

(** [randomPERT] of App.js.  [random] is a [Random] of random-js, which has
    no method [beta]: with a valid shape the call [random.beta(alpha, beta)]
    throws a [TypeError], before any draw. *)
Definition randomPERT (min likely max gamma : float) : Rand RNG (Outcome float) :=
  if max =? min then ret (Returned min)
  else if (max <? min) || (likely <? min) || (max <? likely) then ret (Returned likely)
  else
    let range := max - min in
    let clampedLikely := clamp min likely max in
    match pertShape min clampedLikely max gamma with
    | None => bind (randomTriangular min clampedLikely max) (fun x => ret (Returned x))
    | Some (alpha, beta) =>
        if invalidShape alpha beta
        then bind (randomTriangular min clampedLikely max) (fun x => ret (Returned x))
        else ret (Thrown TypeError)
    end.
End Sampling.

(** [randomPERT] of helpers.js: [Math.random] and [Math.pow] are
    parameters. *)
Module Helpers.
Section Sampler.
Variable RNG : Type.
Variable Math_random : RNG -> float * RNG.
Variable Math_pow : float -> float -> float.

Definition randomPERT (min likely max gamma : float) : Rand RNG float :=
  if max =? min then ret min
  else if (max <? min) || (likely <? min) || (max <? likely) then ret likely
  else
    let range := max - min in
    let mu := pertMean min likely max gamma in
    let v := mu - min in
    let w := max - mu in
    let alpha := orElse ((v * (2 * likely - min - max)) / (range * (likely - mu))) 1 in
    let beta := orElse ((alpha * w) / v) 1 in
    if invalidShape alpha beta then ret ((min + likely + max) / 3)
    else
      bind Math_random (fun u1 =>
      bind Math_random (fun u2 =>
        let x := Math_pow u1 (1 / alpha) in
        let y := Math_pow u2 (1 / beta) in
        let betaSample := x / (x + y) in
        ret (min + betaSample * range))).
End Sampler.
End Helpers.

(** *** The passes of [calculateCPM] in doubles

    The nodes, the graph and the topological order hold no number: they
    are [buildNodes], [buildGraph] and [topoSort] above.  A lag is read
    through [ofQ]. *)

Record TaskEntry := {
  task : Task;
  index : nat;
  sampled : option float
}.

Definition buildTaskMap (tasks : list Task) (runDurations : list float)
  : JsMap.t TaskEntry :=
  fst (fold_left
         (fun (acc : JsMap.t TaskEntry * nat) t =>
            let (m, i) := acc in
            (JsMap.set m (id t)
               {| task := t; index := i; sampled := nth_error runDurations i |},
             S i))
         tasks (JsMap.empty, 0%nat)).

Abbreviation Times := (JsMap.t float).

(** [m.get(k) || 0] *)
Definition getOrZero (m : Times) (k : string) : float :=
  match JsMap.get m k with Some x => orElse x 0 | None => 0 end.

(** [m.get(k) ?? d] *)
Definition getOr (m : Times) (k : string) (d : float) : float :=
  match JsMap.get m k with Some x => x | None => d end.

Definition findDependency (entry : option TaskEntry) (i : string)
  : option Dependency :=
  match entry with
  | Some e => find (fun d => String.eqb (predecessorId d) i) (dependencies (task e))
  | None => None
  end.

(** [dependency?.lag || 0] *)
Definition lagOf (d : option Dependency) : float :=
  match d with Some d => orElse (ofQ (lag d)) 0 | None => 0 end.

(** [Math.max(0, entry?.duration ?? 0)] *)
Definition clampedDuration (entry : option TaskEntry) : float :=
  Math_max 0 (match entry with
              | Some e => match sampled e with Some d => d | None => 0 end
              | None => 0
              end).

Definition requiredStart (depType : DepType) (esI efI lag durJ : float) : float :=
  match depType with
  | FS => efI + lag
  | SS => esI + lag
  | FF => efI + lag - durJ
  | SF => esI + lag - durJ
  end.

Definition requiredFinish (depType : DepType) (lsJ lfJ lag durI : float) : float :=
  match depType with
  | FS => lsJ - lag
  | SS => lsJ - lag + durI
  | FF => lfJ - lag
  | SF => lfJ - lag + durI
  end.

Section Passes.
Variable taskMap : JsMap.t TaskEntry.
Variable g : Graph.

Definition forwardDuration (j : string) : float :=
  if String.eqb j "END" then 0 else clampedDuration (JsMap.get taskMap j).

Definition backwardDuration (i : string) : float :=
  if String.eqb i "START" then 0 else clampedDuration (JsMap.get taskMap i).

Definition startDueTo (es ef : Times) (j i : string) : float :=
  let dependency := findDependency (JsMap.get taskMap j) i in
  requiredStart (depTypeOf dependency) (getOrZero es i) (getOrZero ef i)
    (lagOf dependency) (forwardDuration j).

Definition earliestStartOf (es ef : Times) (j : string) : float :=
  fold_left (fun earliestStartJ i => Math_max earliestStartJ (startDueTo es ef j i))
    (getList (revAdj g) j) 0.

Definition forwardStep (st : Times * Times) (j : string) : Times * Times :=
  if String.eqb j "START" then st
  else
    let earliestStartJ := earliestStartOf (fst st) (snd st) j in
    (JsMap.set (fst st) j earliestStartJ,
     JsMap.set (snd st) j (earliestStartJ + forwardDuration j)).

Definition initTimes (nodes : JsSet.t) (v : float) : Times :=
  fold_left (fun m n => JsMap.set m n v) nodes JsMap.empty.

Definition forwardPass (nodes : JsSet.t) (topoOrder : list string)
  : Times * Times :=
  fold_left forwardStep topoOrder (initTimes nodes 0, initTimes nodes 0).

Definition finishDueTo (totalDuration : float) (ls lf : Times) (i j : string) : float :=
  let dependency := findDependency (JsMap.get taskMap j) i in
  requiredFinish (depTypeOf dependency) (getOr ls j totalDuration)
    (getOr lf j totalDuration) (lagOf dependency) (backwardDuration i).

Definition latestFinishOf (totalDuration : float) (ls lf : Times) (i : string) : float :=
  fold_left (fun latestFinishI j =>
               Math_min latestFinishI (finishDueTo totalDuration ls lf i j))
    (getList (adj g) i) totalDuration.

Definition backwardStep (totalDuration : float) (st : Times * Times) (i : string)
  : Times * Times :=
  if String.eqb i "END" then st
  else
    let latestFinishI := latestFinishOf totalDuration (fst st) (snd st) i in
    (JsMap.set (fst st) i (latestFinishI - backwardDuration i),
     JsMap.set (snd st) i latestFinishI).

(** Returns [(ls, lf)]. *)
Definition backwardPass (nodes : JsSet.t) (topoOrder : list string)
  (totalDuration : float) : Times * Times :=
  fold_left (backwardStep totalDuration) (rev topoOrder)
    (JsMap.set (initTimes nodes totalDuration) "END" totalDuration,
     JsMap.set (initTimes nodes totalDuration) "END" totalDuration).
End Passes.

Record Schedule := {
  es : Times;
  ef : Times;
  ls : Times;
  lf : Times;
  projectFinish : float
}.

Definition schedule (tasks : list Task) (runDurations : list float) : option Schedule :=
  let taskMap := buildTaskMap tasks runDurations in
  let nodes := buildNodes tasks in
  let g := buildGraph tasks in
  match topoSort nodes (adj g) with
  | None => None
  | Some topoOrder =>
      if negb (List.length topoOrder =? List.length nodes)%nat then None
      else
        let fw := forwardPass taskMap g nodes topoOrder in
        let totalDuration := getOr (snd fw) "END" nan in
        let bw := backwardPass taskMap g nodes topoOrder totalDuration in
        Some {| es := fst fw; ef := snd fw; ls := fst bw; lf := snd bw;
                projectFinish := totalDuration |}
  end.

Definition MIN_SLACK_TOLERANCE : float := 1e-6.

(** The critical-path test of one task; a time that is missing or [NaN]
    makes both comparisons false. *)
Definition isCritical (s : Schedule) (tid : string) : bool :=
  let esVal := getOr (es s) tid nan in
  let lsVal := getOr (ls s) tid nan in
  let efVal := getOr (ef s) tid nan in
  let currentSlack := lsVal - esVal in
  (abs currentSlack <? MIN_SLACK_TOLERANCE)
  || (abs (efVal - projectFinish s) <? MIN_SLACK_TOLERANCE).

(** [{ es, ef }]; [None] is [undefined]. *)
Record Timing := { timing_es : option float; timing_ef : option float }.

Record CPMResult := {
  totalDuration : float;
  criticalPathTasks : JsSet.t;
  taskTimings : JsMap.t Timing
}.

Definition resultOf (tasks : list Task) (s : Schedule) : CPMResult :=
  {| totalDuration := projectFinish s;
     criticalPathTasks :=
       fold_left (fun cp t => if isCritical s (id t) then JsSet.add cp (id t) else cp)
         tasks [];
     taskTimings :=
       fold_left (fun m t => JsMap.set m (id t)
                               {| timing_es := JsMap.get (es s) (id t);
                                  timing_ef := JsMap.get (ef s) (id t) |})
         tasks JsMap.empty |}.

(** [calculateCPM(tasks, runDurations)] on doubles; [None] is the [null]
    of a cycle. *)
Definition calculateCPM (tasks : list Task) (runDurations : list float)
  : option CPMResult :=
  option_map (resultOf tasks) (schedule tasks runDurations).

(** *** Generators used as examples: every uniform draw is 0, or 1/2. *)

Definition zeroDraws : unit -> float * unit := fun r => (0, r).


End Double.

(** ** Task sets used as examples *)

(** A task whose duration is [Triangular(d, d, d)]. *)
Definition fixedTask (tid : string) (d : Q) (deps : list Dependency) : Task :=
  {| id := tid; name := tid; distType := Triangular;
     duration := {| emin := d; likely := d; emax := d |};
     normalParams := (0, 0); logNormalParams := (0, 0);
     cost := {| emin := 0; likely := 0; emax := 0 |};
     dependencies := deps |}.

Definition dependsOn (p : string) (ty : DepType) (l : Q) : Dependency :=
  {| predecessorId := p; type := ty; lag := l |}.

(** T1 -> T2 -> T3, finish-to-start, no lag, durations 5, 3, 4. *)
Definition chainTasks : list Task :=
  [fixedTask "T1" 5 [];
   fixedTask "T2" 3 [dependsOn "T1" FS 0];
   fixedTask "T3" 4 [dependsOn "T2" FS 0]].

(** B may start 10 before A finishes (a lead), A lasting 5. *)
Definition leadTasks : list Task :=
  [fixedTask "A" 5 [];
   fixedTask "B" 3 [dependsOn "A" FS (-10)]].


(** A and B depend on each other. *)
Definition cyclicTasks : list Task :=
  [fixedTask "A" 5 [dependsOn "B" FS 0];
   fixedTask "B" 3 [dependsOn "A" FS 0]].


(** B declares A twice: finish-to-start with lag 1, then start-to-start
    with lag 7. *)
Definition repeatedTasks : list Task :=
  [fixedTask "A" 2 [];
   fixedTask "B" 1 [dependsOn "A" FS 1; dependsOn "A" SS 7]].

(** A task alone. *)
Definition soloTasks : list Task := [fixedTask "A" 1 []].

(** A task whose duration is PERT(2, 4, 12). *)
Definition pertTask : Task :=
  {| id := "P"; name := "P"; distType := PERT;
     duration := {| emin := 2; likely := 4; emax := 12 |};
     normalParams := (0, 0); logNormalParams := (0, 0);
     cost := {| emin := 0; likely := 0; emax := 0 |};
     dependencies := [] |}.

(** [ls - es] of a node *)
Definition slackOf (s : Schedule) (n : string) : Q :=
  getOr (ls s) n 0 - getOr (es s) n 0.

(** Two tasks under one id. *)
Definition twinTasks : list Task := [fixedTask "T" 1 []; fixedTask "T" 2 []].

(** ** Invariants used in the proofs *)

(** What the forward pass keeps true of its two tables. *)
Definition forwardInvariant (st : Times * Times) : Prop :=
  (forall k, JsMap.has (fst st) k = JsMap.has (snd st) k) /\
  (forall k a, JsMap.get (fst st) k = Some a -> 0 <= a) /\
  (forall k a b, JsMap.get (fst st) k = Some a -> JsMap.get (snd st) k = Some b ->
                 a <= b).

(** The sample sequences all have the length of the run list. *)
Definition consistentAccumulators (tasks : list Task) (acc : Accumulators) : Prop :=
  let validRuns := List.length (simulationRuns acc) in
  List.length (taskDurationSamples acc) = List.length tasks /\
  List.length (taskCostSamples acc) = List.length tasks /\
  Forall (fun l => List.length l = validRuns) (taskDurationSamples acc) /\
  Forall (fun l => List.length l = validRuns) (taskCostSamples acc) /\
  (forall t, In t tasks -> JsMap.has (allTaskTimings acc) (id t) = true) /\
  (forall k samples, JsMap.get (allTaskTimings acc) k = Some samples ->
     In k (map id tasks) /\
     List.length (starts samples) = validRuns /\
     List.length (finishes samples) = validRuns).

(** A generator without state, for the examples: every uniform draw is
    1/2, every normal draw 0; square root and exponential are replaced by
    the identity, and there is nothing to analyse. *)
Definition halves : unit -> Q * unit := fun r => (1 # 2, r).
Definition zeros : unit -> Q * unit := fun r => (0, r).
Definition sameNumber : Q -> Q := fun q => q.
Definition noAnalysis : list Task -> Accumulators -> unit := fun _ _ => tt.

Definition startWorld : World unit := {| gen := tt; trialsExecuted := 0 |}.

Definition startState : AppState unit :=
  {| error := None; simulationResults := None; analysis := None;
     shownTaskTimings := JsMap.empty; isLoading := false |}.

(** A square root that is exact on the squares of the integers. *)
Definition integerRoot : Q -> Q := fun q => inject_Z (Z.sqrt (Qfloor q)).


(** The number of edges into [v] from nodes that are not yet [done]. *)
Definition pendingIn (adj : Adjacency) (done : list string) (v : string) : nat :=
  fold_right
    (fun (entry : string * list string) acc =>
       ((if in_dec string_dec (fst entry) done then 0
         else count_occ string_dec (snd entry) v) + acc)%nat)
    0%nat adj.

(** Every predecessor of a node of [order] comes before it. *)
Definition topologicallyOrdered (adj : Adjacency) (order : list string) : Prop :=
  forall l1 v l2, order = l1 ++ v :: l2 -> forall u, In v (getList adj u) -> In u l1.

(** What Kahn's loop keeps true: [done] are the nodes taken off the queue,
    [remaining] the successors of the current node still to be visited,
    [listed] the nodes enqueued so far, in the order of their enqueueing. *)
Definition kahnInvariant (adj : Adjacency) (done remaining : list string)
  (inDegree : JsMap.t Z) (listed : list string) : Prop :=
  (forall v d, JsMap.get inDegree v = Some d ->
               d = Z.of_nat (pendingIn adj done v + count_occ string_dec remaining v)) /\
  (forall v, In v listed -> JsMap.get inDegree v = Some 0%Z) /\
  NoDup listed /\
  topologicallyOrdered adj listed /\
  incl done listed.

(** [m.get(k) || 0] on in-degrees *)
Definition getZ (m : JsMap.t Z) (k : string) : Z :=
  match JsMap.get m k with Some d => d | None => 0%Z end.

(** What the construction of the graph keeps true: [adj] has distinct keys
    and START among them, every entry of [revAdj] mirrors one of [adj], and
    every successor is a node of [ns]. *)
Definition graphInvariant (ns : list string) (g : Graph) : Prop :=
  NoDup (JsMap.keys (adj g)) /\
  JsMap.has (adj g) "START" = true /\
  (forall i j, In i (getList (revAdj g) j) -> In j (getList (adj g) i)) /\
  (forall u v, In v (getList (adj g) u) -> In v ns).

(** Every node has an in-degree, and those whose in-degree is 0 have been
    enqueued. *)
Definition kahnCovers (ns : list string) (inDegree : JsMap.t Z)
  (listed : list string) : Prop :=
  (forall v, In v ns -> JsMap.has inDegree v = true) /\
  (forall v, In v ns -> JsMap.get inDegree v = Some 0%Z -> In v listed).

(** The edges of the graph, and what it means for it to have no cycle. *)
Definition edgeOf (adj : Adjacency) (u v : string) : Prop := In v (getList adj u).

Definition acyclic (adj : Adjacency) : Prop :=
  forall v, ~ clos_trans string (edgeOf adj) v v.

(** Consecutive elements of [l] are linked by [edge]. *)
Fixpoint chained (edge : string -> string -> Prop) (l : list string) : Prop :=
  match l with
  | a :: (b :: _) as rest => edge a b /\ chained edge rest
  | _ => True
  end.

(** [u] stands before [v] in [order]. *)
Definition precedes (order : list string) (u v : string) : Prop :=
  exists l1 l2, order = l1 ++ v :: l2 /\ In u l1.

(** ** Definitions used in the further properties *)

(** [predId && adj.has(predId)] for a graph whose keys are START and the
    task ids. *)
Definition isKnown (tasks : list Task) (p : string) : bool :=
  negb (String.eqb p "")
  && (String.eqb p "START" || existsb (String.eqb p) (map id tasks)).

(** The predecessors that [t] declares and the graph knows, in the order of
    the declarations. *)
Definition knownPredecessors (tasks : list Task) (t : Task) : list string :=
  filter (isKnown tasks) (map predecessorId (dependencies t)).

(** The predecessors of [t] in the graph: START is added when no other is
    known. *)
Definition incomingOf (tasks : list Task) (t : Task) : list string :=
  let known := knownPredecessors tasks t in
  if (List.length (filter (fun p => negb (String.eqb p "START")) known) =? 0)%nat
  then known ++ ["START"] else known.

(** Some task declares [t] as a known predecessor. *)
Definition hasSuccessor (tasks : list Task) (t : Task) : bool :=
  existsb (fun t' => existsb (String.eqb (id t)) (knownPredecessors tasks t')) tasks.

(** [adj] and [revAdj] hold the same edges. *)
Definition mirrored (g : Graph) : Prop :=
  forall u v, In v (getList (adj g) u) <-> In u (getList (revAdj g) v).

(** The keys of [g] are those of [initGraph tasks]. *)
Definition keysOf (tasks : list Task) (g : Graph) : Prop :=
  (forall k, JsMap.has (adj g) k
             = (String.eqb k "START" || existsb (String.eqb k) (map id tasks))) /\
  (forall k, JsMap.has (revAdj g) k
             = (String.eqb k "END" || existsb (String.eqb k) (map id tasks))).

Definition isEmpty {A} (l : list A) : bool := match l with [] => true | _ => false end.

Definition strayTasks : list Task :=
  [fixedTask "A" 1 [dependsOn "ghost" FS 0];
   fixedTask "B" 2 [dependsOn "A" FS 0; dependsOn "START" FS 0]].

(** Task [v] declares the task [u] as a predecessor. *)
Definition dependsDirectly (tasks : list Task) (u v : string) : Prop :=
  exists t, In t tasks /\ id t = v /\ In u (knownPredecessors tasks t) /\ u <> "START".

(** A -> B -> C -> A: a cycle in which no two tasks depend on each
    other. *)
Definition ringTasks : list Task :=
  [fixedTask "A" 1 [dependsOn "C" FS 0];
   fixedTask "B" 1 [dependsOn "A" FS 0];
   fixedTask "C" 1 [dependsOn "B" FS 0]].

(** The number of runs in which [t] is on the critical path. *)
Definition timesCritical (t : Task) (runs : list SimulationRun) : nat :=
  List.length (filter (fun r => JsSet.has (run_criticalPathTasks r) (id t)) runs).

(** Two tasks with costs: 10 for the first, between 20 and 40 for the
    second. *)
Definition pricedTasks : list Task :=
  [{| id := "P1"; name := "survey"; distType := Triangular;
      duration := {| emin := 2; likely := 2; emax := 2 |};
      normalParams := (0, 0); logNormalParams := (0, 0);
      cost := {| emin := 10; likely := 10; emax := 10 |};
      dependencies := [] |};
   {| id := "P2"; name := "build"; distType := Triangular;
      duration := {| emin := 4; likely := 4; emax := 4 |};
      normalParams := (0, 0); logNormalParams := (0, 0);
      cost := {| emin := 20; likely := 36; emax := 40 |};
      dependencies := [dependsOn "P1" FS 0] |}].

(** The run that the engine records for a trial, when the trial is valid. *)
Definition recordedRun (tasks : list Task) (draw : list Q * list Q)
  : option SimulationRun :=
  match calculateCPM tasks (fst draw) with
  | Some cpmResult =>
      Some {| run_totalDuration := totalDuration cpmResult;
              run_totalCost := fold_left Qplus (snd draw) 0;
              run_criticalPathTasks := criticalPathTasks cpmResult |}
  | None => None
  end.

(** The timing that the scheduler returns for the task [k] in a trial. *)
Definition recordedTiming (tasks : list Task) (k : string) (draw : list Q * list Q)
  : option Timing :=
  match calculateCPM tasks (fst draw) with
  | Some cpmResult => JsMap.get (taskTimings cpmResult) k
  | None => None
  end.

(** The values that are there, in their order. *)
Fixpoint present {A} (l : list (option A)) : list A :=
  match l with
  | [] => []
  | Some a :: rest => a :: present rest
  | None :: rest => present rest
  end.

(** One action on the task list. *)
Inductive Edit :=
| Save (taskData : Task) (isEditing : bool)
| Delete (taskId : string).

Definition applyEdit (tasks : list Task) (e : Edit) : list Task :=
  match e with
  | Save taskData isEditing =>
      match handleSaveTask taskData isEditing tasks with
      | Saved tasks' => tasks'
      | CannotAddMore => tasks
      end
  | Delete taskId => deleteTask taskId tasks
  end.

(** * Properties *)

(** ** Numbers and containers *)

Lemma Qltb_lt (a b : Q) : Qltb a b = true <-> a < b.
Proof.
  unfold Qltb. rewrite negb_true_iff. split.
  - intros H. apply Qnot_le_lt. intros Hle.
    apply Qle_bool_iff in Hle. congruence.
  - intros H. destruct (Qle_bool b a) eqn:E; [|reflexivity].
    apply Qle_bool_iff in E. exfalso. exact (Qlt_not_le _ _ H E).
Qed.

Lemma Qltb_ge (a b : Q) : Qltb a b = false <-> b <= a.
Proof.
  unfold Qltb. rewrite negb_false_iff. apply Qle_bool_iff.
Qed.

Module JsMapFacts.
Import JsMap.
Section Facts.
Context {V : Type}.
Implicit Types (m : JsMap.t V) (k : string) (v : V).

Lemma get_set_same m k v : get (set m k v) k = Some v.
Proof.
  induction m as [|[k' v'] m IH]; simpl.
  - now rewrite String.eqb_refl.
  - destruct (String.eqb k k') eqn:E; simpl.
    + now rewrite String.eqb_refl.
    + now rewrite E.
Qed.

Lemma get_set_other m k k' v : k' <> k -> get (set m k v) k' = get m k'.
Proof.
  intros Hne. induction m as [|[k0 v0] m IH]; simpl.
  - apply String.eqb_neq in Hne. now rewrite Hne.
  - destruct (String.eqb k k0) eqn:E; simpl.
    + apply String.eqb_eq in E. subst k0.
      apply String.eqb_neq in Hne. now rewrite Hne.
    + destruct (String.eqb k' k0); [reflexivity | exact IH].
Qed.

Lemma get_set m k k' v :
  get (set m k v) k' = if String.eqb k' k then Some v else get m k'.
Proof.
  destruct (String.eqb k' k) eqn:E.
  - apply String.eqb_eq in E. subst. apply get_set_same.
  - apply String.eqb_neq in E. now apply get_set_other.
Qed.

Lemma has_set m k k' v : has (set m k v) k' = String.eqb k' k || has m k'.
Proof.
  unfold has. rewrite get_set. now destruct (String.eqb k' k).
Qed.

Lemma has_true m k : has m k = true <-> exists v, get m k = Some v.
Proof.
  unfold has. destruct (get m k) as [v|]; split; intros H;
    try discriminate; eauto. now destruct H.
Qed.

Lemma get_in_keys m k v : get m k = Some v -> In k (keys m).
Proof.
  induction m as [|[k' v'] m IH]; simpl; [discriminate|].
  destruct (String.eqb k k') eqn:E.
  - apply String.eqb_eq in E. now left.
  - intros H. right. now apply IH.
Qed.

Lemma in_keys_get m k : In k (keys m) -> exists v, get m k = Some v.
Proof.
  induction m as [|[k' v'] m IH]; simpl; [tauto|].
  intros H. destruct (String.eqb k k') eqn:E; [eauto|].
  destruct H as [H|H]; [|now apply IH].
  subst. now rewrite String.eqb_refl in E.
Qed.
End Facts.
End JsMapFacts.

Module JsSetFacts.
Import JsSet.

Lemma has_In (s : JsSet.t) x : has s x = true <-> In x s.
Proof.
  unfold has. rewrite existsb_exists. split.
  - intros (y & Hy & E). apply String.eqb_eq in E. now subst.
  - intros H. exists x. split; [exact H | apply String.eqb_refl].
Qed.

Lemma In_add (s : JsSet.t) x y : In y (add s x) <-> y = x \/ In y s.
Proof.
  unfold add. destruct (has s x) eqn:E.
  - apply has_In in E. split; [tauto|]. intros [->|H]; assumption.
  - rewrite in_app_iff. simpl. split; intros H; intuition congruence.
Qed.

Lemma NoDup_add (s : JsSet.t) x : NoDup s -> NoDup (add s x).
Proof.
  intros H. unfold add. destruct (has s x) eqn:E; [exact H|].
  apply NoDup_app; [exact H | repeat constructor; simpl; tauto |].
  intros y Hy [<-|[]]. apply has_In in Hy. congruence.
Qed.
End JsSetFacts.

(** ** The node set and the time tables *)

Import JsMapFacts.

Lemma In_buildNodes (tasks : list Task) (n : string) :
  In n (buildNodes tasks) <-> n = "START" \/ n = "END" \/ In n (map id tasks).
Proof.
  unfold buildNodes.
  assert (G : forall ns, In n (fold_left (fun ns t => JsSet.add ns (id t)) tasks ns)
                         <-> In n ns \/ In n (map id tasks)).
  { induction tasks as [|t ts IH]; intros ns; simpl; [tauto|].
    rewrite IH, JsSetFacts.In_add. intuition congruence. }
  rewrite G. simpl. intuition congruence.
Qed.

Lemma NoDup_buildNodes (tasks : list Task) : NoDup (buildNodes tasks).
Proof.
  unfold buildNodes.
  assert (G : forall ns, NoDup ns ->
                         NoDup (fold_left (fun ns t => JsSet.add ns (id t)) tasks ns)).
  { induction tasks as [|t ts IH]; intros ns H; simpl; [exact H|].
    apply IH, JsSetFacts.NoDup_add, H. }
  apply G. repeat constructor; simpl; intuition discriminate.
Qed.

Lemma get_fold_set {V} (ns : list string) (f : string -> V) (m : JsMap.t V) k :
  JsMap.get (fold_left (fun m n => JsMap.set m n (f n)) ns m) k
  = if in_dec string_dec k ns then Some (f k) else JsMap.get m k.
Proof.
  revert m. induction ns as [|n ns IH]; intros m; simpl; [reflexivity|].
  rewrite IH. destruct (in_dec string_dec k ns) as [Hin|Hnin].
  - destruct (string_dec n k); reflexivity.
  - rewrite get_set. destruct (string_dec n k) as [->|Hne].
    + now rewrite String.eqb_refl.
    + destruct (String.eqb k n) eqn:E; [|reflexivity].
      apply String.eqb_eq in E. congruence.
Qed.

Lemma get_initTimes (ns : JsSet.t) (v : Q) k :
  JsMap.get (initTimes ns v) k = if in_dec string_dec k ns then Some v else None.
Proof. unfold initTimes. now rewrite (get_fold_set ns (fun _ => v)). Qed.

Lemma fold_Qmax_ge {A} (f : A -> Q) (l : list A) (a : Q) :
  a <= fold_left (fun acc i => Qmax acc (f i)) l a.
Proof.
  revert a. induction l as [|x l IH]; intros a; simpl; [apply Qle_refl|].
  eapply Qle_trans; [apply Q.le_max_l | apply IH].
Qed.

Lemma fold_Qmin_le {A} (f : A -> Q) (l : list A) (a : Q) :
  fold_left (fun acc i => Qmin acc (f i)) l a <= a.
Proof.
  revert a. induction l as [|x l IH]; intros a; simpl; [apply Qle_refl|].
  eapply Qle_trans; [apply IH | apply Q.le_min_l].
Qed.

Lemma clampedDuration_nonneg (e : option TaskEntry) : 0 <= clampedDuration e.
Proof. unfold clampedDuration. apply Q.le_max_l. Qed.

Lemma forwardDuration_nonneg taskMap j : 0 <= forwardDuration taskMap j.
Proof.
  unfold forwardDuration. destruct (String.eqb j "END");
    [apply Qle_refl | apply clampedDuration_nonneg].
Qed.


Lemma earliestStartOf_nonneg taskMap g es ef j :
  0 <= earliestStartOf taskMap g es ef j.
Proof. unfold earliestStartOf. apply fold_Qmax_ge. Qed.

Lemma forwardStep_invariant taskMap g st j :
  forwardInvariant st -> forwardInvariant (forwardStep taskMap g st j).
Proof.
  intros (Hk & H0 & Hle). unfold forwardStep.
  destruct (String.eqb j "START"); [now split; [|split]|].
  split; [|split]; cbn [fst snd].
  - intros k. rewrite !has_set, Hk. reflexivity.
  - intros k a. rewrite get_set. destruct (String.eqb k j).
    + intros [= <-]. apply earliestStartOf_nonneg.
    + apply H0.
  - intros k a b. rewrite !get_set. destruct (String.eqb k j).
    + intros [= <-] [= <-].
      rewrite <- (Qplus_0_r (earliestStartOf _ _ _ _ _)) at 1.
      apply Qplus_le_r, forwardDuration_nonneg.
    + apply Hle.
Qed.

Lemma forwardPass_invariant taskMap g ns order :
  forwardInvariant (forwardPass taskMap g ns order).
Proof.
  unfold forwardPass.
  assert (G : forall st, forwardInvariant st ->
                         forwardInvariant (fold_left (forwardStep taskMap g) order st)).
  { induction order as [|j l IH]; intros st H; simpl; [exact H|].
    apply IH, forwardStep_invariant, H. }
  apply G. split; [|split]; cbn [fst snd].
  - reflexivity.
  - intros k a. rewrite get_initTimes. destruct in_dec; [|discriminate].
    intros [= <-]. apply Qle_refl.
  - intros k a b. rewrite !get_initTimes. destruct in_dec; [|discriminate].
    intros [= <-] [= <-]. apply Qle_refl.
Qed.

Lemma forwardStep_has taskMap g st j k :
  JsMap.has (fst st) k = true -> JsMap.has (fst (forwardStep taskMap g st j)) k = true.
Proof.
  unfold forwardStep. destruct (String.eqb j "START"); [tauto|]. simpl.
  rewrite has_set. intros ->. apply orb_true_r.
Qed.

Lemma forwardPass_has taskMap g ns order k :
  In k ns -> JsMap.has (fst (forwardPass taskMap g ns order)) k = true.
Proof.
  intros Hin. unfold forwardPass.
  assert (G : forall st, JsMap.has (fst st) k = true ->
              JsMap.has (fst (fold_left (forwardStep taskMap g) order st)) k = true).
  { induction order as [|j l IH]; intros st H; simpl; [exact H|].
    apply IH, forwardStep_has, H. }
  apply G. simpl. unfold JsMap.has. rewrite get_initTimes.
  destruct in_dec; [reflexivity | contradiction].
Qed.

Lemma backwardStep_has taskMap g total st i k :
  (JsMap.has (fst st) k = true -> JsMap.has (fst (backwardStep taskMap g total st i)) k = true)
  /\ (JsMap.has (snd st) k = true -> JsMap.has (snd (backwardStep taskMap g total st i)) k = true).
Proof.
  unfold backwardStep. destruct (String.eqb i "END"); [tauto|]. cbn [fst snd].
  rewrite !has_set. split; intros ->; apply orb_true_r.
Qed.

Lemma backwardPass_has taskMap g ns order total k :
  In k ns ->
  JsMap.has (fst (backwardPass taskMap g ns order total)) k = true
  /\ JsMap.has (snd (backwardPass taskMap g ns order total)) k = true.
Proof.
  intros Hin. unfold backwardPass.
  assert (G : forall l st,
             JsMap.has (fst st) k = true /\ JsMap.has (snd st) k = true ->
             JsMap.has (fst (fold_left (backwardStep taskMap g total) l st)) k = true
             /\ JsMap.has (snd (fold_left (backwardStep taskMap g total) l st)) k = true).
  { induction l as [|j l IH]; intros st H; simpl; [exact H|].
    apply IH. destruct (backwardStep_has taskMap g total st j k). tauto. }
  apply G. cbn [fst snd]. rewrite has_set.
  assert (H : JsMap.has (initTimes ns total) k = true).
  { unfold JsMap.has. rewrite get_initTimes. now destruct in_dec. }
  rewrite H, orb_true_r. tauto.
Qed.

(** What [schedule] has computed when it succeeds. *)
Lemma schedule_Some tasks runDurations s :
  schedule tasks runDurations = Some s ->
  nodes s = buildNodes tasks /\
  graph s = buildGraph tasks /\
  topoSort (nodes s) (adj (graph s)) = Some (topoOrder s) /\
  List.length (topoOrder s) = List.length (nodes s) /\
  (es s, ef s) = forwardPass (buildTaskMap tasks runDurations) (graph s) (nodes s)
                   (topoOrder s) /\
  projectFinish s = finishOfEnd (ef s) /\
  (ls s, lf s) = backwardPass (buildTaskMap tasks runDurations) (graph s) (nodes s)
                   (topoOrder s) (projectFinish s).
Proof.
  unfold schedule.
  destruct (topoSort (buildNodes tasks) (adj (buildGraph tasks))) as [order|] eqn:E;
    [|discriminate].
  destruct (Nat.eqb_spec (List.length order) (List.length (buildNodes tasks)));
    [|discriminate].
  cbn [negb]. intros [= <-]. cbn.
  repeat split; try assumption; now rewrite <- surjective_pairing.
Qed.

Lemma calculateCPM_schedule tasks runDurations s :
  schedule tasks runDurations = Some s ->
  calculateCPM tasks runDurations = Some (resultOf tasks s).
Proof. unfold calculateCPM. now intros ->. Qed.

Lemma calculateCPM_Some tasks runDurations r :
  calculateCPM tasks runDurations = Some r ->
  exists s, schedule tasks runDurations = Some s /\ r = resultOf tasks s.
Proof.
  unfold calculateCPM. destruct (schedule tasks runDurations) as [s|]; [|discriminate].
  intros [= <-]. eauto.
Qed.

(** Every node has its four times. *)
Lemma schedule_entries tasks runDurations s n :
  schedule tasks runDurations = Some s -> In n (nodes s) ->
  exists a b c d,
    JsMap.get (es s) n = Some a /\ JsMap.get (ef s) n = Some b /\
    JsMap.get (ls s) n = Some c /\ JsMap.get (lf s) n = Some d.
Proof.
  intros Hs Hn. destruct (schedule_Some _ _ _ Hs) as (_ & _ & _ & _ & Hfw & _ & Hbw).
  pose proof (forwardPass_has (buildTaskMap tasks runDurations) (graph s) (nodes s)
                (topoOrder s) n Hn) as Hes.
  pose proof (forwardPass_invariant (buildTaskMap tasks runDurations) (graph s)
                (nodes s) (topoOrder s)) as (Hk & _).
  pose proof (backwardPass_has (buildTaskMap tasks runDurations) (graph s) (nodes s)
                (topoOrder s) (projectFinish s) n Hn) as (Hls & Hlf).
  rewrite <- Hbw in Hls, Hlf. cbn [fst snd] in Hls, Hlf.
  pose proof (Hk n) as Hef. rewrite <- Hfw in Hes, Hef. cbn [fst snd] in Hes, Hef.
  rewrite Hes in Hef. symmetry in Hef.
  apply has_true in Hes, Hef, Hls, Hlf.
  destruct Hes as (a & Ha), Hef as (b & Hb), Hls as (c & Hc), Hlf as (d & Hd).
  now exists a, b, c, d.
Qed.

Lemma task_is_node tasks runDurations s t :
  schedule tasks runDurations = Some s -> In t tasks -> In (id t) (nodes s).
Proof.
  intros Hs Ht. destruct (schedule_Some _ _ _ Hs) as (-> & _).
  apply In_buildNodes. right. right. now apply in_map.
Qed.

Lemma In_criticalPathTasks tasks s x :
  In x (criticalPathTasks (resultOf tasks s))
  <-> In x (map id tasks) /\ isCritical s x = true.
Proof.
  unfold resultOf. cbn [criticalPathTasks].
  assert (G : forall cp,
             In x (fold_left (fun cp t => if isCritical s (id t)
                                          then JsSet.add cp (id t) else cp) tasks cp)
             <-> In x cp \/ (In x (map id tasks) /\ isCritical s x = true)).
  { induction tasks as [|t ts IH]; intros cp; simpl; [tauto|].
    rewrite IH. destruct (isCritical s (id t)) eqn:E.
    - rewrite JsSetFacts.In_add. intuition (subst; auto).
    - intuition (subst; auto). congruence. }
  rewrite G. simpl. tauto.
Qed.

Lemma get_taskTimings tasks s k :
  JsMap.get (taskTimings (resultOf tasks s)) k
  = if in_dec string_dec k (map id tasks)
    then Some {| timing_es := getOr (es s) k 0; timing_ef := getOr (ef s) k 0 |}
    else None.
Proof.
  unfold resultOf. cbn [taskTimings].
  pose proof (get_fold_set (map id tasks)
                (fun k => {| timing_es := getOr (es s) k 0;
                             timing_ef := getOr (ef s) k 0 |}) JsMap.empty k) as H.
  cbn [JsMap.get JsMap.empty] in H. rewrite <- H. clear H.
  f_equal. generalize (@JsMap.empty Timing).
  induction tasks as [|t ts IH]; intros m; simpl; [reflexivity | apply IH].
Qed.

(** ** Kahn's algorithm *)

Lemma keys_set {V} (m : JsMap.t V) k v :
  JsMap.keys (JsMap.set m k v)
  = if JsMap.has m k then JsMap.keys m else JsMap.keys m ++ [k].
Proof.
  unfold JsMap.has, JsMap.keys. induction m as [|[k' v'] m IH]; simpl; [reflexivity|].
  destruct (String.eqb k k') eqn:E; simpl.
  - apply String.eqb_eq in E. now subst.
  - rewrite IH. now destruct (JsMap.get m k).
Qed.

Lemma has_keys {V} (m : JsMap.t V) k : JsMap.has m k = true <-> In k (JsMap.keys m).
Proof.
  rewrite has_true. split.
  - intros (v & H). eapply get_in_keys, H.
  - apply in_keys_get.
Qed.

Lemma NoDup_keys_set {V} (m : JsMap.t V) k v :
  NoDup (JsMap.keys m) -> NoDup (JsMap.keys (JsMap.set m k v)).
Proof.
  intros H. rewrite keys_set. destruct (JsMap.has m k) eqn:E; [exact H|].
  apply NoDup_app; [exact H | repeat constructor; simpl; tauto |].
  intros x Hx [<-|[]]. apply has_keys in Hx. congruence.
Qed.

Lemma positivePart_set (m : JsMap.t Z) k d d' :
  JsMap.get m k = Some d ->
  (positivePart (JsMap.set m k d') + Z.to_nat d = positivePart m + Z.to_nat d')%nat.
Proof.
  unfold positivePart. induction m as [|[k' v'] m IH]; simpl; [discriminate|].
  destruct (String.eqb k k') eqn:E; simpl.
  - intros [= ->]. lia.
  - intros H. specialize (IH H). lia.
Qed.

Lemma relax_measure st v :
  (kahnMeasure (fst (relax st v)) (snd (relax st v)) <= kahnMeasure (fst st) (snd st))%nat.
Proof.
  unfold relax, kahnMeasure. destruct (JsMap.get (fst st) v) as [d|] eqn:E; [|lia].
  cbn [fst snd]. pose proof (positivePart_set _ _ _ (d - 1)%Z E) as H.
  destruct (Z.eqb_spec (d - 1) 0) as [E0|E0].
  - rewrite length_app. cbn [List.length]. rewrite E0 in *.
    assert (Hd : Z.to_nat d = 1%nat) by lia. rewrite Hd in H.
    change (Z.to_nat 0) with 0%nat in H. lia.
  - lia.
Qed.

Lemma fold_relax_measure succs st :
  (kahnMeasure (fst (fold_left relax succs st)) (snd (fold_left relax succs st))
   <= kahnMeasure (fst st) (snd st))%nat.
Proof.
  revert st. induction succs as [|v l IH]; intros st; simpl; [lia|].
  eapply Nat.le_trans; [apply IH | apply relax_measure].
Qed.

(** The loop never runs out of the fuel that [topoSort] gives it. *)
Lemma kahnLoop_runs fuel adj inDegree queue order :
  (kahnMeasure inDegree queue <= fuel)%nat ->
  exists o, kahnLoop fuel adj inDegree queue order = Some o.
Proof.
  revert inDegree queue order. induction fuel as [|f IH]; intros inDegree queue order H.
  - destruct queue as [|u rest]; [simpl; eauto|].
    unfold kahnMeasure in H. simpl in H. lia.
  - destruct queue as [|u rest]; [simpl; eauto|]. cbn [kahnLoop]. apply IH.
    pose proof (fold_relax_measure (getList adj u) (inDegree, rest)) as Hm.
    cbn [fst snd] in Hm. unfold kahnMeasure in *. simpl in H. lia.
Qed.

Lemma topoSort_total ns adj : exists order, topoSort ns adj = Some order.
Proof. unfold topoSort. apply kahnLoop_runs. lia. Qed.

Lemma getList_cons (k : string) (succs : list string) (adj : Adjacency) (u : string) :
  getList ((k, succs) :: adj) u = if String.eqb u k then succs else getList adj u.
Proof. unfold getList. simpl. now destruct (String.eqb u k). Qed.

Lemma getList_not_key (adj : Adjacency) (u : string) :
  ~ In u (JsMap.keys adj) -> getList adj u = [].
Proof.
  intros H. unfold getList. destruct (JsMap.get adj u) as [l|] eqn:E; [|reflexivity].
  exfalso. apply H. eapply get_in_keys, E.
Qed.

Lemma pendingIn_take (adj : Adjacency) (done : list string) (u v : string) :
  NoDup (JsMap.keys adj) -> ~ In u done ->
  pendingIn adj done v
  = (pendingIn adj (done ++ [u]) v + count_occ string_dec (getList adj u) v)%nat.
Proof.
  intros Hnd Hu. induction adj as [|[k succs] adj IH].
  - reflexivity.
  - cbn [JsMap.keys map fst] in Hnd. inversion Hnd as [|? ? Hk Hnd']; subst.
    cbn [pendingIn fold_right fst snd]. fold (pendingIn adj done v).
    fold (pendingIn adj (done ++ [u]) v). rewrite getList_cons.
    destruct (String.eqb_spec u k) as [E|Hne].
    + subst k. rewrite (IH Hnd'), (getList_not_key adj u Hk). cbn [count_occ].
      destruct (in_dec string_dec u done) as [H|_]; [contradiction|].
      destruct (in_dec string_dec u (done ++ [u])) as [_|H]; [lia|].
      exfalso. apply H, in_or_app. right. now left.
    + rewrite (IH Hnd').
      destruct (in_dec string_dec k done) as [H|H];
        destruct (in_dec string_dec k (done ++ [u])) as [H'|H']; try lia.
      * exfalso. apply H', in_or_app. now left.
      * exfalso. apply in_app_or in H'. destruct H' as [H'|[H'|[]]];
          [contradiction | congruence].
Qed.

Lemma pendingIn_zero (adj : Adjacency) (done : list string) (v : string) :
  pendingIn adj done v = 0%nat ->
  forall u, In v (getList adj u) -> In u done.
Proof.
  induction adj as [|[k succs] adj IH]; intros H u Hv.
  - contradiction.
  - cbn [pendingIn fold_right fst snd] in H. fold (pendingIn adj done v) in H.
    rewrite getList_cons in Hv. destruct (String.eqb_spec u k) as [E|Hne].
    + subst k. destruct (in_dec string_dec u done) as [Hin|_]; [exact Hin|].
      apply (count_occ_In string_dec) in Hv. lia.
    + apply IH; [lia | exact Hv].
Qed.

Lemma getZ_countEdge (m : JsMap.t Z) (s v : string) :
  getZ (countEdge m s) v = (getZ m v + if String.eqb v s then 1 else 0)%Z.
Proof.
  unfold getZ, countEdge. rewrite get_set.
  destruct (String.eqb_spec v s) as [E|_]; [now subst | lia].
Qed.

Lemma getZ_countEdges (succs : list string) (m : JsMap.t Z) (v : string) :
  getZ (fold_left countEdge succs m) v
  = (getZ m v + Z.of_nat (count_occ string_dec succs v))%Z.
Proof.
  revert m. induction succs as [|s l IH]; intros m; cbn [fold_left count_occ]; [lia|].
  rewrite IH, getZ_countEdge.
  destruct (String.eqb_spec v s) as [E1|E1]; destruct (string_dec s v) as [E2|E2];
    try lia; congruence.
Qed.

Lemma buildInDegree_spec (ns : JsSet.t) (adj : Adjacency) (v : string) (d : Z) :
  JsMap.get (buildInDegree ns adj) v = Some d ->
  d = Z.of_nat (pendingIn adj [] v).
Proof.
  unfold buildInDegree.
  assert (G : forall m, getZ (fold_left (fun m (kv : string * list string) =>
                                           fold_left countEdge (snd kv) m) adj m) v
                        = (getZ m v + Z.of_nat (pendingIn adj [] v))%Z).
  { induction adj as [|[k succs] adj IH]; intros m; cbn [fold_left]; [simpl; lia|].
    rewrite IH. cbn [snd]. rewrite getZ_countEdges.
    cbn [pendingIn fold_right fst snd]. fold (pendingIn adj [] v).
    destruct (in_dec string_dec k []) as [[]|_]. lia. }
  intros H. specialize (G (fold_left (fun m n => JsMap.set m n 0%Z) ns JsMap.empty)).
  unfold getZ at 1 in G. rewrite H in G. rewrite G. unfold getZ.
  rewrite (get_fold_set ns (fun _ => 0%Z)). destruct in_dec; simpl; lia.
Qed.

Lemma split_snoc {A} (l l1 l2 : list A) (x v : A) :
  l ++ [x] = l1 ++ v :: l2 ->
  (exists l2', l2 = l2' ++ [x] /\ l = l1 ++ v :: l2') \/ (l2 = [] /\ l1 = l /\ v = x).
Proof.
  intros E. destruct l2 as [|b l2].
  - right. apply app_inj_tail in E. destruct E as [-> ->]. auto.
  - left. destruct (@exists_last A (b :: l2)) as (l2' & y & E2); [discriminate|].
    rewrite E2 in *. exists l2'.
    change (l1 ++ v :: l2' ++ [y]) with (l1 ++ (v :: l2') ++ [y]) in E.
    rewrite app_assoc in E. apply app_inj_tail in E. destruct E as [-> ->]. auto.
Qed.

Lemma topologicallyOrdered_snoc (adj : Adjacency) (l : list string) (x : string) :
  topologicallyOrdered adj l ->
  (forall u, In x (getList adj u) -> In u l) ->
  topologicallyOrdered adj (l ++ [x]).
Proof.
  intros HT Hx l1 v l2 E u Hu. apply split_snoc in E.
  destruct E as [(l2' & -> & E)|(-> & -> & ->)].
  - exact (HT l1 v l2' E u Hu).
  - now apply Hx.
Qed.

Lemma relax_invariant (adj : Adjacency) (done R : list string) (v : string)
  (inDegree : JsMap.t Z) (q : list string) :
  kahnInvariant adj done (v :: R) inDegree (done ++ q) ->
  kahnInvariant adj done R (fst (relax (inDegree, q) v))
    (done ++ snd (relax (inDegree, q) v)).
Proof.
  intros (Ha & Hb & Hc & HT & Hincl). unfold relax. cbn [fst snd].
  destruct (JsMap.get inDegree v) as [d|] eqn:Ev; cbn [fst snd].
  - pose proof (Ha v d Ev) as Hd. cbn [count_occ] in Hd.
    destruct (string_dec v v) as [_|Hn]; [|congruence].
    assert (Hnew : forall w, In w (done ++ q) -> w <> v).
    { intros w Hw ->. rewrite (Hb v Hw) in Ev. injection Ev as <-. lia. }
    assert (Ha' : forall w d', JsMap.get (JsMap.set inDegree v (d - 1)%Z) w = Some d' ->
                   d' = Z.of_nat (pendingIn adj done w + count_occ string_dec R w)).
    { intros w d'. rewrite get_set. destruct (String.eqb_spec w v) as [E|Hne].
      - subst w. intros [= <-]. lia.
      - intros Hw. rewrite (Ha w d' Hw). cbn [count_occ].
        destruct (string_dec v w); [congruence | reflexivity]. }
    destruct (Z.eqb_spec (d - 1) 0) as [E0|E0].
    + rewrite app_assoc. split; [exact Ha'|]. split; [|split; [|split]].
      * intros w Hw. apply in_app_or in Hw. destruct Hw as [Hw|[<-|[]]].
        -- rewrite get_set_other by (now apply Hnew). now apply Hb.
        -- rewrite get_set_same. now rewrite E0.
      * apply NoDup_app; [exact Hc | repeat constructor; simpl; tauto |].
        intros w Hw [<-|[]]. now apply (Hnew v Hw).
      * apply topologicallyOrdered_snoc; [exact HT|].
        intros u Hu. apply in_or_app. left.
        apply (pendingIn_zero adj done v); [lia | exact Hu].
      * intros w Hw. apply in_or_app. left. now apply Hincl.
    + split; [exact Ha'|]. split; [|split; [|split]]; try assumption.
      intros w Hw. rewrite get_set_other by (now apply Hnew). now apply Hb.
  - split; [|split; [|split; [|split]]]; try assumption.
    intros w d Hw. rewrite (Ha w d Hw). cbn [count_occ].
    destruct (string_dec v w); [congruence | reflexivity].
Qed.

Lemma fold_relax_invariant (adj : Adjacency) (done R : list string)
  (inDegree : JsMap.t Z) (q : list string) :
  kahnInvariant adj done R inDegree (done ++ q) ->
  kahnInvariant adj done [] (fst (fold_left relax R (inDegree, q)))
    (done ++ snd (fold_left relax R (inDegree, q))).
Proof.
  revert inDegree q. induction R as [|v R IH]; intros inDegree q H; [exact H|].
  cbn [fold_left]. apply relax_invariant in H.
  destruct (relax (inDegree, q) v) as [inDegree' q']. now apply IH.
Qed.

Lemma kahnLoop_sound (adj : Adjacency) :
  NoDup (JsMap.keys adj) ->
  forall fuel inDegree queue order o,
    kahnInvariant adj order [] inDegree (order ++ queue) ->
    kahnLoop fuel adj inDegree queue order = Some o ->
    NoDup o /\ topologicallyOrdered adj o.
Proof.
  intros Hkeys. induction fuel as [|f IH]; intros inDegree queue order o Hinv Ho.
  - destruct queue as [|u rest]; [|discriminate]. injection Ho as <-.
    rewrite app_nil_r in Hinv. destruct Hinv as (_ & _ & Hc & HT & _). auto.
  - destruct queue as [|u rest].
    + injection Ho as <-. rewrite app_nil_r in Hinv.
      destruct Hinv as (_ & _ & Hc & HT & _). auto.
    + cbn [kahnLoop] in Ho. eapply IH; [|exact Ho].
      apply fold_relax_invariant.
      destruct Hinv as (Ha & Hb & Hc & HT & Hincl).
      assert (Hu : ~ In u order).
      { apply NoDup_remove_2 in Hc. intros H. apply Hc, in_or_app. now left. }
      replace ((order ++ [u]) ++ rest) with (order ++ u :: rest)
        by (now rewrite <- app_assoc).
      split; [|split; [|split; [|split]]]; try assumption.
      * intros v d Hv. rewrite (Ha v d Hv). cbn [count_occ].
        rewrite (pendingIn_take adj order u v Hkeys Hu). lia.
      * intros w Hw. apply in_app_or in Hw. apply in_or_app.
        destruct Hw as [Hw|[<-|[]]]; [now left | right; now left].
Qed.

Lemma initial_invariant (ns : JsSet.t) (adj : Adjacency) :
  NoDup ns ->
  kahnInvariant adj [] [] (buildInDegree ns adj)
    (initialQueue ns (buildInDegree ns adj)).
Proof.
  intros Hns.
  assert (Ha : forall v d, JsMap.get (buildInDegree ns adj) v = Some d ->
                 d = Z.of_nat (pendingIn adj [] v + count_occ string_dec [] v)).
  { intros v d H. rewrite (buildInDegree_spec ns adj v d H). cbn [count_occ]. lia. }
  assert (Hb : forall v, In v (initialQueue ns (buildInDegree ns adj)) ->
                 JsMap.get (buildInDegree ns adj) v = Some 0%Z).
  { intros v Hv. apply filter_In in Hv. destruct Hv as (_ & Hv).
    destruct (JsMap.get (buildInDegree ns adj) v) as [d|]; [|discriminate].
    apply Z.eqb_eq in Hv. now subst. }
  split; [exact Ha|]. split; [exact Hb|]. split; [|split].
  - now apply NoDup_filter.
  - intros l1 v l2 E u Hu. exfalso.
    assert (Hv : In v (initialQueue ns (buildInDegree ns adj))).
    { rewrite E. apply in_or_app. right. now left. }
    pose proof (Ha v 0%Z (Hb v Hv)) as H0.
    apply (pendingIn_zero adj [] v) in Hu; [contradiction | lia].
  - intros w [].
Qed.

Lemma topoSort_sound (ns : JsSet.t) (adj : Adjacency) (o : list string) :
  NoDup ns -> NoDup (JsMap.keys adj) ->
  topoSort ns adj = Some o ->
  NoDup o /\ topologicallyOrdered adj o.
Proof.
  intros Hns Hkeys. unfold topoSort. apply (kahnLoop_sound adj Hkeys).
  cbn [app]. now apply initial_invariant.
Qed.

(** ** The dependency graph *)

Lemma has_push (m : Adjacency) k x k' : JsMap.has (push m k x) k' = JsMap.has m k'.
Proof.
  unfold push. destruct (JsMap.get m k) as [l|] eqn:E; [|reflexivity].
  rewrite has_set. destruct (String.eqb_spec k' k) as [->|_]; [|reflexivity].
  unfold JsMap.has. now rewrite E.
Qed.

Lemma keys_push (m : Adjacency) k x : JsMap.keys (push m k x) = JsMap.keys m.
Proof.
  unfold push. destruct (JsMap.get m k) as [l|] eqn:E; [|reflexivity].
  rewrite keys_set. unfold JsMap.has. now rewrite E.
Qed.

Lemma getList_push (m : Adjacency) k x k' :
  getList (push m k x) k'
  = if String.eqb k' k && JsMap.has m k then getList m k ++ [x] else getList m k'.
Proof.
  unfold push, getList, JsMap.has. destruct (JsMap.get m k) as [l|] eqn:E.
  - rewrite get_set. rewrite andb_true_r. now destruct (String.eqb k' k).
  - rewrite andb_false_r. reflexivity.
Qed.

Lemma In_getList_push (m : Adjacency) k x k' y :
  In y (getList (push m k x) k') ->
  In y (getList m k') \/ (k' = k /\ y = x).
Proof.
  rewrite getList_push. destruct (String.eqb_spec k' k) as [->|_]; cbn [andb]; [|tauto].
  destruct (JsMap.has m k); [|tauto].
  intros H. apply in_app_or in H. destruct H as [H|[<-|[]]]; auto.
Qed.

Lemma addEdge_invariant (ns : list string) (g : Graph) (from to : string) :
  JsMap.has (adj g) from = true -> In to ns ->
  graphInvariant ns g -> graphInvariant ns (addEdge g from to).
Proof.
  intros Hfrom Hto (Hk & Hs & Hm & Hn). unfold addEdge, graphInvariant. cbn [adj revAdj].
  rewrite keys_push, has_push. split; [exact Hk|]. split; [exact Hs|]. split.
  - intros i j Hi. rewrite getList_push.
    apply In_getList_push in Hi. destruct Hi as [Hi|[-> ->]].
    + specialize (Hm i j Hi).
      destruct (String.eqb i from && JsMap.has (adj g) from) eqn:E; [|exact Hm].
      apply andb_true_iff in E. destruct E as (E & _). apply String.eqb_eq in E.
      subst i. apply in_or_app. now left.
    + rewrite String.eqb_refl, Hfrom. cbn [andb]. apply in_or_app. right. now left.
  - intros u v Hv. apply In_getList_push in Hv.
    destruct Hv as [Hv|[_ ->]]; [now apply (Hn u) | exact Hto].
Qed.

Lemma addTaskEdges_invariant (ns : list string) (g : Graph) (t : Task) :
  In (id t) ns -> graphInvariant ns g -> graphInvariant ns (addTaskEdges g t).
Proof.
  intros Ht Hg.
  assert (Hstart : forall g', graphInvariant ns g' ->
                     graphInvariant ns (addEdge g' "START" (id t))).
  { intros g' Hg'. apply addEdge_invariant; [apply Hg' | exact Ht | exact Hg']. }
  unfold addTaskEdges. destruct (dependencies t) as [|d deps]; [now apply Hstart|].
  assert (Hdeps : forall l g', graphInvariant ns g' ->
                    graphInvariant ns (fold_left (addDependency (id t)) l g')).
  { induction l as [|dep l IH]; intros g' Hg'; [exact Hg'|].
    cbn [fold_left]. apply IH. unfold addDependency.
    destruct (negb _ && JsMap.has (adj g') (predecessorId dep)) eqn:E; [|exact Hg'].
    apply andb_true_iff in E. destruct E as (_ & E).
    now apply addEdge_invariant. }
  destruct (_ =? 0)%nat; [apply Hstart|]; now apply Hdeps.
Qed.

Lemma linkToEnd_invariant (ns : list string) (g : Graph) (t : Task) :
  In "END" ns -> graphInvariant ns g -> graphInvariant ns (linkToEnd g t).
Proof.
  intros Hend Hg. unfold linkToEnd.
  destruct (JsMap.get (adj g) (id t)) as [[|s l]|] eqn:E; try exact Hg.
  apply addEdge_invariant; [|exact Hend | exact Hg].
  unfold JsMap.has. now rewrite E.
Qed.

Lemma initGraph_invariant (ns : list string) (tasks : list Task) :
  graphInvariant ns (initGraph tasks).
Proof.
  unfold initGraph.
  set (step := fun (g : Graph) (t : Task) =>
                 {| adj := JsMap.set (adj g) (id t) [];
                    revAdj := JsMap.set (revAdj g) (id t) [] |}).
  assert (G : forall g,
             (NoDup (JsMap.keys (adj g)) /\
              (forall u, getList (adj g) u = []) /\ (forall u, getList (revAdj g) u = [])) ->
             NoDup (JsMap.keys (adj (fold_left step tasks g))) /\
             (forall u, getList (adj (fold_left step tasks g)) u = []) /\
             (forall u, getList (revAdj (fold_left step tasks g)) u = [])).
  { induction tasks as [|t ts IH]; intros g Hg; [exact Hg|].
    cbn [fold_left]. apply IH. destruct Hg as (Hk & Ha & Hr). unfold step. cbn [adj revAdj].
    split; [now apply NoDup_keys_set|].
    split; intros u; unfold getList; rewrite get_set;
      destruct (String.eqb u (id t)); try reflexivity; [apply Ha | apply Hr]. }
  destruct (G {| adj := JsMap.empty; revAdj := JsMap.empty |}) as (Hk & Ha & Hr).
  { split; [constructor|]. split; reflexivity. }
  unfold graphInvariant. cbn [adj revAdj].
  assert (Ha' : forall u, getList (JsMap.set (adj (fold_left step tasks
                    {| adj := JsMap.empty; revAdj := JsMap.empty |})) "START" []) u = []).
  { intros u. unfold getList. rewrite get_set.
    destruct (String.eqb u "START"); [reflexivity | apply Ha]. }
  assert (Hr' : forall u, getList (JsMap.set (revAdj (fold_left step tasks
                    {| adj := JsMap.empty; revAdj := JsMap.empty |})) "END" []) u = []).
  { intros u. unfold getList. rewrite get_set.
    destruct (String.eqb u "END"); [reflexivity | apply Hr]. }
  split; [now apply NoDup_keys_set|]. split; [|split].
  - rewrite has_set. reflexivity.
  - intros i j Hi. rewrite Hr' in Hi. contradiction.
  - intros u v Hv. rewrite Ha' in Hv. contradiction.
Qed.

Lemma buildGraph_invariant (tasks : list Task) :
  graphInvariant (buildNodes tasks) (buildGraph tasks).
Proof.
  unfold buildGraph.
  assert (Hids : forall t, In t tasks -> In (id t) (buildNodes tasks)).
  { intros t Ht. apply In_buildNodes. right. right. now apply in_map. }
  assert (Hend : In "END" (buildNodes tasks)) by (apply In_buildNodes; auto).
  assert (G1 : forall l g, incl l tasks -> graphInvariant (buildNodes tasks) g ->
                 graphInvariant (buildNodes tasks) (fold_left addTaskEdges l g)).
  { induction l as [|t l IH]; intros g Hl Hg; [exact Hg|]. cbn [fold_left].
    apply IH; [intros x Hx; apply Hl; now right|].
    apply addTaskEdges_invariant; [apply Hids, Hl; now left | exact Hg]. }
  assert (G2 : forall l g, graphInvariant (buildNodes tasks) g ->
                 graphInvariant (buildNodes tasks) (fold_left linkToEnd l g)).
  { induction l as [|t l IH]; intros g Hg; [exact Hg|]. cbn [fold_left].
    apply IH. now apply linkToEnd_invariant. }
  apply G2, G1; [apply incl_refl | apply initGraph_invariant].
Qed.

(** ** The topological order *)

Lemma fold_relax_queue (succs : list string) (st : JsMap.t Z * list string) :
  incl (snd (fold_left relax succs st)) (snd st ++ succs).
Proof.
  revert st. induction succs as [|v l IH]; intros st; cbn [fold_left].
  - rewrite app_nil_r. apply incl_refl.
  - intros x Hx. apply IH in Hx. apply in_app_or in Hx. apply in_or_app.
    destruct Hx as [Hx|Hx]; [|right; now right].
    unfold relax in Hx. destruct (JsMap.get (fst st) v); [|now left].
    cbn [snd] in Hx. destruct (_ =? 0)%Z; [|now left].
    apply in_app_or in Hx. destruct Hx as [Hx|[<-|[]]]; [now left | right; now left].
Qed.

Lemma kahnLoop_incl (adj : Adjacency) (ns : list string) :
  (forall u v, In v (getList adj u) -> In v ns) ->
  forall fuel inDegree queue order o,
    incl queue ns -> incl order ns ->
    kahnLoop fuel adj inDegree queue order = Some o -> incl o ns.
Proof.
  intros Hsucc. induction fuel as [|f IH]; intros inDegree queue order o Hq Ho E.
  - destruct queue; [|discriminate]. now injection E as <-.
  - destruct queue as [|u rest]; [now injection E as <-|].
    cbn [kahnLoop] in E. eapply IH; [| |exact E].
    + intros x Hx. apply fold_relax_queue in Hx. cbn [snd] in Hx.
      apply in_app_or in Hx. destruct Hx as [Hx|Hx].
      * apply Hq. now right.
      * now apply (Hsucc u).
    + intros x Hx. apply in_app_or in Hx. destruct Hx as [Hx|[<-|[]]].
      * now apply Ho.
      * apply Hq. now left.
Qed.

(** When the scheduler returns, the order is a duplicate-free topological
    order of all the nodes. *)
Lemma schedule_order tasks runDurations s :
  schedule tasks runDurations = Some s ->
  NoDup (topoOrder s) /\
  topologicallyOrdered (adj (graph s)) (topoOrder s) /\
  (forall n, In n (nodes s) <-> In n (topoOrder s)).
Proof.
  intros Hs. destruct (schedule_Some _ _ _ Hs) as (Hn & Hg & Ht & Hlen & _).
  pose proof (buildGraph_invariant tasks) as (Hk & _ & _ & Hsucc).
  rewrite <- Hg, <- Hn in *.
  assert (Hnd : NoDup (nodes s)) by (rewrite Hn; apply NoDup_buildNodes).
  destruct (topoSort_sound _ _ _ Hnd Hk Ht) as (Hnd' & Htop).
  assert (Hincl : incl (topoOrder s) (nodes s)).
  { unfold topoSort in Ht.
    apply (kahnLoop_incl _ _ Hsucc _ _ _ _ _) in Ht; [exact Ht | | intros x []].
    intros x Hx. unfold initialQueue in Hx. now apply filter_In in Hx. }
  split; [exact Hnd'|]. split; [exact Htop|]. intros n. split.
  - apply (NoDup_length_incl Hnd'); [lia | exact Hincl].
  - apply Hincl.
Qed.

(** ** The scheduler returns exactly on acyclic graphs *)

Lemma has_relax st v k :
  JsMap.has (fst st) k = true -> JsMap.has (fst (relax st v)) k = true.
Proof.
  unfold relax. destruct (JsMap.get (fst st) v); [|tauto]. cbn [fst].
  rewrite has_set. intros ->. apply orb_true_r.
Qed.

Lemma relax_covers (ns done : list string) (inDegree : JsMap.t Z) (q : list string) v :
  kahnCovers ns inDegree (done ++ q) ->
  kahnCovers ns (fst (relax (inDegree, q) v)) (done ++ snd (relax (inDegree, q) v)).
Proof.
  intros (Hhas & Hzero). split.
  - intros w Hw. apply has_relax. cbn [fst]. now apply Hhas.
  - intros w Hw. unfold relax. cbn [fst snd].
    destruct (JsMap.get inDegree v) as [d|] eqn:Ev; cbn [fst snd]; [|now apply Hzero].
    rewrite get_set. destruct (String.eqb_spec w v) as [E|Hne].
    + subst w. intros [= E0]. rewrite E0, Z.eqb_refl.
      apply in_or_app. right. apply in_or_app. right. now left.
    + intros H0. specialize (Hzero w Hw H0). apply in_app_or in Hzero.
      apply in_or_app. destruct Hzero as [H|H]; [now left | right].
      destruct (_ =? 0)%Z; [apply in_or_app; now left | exact H].
Qed.

Lemma fold_relax_covers (ns done R : list string) (inDegree : JsMap.t Z) (q : list string) :
  kahnCovers ns inDegree (done ++ q) ->
  kahnCovers ns (fst (fold_left relax R (inDegree, q)))
    (done ++ snd (fold_left relax R (inDegree, q))).
Proof.
  revert inDegree q. induction R as [|v R IH]; intros inDegree q H; [exact H|].
  cbn [fold_left]. apply (relax_covers ns done inDegree q v) in H.
  destruct (relax (inDegree, q) v) as [inDegree' q']. now apply IH.
Qed.

Lemma pendingIn_pos (adj : Adjacency) (done : list string) (v : string) :
  NoDup (JsMap.keys adj) -> pendingIn adj done v <> 0%nat ->
  exists u, ~ In u done /\ In u (JsMap.keys adj) /\ In v (getList adj u).
Proof.
  intros Hnd. induction adj as [|[k succs] adj IH]; intros H; [now contradiction H|].
  cbn [JsMap.keys map fst] in Hnd. inversion Hnd as [|? ? Hk Hnd']; subst.
  cbn [pendingIn fold_right fst snd] in H. fold (pendingIn adj done v) in H.
  destruct (in_dec string_dec k done) as [Hin|Hnin].
  - destruct (IH Hnd') as (u & Hu & Hkey & Hv); [lia|].
    exists u. split; [exact Hu|]. split; [now right|].
    rewrite getList_cons. destruct (String.eqb_spec u k) as [E|_]; [|exact Hv].
    subst u. contradiction.
  - destruct (Nat.eq_dec (count_occ string_dec succs v) 0) as [E0|E0].
    + destruct (IH Hnd') as (u & Hu & Hkey & Hv); [lia|].
      exists u. split; [exact Hu|]. split; [now right|].
      rewrite getList_cons. destruct (String.eqb_spec u k) as [E|_]; [|exact Hv].
      subst u. contradiction.
    + exists k. split; [exact Hnin|]. split; [now left|].
      rewrite getList_cons, String.eqb_refl.
      apply (count_occ_In string_dec). lia.
Qed.

(** When the loop ends, a node left out has a predecessor left out. *)
Lemma kahnLoop_stalls (adj : Adjacency) (ns : list string) :
  NoDup (JsMap.keys adj) ->
  forall fuel inDegree queue order o,
    kahnInvariant adj order [] inDegree (order ++ queue) ->
    kahnCovers ns inDegree (order ++ queue) ->
    kahnLoop fuel adj inDegree queue order = Some o ->
    forall v, In v ns -> ~ In v o ->
      exists u, ~ In u o /\ In u (JsMap.keys adj) /\ edgeOf adj u v.
Proof.
  intros Hkeys.
  assert (Hend : forall inDegree order,
             kahnInvariant adj order [] inDegree (order ++ []) ->
             kahnCovers ns inDegree (order ++ []) ->
             forall v, In v ns -> ~ In v order ->
               exists u, ~ In u order /\ In u (JsMap.keys adj) /\ edgeOf adj u v).
  { intros inDegree order (Ha & _) (Hhas & Hzero) v Hv Hnot.
    rewrite app_nil_r in Hzero.
    specialize (Hhas v Hv). apply has_true in Hhas. destruct Hhas as (d & Hd).
    pose proof (Ha v d Hd) as Ed. cbn [count_occ] in Ed.
    apply (pendingIn_pos adj order v Hkeys). intros E0.
    apply Hnot, (Hzero v Hv). rewrite Hd, Ed, E0. reflexivity. }
  induction fuel as [|f IH]; intros inDegree queue order o Hinv Hcov Ho.
  - destruct queue as [|u rest]; [|discriminate]. injection Ho as <-. now apply (Hend inDegree).
  - destruct queue as [|u rest]; [injection Ho as <-; now apply (Hend inDegree)|].
    cbn [kahnLoop] in Ho. eapply IH; [| |exact Ho].
    + apply fold_relax_invariant.
      destruct Hinv as (Ha & Hb & Hc & HT & Hincl).
      assert (Hu : ~ In u order).
      { apply NoDup_remove_2 in Hc. intros H. apply Hc, in_or_app. now left. }
      replace ((order ++ [u]) ++ rest) with (order ++ u :: rest)
        by (now rewrite <- app_assoc).
      split; [|split; [|split; [|split]]]; try assumption.
      * intros v d Hv. rewrite (Ha v d Hv). cbn [count_occ].
        rewrite (pendingIn_take adj order u v Hkeys Hu). lia.
      * intros w Hw. apply in_app_or in Hw. apply in_or_app.
        destruct Hw as [Hw|[<-|[]]]; [now left | right; now left].
    + apply fold_relax_covers.
      replace ((order ++ [u]) ++ rest) with (order ++ u :: rest)
        by (now rewrite <- app_assoc).
      exact Hcov.
Qed.

Lemma has_countEdges (succs : list string) (m : JsMap.t Z) k :
  JsMap.has m k = true -> JsMap.has (fold_left countEdge succs m) k = true.
Proof.
  revert m. induction succs as [|s l IH]; intros m H; [exact H|]. cbn [fold_left].
  apply IH. unfold countEdge. rewrite has_set, H. apply orb_true_r.
Qed.

Lemma has_buildInDegree (ns : JsSet.t) (adj : Adjacency) k :
  In k ns -> JsMap.has (buildInDegree ns adj) k = true.
Proof.
  intros Hk. unfold buildInDegree.
  assert (G : forall m, JsMap.has m k = true ->
             JsMap.has (fold_left (fun m (kv : string * list string) =>
                                     fold_left countEdge (snd kv) m) adj m) k = true).
  { induction adj as [|e adj IH]; intros m H; [exact H|]. cbn [fold_left].
    apply IH, has_countEdges, H. }
  apply G. unfold JsMap.has. rewrite (get_fold_set ns (fun _ => 0%Z)).
  destruct in_dec; [reflexivity | contradiction].
Qed.

Lemma topoSort_stalls (ns : JsSet.t) (adj : Adjacency) (o : list string) :
  NoDup ns -> NoDup (JsMap.keys adj) ->
  topoSort ns adj = Some o ->
  forall v, In v ns -> ~ In v o ->
    exists u, ~ In u o /\ In u (JsMap.keys adj) /\ edgeOf adj u v.
Proof.
  intros Hns Hkeys. unfold topoSort. apply (kahnLoop_stalls adj ns Hkeys); cbn [app].
  - now apply initial_invariant.
  - split; [intros v Hv; now apply has_buildInDegree|].
    intros v Hv H0. apply filter_In. split; [exact Hv|]. now rewrite H0.
Qed.

(** The keys on which [push] is called: [initGraph] sets them, [addEdge]
    keeps them. *)
Lemma initGraph_keys (tasks : list Task) :
  JsMap.has (adj (initGraph tasks)) "START" = true /\
  JsMap.has (revAdj (initGraph tasks)) "END" = true /\
  (forall t, In t tasks ->
     JsMap.has (adj (initGraph tasks)) (id t) = true /\
     JsMap.has (revAdj (initGraph tasks)) (id t) = true) /\
  (forall k, In k (JsMap.keys (adj (initGraph tasks))) ->
     k = "START" \/ In k (map id tasks)).
Proof.
  unfold initGraph.
  set (step := fun (g : Graph) (t : Task) =>
                 {| adj := JsMap.set (adj g) (id t) [];
                    revAdj := JsMap.set (revAdj g) (id t) [] |}).
  assert (G : forall l g,
             (forall k, JsMap.has (adj (fold_left step l g)) k
                        = JsMap.has (adj g) k || existsb (fun t => String.eqb k (id t)) l) /\
             (forall k, JsMap.has (revAdj (fold_left step l g)) k
                        = JsMap.has (revAdj g) k || existsb (fun t => String.eqb k (id t)) l)).
  { induction l as [|t l IH]; intros g; cbn [fold_left existsb].
    - split; intros k; now rewrite orb_false_r.
    - destruct (IH (step g t)) as (Ha & Hr). split; intros k.
      + rewrite Ha. unfold step. cbn [adj]. rewrite has_set.
        now destruct (String.eqb k (id t)), (JsMap.has (adj g) k).
      + rewrite Hr. unfold step. cbn [revAdj]. rewrite has_set.
        now destruct (String.eqb k (id t)), (JsMap.has (revAdj g) k). }
  destruct (G tasks {| adj := JsMap.empty; revAdj := JsMap.empty |}) as (Ha & Hr).
  cbn [adj revAdj].
  assert (Hex : forall t, In t tasks ->
                  existsb (fun t' => String.eqb (id t) (id t')) tasks = true).
  { intros t Ht. apply existsb_exists. exists t. split; [exact Ht | apply String.eqb_refl]. }
  split; [rewrite has_set; reflexivity|]. split; [rewrite has_set; reflexivity|]. split.
  - intros t Ht. rewrite !has_set, Ha, Hr, (Hex t Ht), !orb_true_r. auto.
  - intros k Hk. apply has_keys in Hk. rewrite has_set, Ha in Hk.
    destruct (String.eqb_spec k "START") as [E|_]; [now left|]. right.
    cbn [orb] in Hk. change (JsMap.has JsMap.empty k) with false in Hk. cbn [orb] in Hk.
    apply existsb_exists in Hk. destruct Hk as (t & Ht & E).
    apply String.eqb_eq in E. subst k. now apply in_map.
Qed.

Lemma addEdge_keys (g : Graph) (from to k : string) :
  JsMap.has (adj (addEdge g from to)) k = JsMap.has (adj g) k /\
  JsMap.has (revAdj (addEdge g from to)) k = JsMap.has (revAdj g) k /\
  JsMap.keys (adj (addEdge g from to)) = JsMap.keys (adj g).
Proof. unfold addEdge. cbn [adj revAdj]. now rewrite !has_push, keys_push. Qed.

Lemma keys_addEdge (g : Graph) (from to : string) :
  JsMap.keys (adj (addEdge g from to)) = JsMap.keys (adj g).
Proof. apply (addEdge_keys g from to ""). Qed.

Lemma buildGraph_keys (tasks : list Task) (k : string) :
  In k (JsMap.keys (adj (buildGraph tasks))) -> In k (buildNodes tasks).
Proof.
  assert (Hstep1 : forall g t, JsMap.keys (adj (addTaskEdges g t)) = JsMap.keys (adj g)).
  { intros g t. unfold addTaskEdges.
    assert (Hdeps : forall l g', JsMap.keys (adj (fold_left (addDependency (id t)) l g'))
                                 = JsMap.keys (adj g')).
    { induction l as [|d l IH]; intros g'; [reflexivity|]. cbn [fold_left].
      rewrite IH. unfold addDependency. destruct (_ && _); [apply keys_addEdge | reflexivity]. }
    destruct (dependencies t); [apply keys_addEdge|].
    destruct (_ =? 0)%nat; [rewrite keys_addEdge|]; apply Hdeps. }
  assert (Hstep2 : forall g t, JsMap.keys (adj (linkToEnd g t)) = JsMap.keys (adj g)).
  { intros g t. unfold linkToEnd.
    destruct (JsMap.get (adj g) (id t)) as [[|? ?]|]; try reflexivity. apply keys_addEdge. }
  assert (G1 : forall l g, JsMap.keys (adj (fold_left addTaskEdges l g)) = JsMap.keys (adj g)).
  { induction l as [|t l IH]; intros g; [reflexivity|]. cbn [fold_left]. now rewrite IH. }
  assert (G2 : forall l g, JsMap.keys (adj (fold_left linkToEnd l g)) = JsMap.keys (adj g)).
  { induction l as [|t l IH]; intros g; [reflexivity|]. cbn [fold_left]. now rewrite IH. }
  unfold buildGraph. rewrite G2, G1. intros Hk.
  apply In_buildNodes. destruct (initGraph_keys tasks) as (_ & _ & _ & H).
  destruct (H k Hk); auto.
Qed.

(** *** A finite set in which every element has a predecessor has a cycle *)

Lemma chained_app_r edge (l1 l2 : list string) : chained edge (l1 ++ l2) -> chained edge l2.
Proof.
  induction l1 as [|a l1 IH]; [tauto|]. intros H. apply IH.
  destruct l1 as [|b l1]; cbn [app] in *.
  - destruct l2; [exact I | apply H].
  - apply H.
Qed.

Lemma chained_path edge (a : string) (l : list string) (b : string) :
  chained edge (a :: l ++ [b]) -> clos_trans string edge a b.
Proof.
  revert a. induction l as [|c l IH]; intros a H.
  - apply t_step. apply H.
  - cbn [app] in H. destruct H as (Hac & H).
    eapply t_trans; [apply t_step, Hac | apply IH, H].
Qed.

Lemma repeated_element (l : list string) :
  ~ NoDup l -> exists x l1 l2 l3, l = l1 ++ x :: l2 ++ x :: l3.
Proof.
  induction l as [|a l IH]; intros H; [exfalso; apply H; constructor|].
  destruct (in_dec string_dec a l) as [Hin|Hnin].
  - destruct (in_split _ _ Hin) as (l2 & l3 & ->). now exists a, [], l2, l3.
  - destruct IH as (x & l1 & l2 & l3 & ->).
    + intros Hnd. apply H. now constructor.
    + now exists x, (a :: l1), l2, l3.
Qed.

Lemma chain_of_predecessors edge (U : list string) :
  (forall v, In v U -> exists u, In u U /\ edge u v) ->
  U <> [] ->
  forall n, exists c, List.length c = S n /\ chained edge c /\ incl c U.
Proof.
  intros Hpred Hne. induction n as [|n (c & Hlen & Hc & Hincl)].
  - destruct U as [|v U]; [congruence|]. exists [v]. split; [reflexivity|].
    split; [exact I|]. intros x [<-|[]]. now left.
  - destruct c as [|h t]; [discriminate|].
    destruct (Hpred h (Hincl h (or_introl eq_refl))) as (u & Hu & Huh).
    exists (u :: h :: t). split; [simpl in *; lia|]. split; [now split|].
    intros x [<-|Hx]; [exact Hu | now apply Hincl].
Qed.

Lemma predecessors_make_cycle edge (U : list string) :
  (forall v, In v U -> exists u, In u U /\ edge u v) ->
  U <> [] ->
  exists x, clos_trans string edge x x.
Proof.
  intros Hpred Hne.
  destruct (chain_of_predecessors edge U Hpred Hne (List.length U))
    as (c & Hlen & Hc & Hincl).
  destruct (repeated_element c) as (x & l1 & l2 & l3 & E).
  - intros Hnd. pose proof (NoDup_incl_length Hnd Hincl). lia.
  - exists x. subst c. apply chained_app_r in Hc.
    apply (chained_path edge x l2 x).
    change (x :: l2 ++ x :: l3) with ((x :: l2) ++ x :: l3) in Hc.
    replace ((x :: l2) ++ x :: l3) with ((x :: l2 ++ [x]) ++ l3) in Hc
      by (cbn [app]; now rewrite <- app_assoc).
    clear - Hc. revert Hc. generalize (x :: l2 ++ [x]). intros l.
    revert l3. induction l as [|a l IH]; intros l3 H; [exact I|].
    destruct l as [|b l]; [exact I|]. cbn [app] in H. destruct H as (Hab & H).
    split; [exact Hab | now apply (IH l3)].
Qed.

Lemma NoDup_split_unique {A} (l1 l2 a c : list A) (v : A) :
  NoDup (l1 ++ v :: l2) -> l1 ++ v :: l2 = a ++ v :: c -> l1 = a.
Proof.
  revert a. induction l1 as [|x l1 IH]; intros a Hnd E.
  - destruct a as [|y a]; [reflexivity|]. exfalso.
    cbn [app] in *. injection E as <- ->. inversion Hnd as [|? ? Hv _]; subst.
    apply Hv, in_or_app. right. now left.
  - destruct a as [|y a]; cbn [app] in *.
    + exfalso. injection E as -> _. inversion Hnd as [|? ? Hv _]; subst.
      apply Hv, in_or_app. right. now left.
    + injection E as <- E. f_equal. apply IH; [|exact E]. now inversion Hnd.
Qed.

Lemma precedes_trans (order : list string) (u v w : string) :
  NoDup order -> precedes order u v -> precedes order v w -> precedes order u w.
Proof.
  intros Hnd (l1 & l2 & E1 & Hu) (l1' & l2' & E2 & Hv).
  exists l1', l2'. split; [exact E2|].
  destruct (in_split _ _ Hv) as (a & b & ->).
  assert (E : l1 ++ v :: l2 = a ++ v :: (b ++ w :: l2')).
  { rewrite <- E1, E2, <- app_assoc. reflexivity. }
  rewrite E1 in Hnd. rewrite (NoDup_split_unique _ _ _ _ _ Hnd E) in Hu.
  apply in_or_app. now left.
Qed.

Lemma precedes_irrefl (order : list string) (v : string) :
  NoDup order -> ~ precedes order v v.
Proof.
  intros Hnd (l1 & l2 & -> & Hv). apply NoDup_remove_2 in Hnd.
  apply Hnd, in_or_app. now left.
Qed.

(** A graph that has a topological order of its nodes has no cycle. *)
Lemma ordered_acyclic (adj : Adjacency) (order : list string) :
  NoDup order -> topologicallyOrdered adj order ->
  (forall u v, edgeOf adj u v -> In v order) ->
  acyclic adj.
Proof.
  intros Hnd Htop Hin v Hcycle.
  assert (G : forall a b, clos_trans string (edgeOf adj) a b -> precedes order a b).
  { intros a b H. induction H as [a b Hab|a b c _ IH1 _ IH2].
    - destruct (in_split _ _ (Hin a b Hab)) as (l1 & l2 & E).
      exists l1, l2. split; [exact E|]. exact (Htop l1 b l2 E a Hab).
    - now apply (precedes_trans order a b c). }
  exact (precedes_irrefl order v Hnd (G v v Hcycle)).
Qed.

(** The scheduler returns a schedule exactly when the graph is acyclic:
    [null] is the answer to a cycle and to nothing else. *)
Theorem schedule_iff_acyclic tasks runDurations :
  (exists s, schedule tasks runDurations = Some s) <-> acyclic (adj (buildGraph tasks)).
Proof.
  pose proof (buildGraph_invariant tasks) as (Hkeys & _ & _ & Hsucc).
  split.
  - intros (s & Hs). destruct (schedule_order _ _ _ Hs) as (Hnd & Htop & Hcover).
    destruct (schedule_Some _ _ _ Hs) as (Hn & Hg & _). rewrite <- Hg.
    apply (ordered_acyclic _ (topoOrder s) Hnd Htop).
    intros u v Huv. apply Hcover. rewrite Hn. apply (Hsucc u). now rewrite <- Hg.
  - intros Hacyclic. unfold schedule.
    destruct (topoSort_total (buildNodes tasks) (adj (buildGraph tasks))) as (o & Ho).
    rewrite Ho.
    pose proof (NoDup_buildNodes tasks) as Hns.
    destruct (topoSort_sound _ _ _ Hns Hkeys Ho) as (Hnd & _).
    assert (Hincl : incl o (buildNodes tasks)).
    { unfold topoSort in Ho.
      apply (kahnLoop_incl _ _ Hsucc _ _ _ _ _) in Ho; [exact Ho | | intros x []].
      intros x Hx. unfold initialQueue in Hx. now apply filter_In in Hx. }
    set (U := filter (fun v => negb (JsSet.has o v)) (buildNodes tasks)).
    assert (HU : forall v, In v U <-> In v (buildNodes tasks) /\ ~ In v o).
    { intros v. unfold U. rewrite filter_In, negb_true_iff.
      rewrite <- (JsSetFacts.has_In o v). destruct (JsSet.has o v); intuition congruence. }
    assert (Hempty : forall x, ~ In x U).
    { intros x Hx.
      destruct (predecessors_make_cycle (edgeOf (adj (buildGraph tasks))) U) as (c & Hc).
      - intros v Hv. apply HU in Hv. destruct Hv as (Hv & Hnot).
        destruct (topoSort_stalls _ _ _ Hns Hkeys Ho v Hv Hnot) as (u & Hu & Hkey & Huv).
        exists u. split; [|exact Huv]. apply HU. split; [|exact Hu].
        now apply buildGraph_keys.
      - intros E. rewrite E in Hx. exact Hx.
      - exact (Hacyclic c Hc). }
    assert (Hall : incl (buildNodes tasks) o).
    { intros v Hv. destruct (in_dec string_dec v o) as [H|H]; [exact H|].
      exfalso. apply (Hempty v), HU. auto. }
    pose proof (NoDup_incl_length Hnd Hincl). pose proof (NoDup_incl_length Hns Hall).
    destruct (Nat.eqb_spec (List.length o) (List.length (buildNodes tasks))) as [_|Hne];
      [|lia].
    cbn [negb]. eauto.
Qed.

(** The example task sets, but for the mutually dependent pair, are
    acyclic. *)
Lemma chain_acyclic : acyclic (adj (buildGraph chainTasks)).
Proof.
  apply (proj1 (schedule_iff_acyclic chainTasks [])). eexists. vm_compute. reflexivity.
Qed.

Lemma lead_acyclic : acyclic (adj (buildGraph leadTasks)).
Proof.
  apply (proj1 (schedule_iff_acyclic leadTasks [])). eexists. vm_compute. reflexivity.
Qed.


Lemma cyclic_pair_has_cycle : ~ acyclic (adj (buildGraph cyclicTasks)).
Proof.
  intros H. apply (H "A"). apply t_trans with "B"; apply t_step; vm_compute; auto.
Qed.

(** ** The forward pass *)

Lemma forwardStep_other taskMap g st j k :
  k <> j ->
  JsMap.get (fst (forwardStep taskMap g st j)) k = JsMap.get (fst st) k /\
  JsMap.get (snd (forwardStep taskMap g st j)) k = JsMap.get (snd st) k.
Proof.
  intros Hne. unfold forwardStep. destruct (String.eqb j "START"); [tauto|].
  cbn [fst snd]. now rewrite !get_set_other.
Qed.

Lemma forwardSteps_other taskMap g l st k :
  ~ In k l ->
  JsMap.get (fst (fold_left (forwardStep taskMap g) l st)) k = JsMap.get (fst st) k /\
  JsMap.get (snd (fold_left (forwardStep taskMap g) l st)) k = JsMap.get (snd st) k.
Proof.
  revert st. induction l as [|j l IH]; intros st Hk; [tauto|]. cbn [fold_left].
  destruct (IH (forwardStep taskMap g st j)) as (H1 & H2); [intros H; apply Hk; now right|].
  destruct (forwardStep_other taskMap g st j k) as (H3 & H4);
    [intros ->; apply Hk; now left|].
  now rewrite H1, H2, H3, H4.
Qed.

Lemma fold_left_ext_in {A B} (f h : A -> B -> A) (l : list B) (a : A) :
  (forall b, In b l -> forall a, f a b = h a b) -> fold_left f l a = fold_left h l a.
Proof.
  revert a. induction l as [|b l IH]; intros a H; [reflexivity|]. cbn [fold_left].
  rewrite (H b (or_introl eq_refl)). apply IH. intros b' Hb'. apply H. now right.
Qed.

(** The earliest start of [j] reads the tables at the predecessors of [j]
    only. *)
Lemma earliestStartOf_ext taskMap g es1 ef1 es2 ef2 j :
  (forall i, In i (getList (revAdj g) j) ->
     JsMap.get es1 i = JsMap.get es2 i /\ JsMap.get ef1 i = JsMap.get ef2 i) ->
  earliestStartOf taskMap g es1 ef1 j = earliestStartOf taskMap g es2 ef2 j.
Proof.
  intros H. unfold earliestStartOf. apply fold_left_ext_in.
  intros i Hi a. unfold startDueTo, getOr. destruct (H i Hi) as (-> & ->). reflexivity.
Qed.

Lemma NoDup_app_disjoint {A} (l1 l2 : list A) :
  NoDup (l1 ++ l2) -> forall a, In a l1 -> ~ In a l2.
Proof.
  induction l1 as [|x l1 IH]; intros H a Ha; [contradiction|].
  cbn [app] in H. inversion H as [|? ? Hx Hnd]; subst.
  destruct Ha as [->|Ha]; [|now apply IH].
  intros Ha2. apply Hx, in_or_app. now right.
Qed.

Lemma forwardPass_final taskMap g (order : list string) st0 j :
  NoDup order ->
  topologicallyOrdered (adj g) order ->
  (forall i k, In i (getList (revAdj g) k) -> In k (getList (adj g) i)) ->
  In j order -> j <> "START" ->
  let final := fold_left (forwardStep taskMap g) order st0 in
  JsMap.get (fst final) j = Some (earliestStartOf taskMap g (fst final) (snd final) j) /\
  JsMap.get (snd final) j
  = Some (earliestStartOf taskMap g (fst final) (snd final) j + forwardDuration taskMap j).
Proof.
  intros Hnd Htop Hmirror Hj Hstart final.
  destruct (in_split _ _ Hj) as (l1 & l2 & E).
  assert (Hj2 : ~ In j l2).
  { rewrite E in Hnd. apply NoDup_remove_2 in Hnd. intros H. apply Hnd, in_or_app. now right. }
  assert (Hpred : forall i, In i (getList (revAdj g) j) -> i <> j /\ ~ In i l2).
  { intros i Hi. pose proof (Htop l1 j l2 E i (Hmirror i j Hi)) as Hi1.
    rewrite E in Hnd. split.
    - intros ->. apply NoDup_remove_2 in Hnd. apply Hnd, in_or_app. now left.
    - intros Hi2. apply NoDup_remove_1 in Hnd.
      exact (NoDup_app_disjoint _ _ Hnd i Hi1 Hi2). }
  set (st1 := fold_left (forwardStep taskMap g) l1 st0).
  assert (Efinal : final = fold_left (forwardStep taskMap g) l2 (forwardStep taskMap g st1 j)).
  { unfold final. rewrite E, fold_left_app. reflexivity. }
  assert (Estart : earliestStartOf taskMap g (fst final) (snd final) j
                   = earliestStartOf taskMap g (fst st1) (snd st1) j).
  { apply earliestStartOf_ext. intros i Hi. destruct (Hpred i Hi) as (Hne & Hi2).
    rewrite Efinal.
    destruct (forwardSteps_other taskMap g l2 (forwardStep taskMap g st1 j) i Hi2)
      as (-> & ->).
    apply forwardStep_other, Hne. }
  rewrite Estart, Efinal.
  destruct (forwardSteps_other taskMap g l2 (forwardStep taskMap g st1 j) j Hj2)
    as (-> & ->).
  unfold forwardStep. apply String.eqb_neq in Hstart. rewrite Hstart. cbn [fst snd].
  now rewrite !get_set_same.
Qed.

Lemma fold_Qmax_upper {A} (f : A -> Q) (l : list A) (a : Q) :
  forall i, In i l -> f i <= fold_left (fun acc i => Qmax acc (f i)) l a.
Proof.
  revert a. induction l as [|x l IH]; intros a i Hi; [contradiction|]. cbn [fold_left].
  destruct Hi as [->|Hi]; [|now apply IH].
  eapply Qle_trans; [apply Q.le_max_r | apply fold_Qmax_ge].
Qed.

Lemma fold_Qmax_attained {A} (f : A -> Q) (l : list A) (a : Q) :
  fold_left (fun acc i => Qmax acc (f i)) l a == a
  \/ exists i, In i l /\ fold_left (fun acc i => Qmax acc (f i)) l a == f i.
Proof.
  revert a. induction l as [|x l IH]; intros a; cbn [fold_left]; [left; reflexivity|].
  destruct (IH (Qmax a (f x))) as [E|(i & Hi & E)].
  - destruct (Q.max_spec a (f x)) as [(_ & Em)|(_ & Em)].
    + right. exists x. split; [now left|]. now rewrite E.
    + left. now rewrite E.
  - right. exists i. split; [now right | exact E].
Qed.

(** With a lead of 10 on a predecessor lasting 5, the only required start of
    B is -5, and B starts at 0. *)
Lemma negative_required_start_is_clamped :
  exists s,
    schedule leadTasks [5; 3] = Some s /\
    getList (revAdj (graph s)) "B" = ["A"] /\
    startDueTo (buildTaskMap leadTasks [5; 3]) (es s) (ef s) "B" "A" == -5 /\
    JsMap.get (es s) "B" = Some 0 /\
    ~ 0 == -5.
Proof.
  destruct (schedule leadTasks [5; 3]) as [s|] eqn:E; [|discriminate E].
  exists s. split; [reflexivity|]. vm_compute in E. injection E as <-.
  split; [reflexivity|]. split; [reflexivity|]. split; [reflexivity|]. discriminate.
Qed.

(** A later dependency on the same predecessor is not read: B declares A
    finish-to-start with lag 1, then start-to-start with lag 7, and A lasts
    2; the edge from A is there twice, both times with the required start
    2 + 1 of the first declaration, and B starts at 3, not at 7. *)
Lemma repeated_dependency_uses_first :
  exists s,
    schedule repeatedTasks [2; 1] = Some s /\
    getList (revAdj (graph s)) "B" = ["A"; "A"] /\
    findDependency (JsMap.get (buildTaskMap repeatedTasks [2; 1]) "B") "A"
    = Some (dependsOn "A" FS 1) /\
    startDueTo (buildTaskMap repeatedTasks [2; 1]) (es s) (ef s) "B" "A" == 3 /\
    JsMap.get (es s) "B" = Some 3.
Proof.
  destruct (schedule repeatedTasks [2; 1]) as [s|] eqn:E; [|discriminate E].
  exists s. split; [reflexivity|]. vm_compute in E. injection E as <-.
  repeat split; reflexivity.
Qed.

(** C2, amended: for every acyclic task set, with finite durations and
    lags, the scheduler returns, and every node [j] other than START has
    earliestStart(j) = max(0, max over its predecessors [i] of the required
    start), the required start being, by the type and the lag of the first
    dependency of [j] that names [i] (finish-to-start without lag when
    there is none; a later dependency of [j] on the same [i] is not read):
    FS: earliestFinish(i) + lag, SS: earliestStart(i) + lag,
    FF: earliestFinish(i) + lag - d_j, SF: earliestStart(i) + lag - d_j,
    taken at the final times of [i]; so 0 is a lower bound of every
    earliest start; and earliestFinish(j) = earliestStart(j) + d_j, where
    d_j is the sampled duration clamped at 0 (0 for END). *)
Theorem earliest_start_is_clamped_maximum tasks runDurations :
  acyclic (adj (buildGraph tasks)) ->
  exists s,
    schedule tasks runDurations = Some s /\
    forall j, In j (nodes s) -> j <> "START" ->
      let taskMap := buildTaskMap tasks runDurations in
      let preds := getList (revAdj (graph s)) j in
      let d_j := forwardDuration taskMap j in
      let required := fun i =>
        let dependency := findDependency (JsMap.get taskMap j) i in
        match depTypeOf dependency with
        | FS => getOr (ef s) i 0 + lagOf dependency
        | SS => getOr (es s) i 0 + lagOf dependency
        | FF => getOr (ef s) i 0 + lagOf dependency - d_j
        | SF => getOr (es s) i 0 + lagOf dependency - d_j
        end in
      exists esJ,
        JsMap.get (es s) j = Some esJ /\
        JsMap.get (ef s) j = Some (esJ + d_j) /\
        esJ = fold_left (fun earliestStartJ i => Qmax earliestStartJ (required i)) preds 0 /\
        0 <= esJ /\
        (forall i, In i preds -> required i <= esJ) /\
        (esJ == 0 \/ exists i, In i preds /\ esJ == required i).
Proof.
  intros Hacyclic.
  destruct (proj2 (schedule_iff_acyclic tasks runDurations) Hacyclic) as (s & Hs).
  exists s. split; [exact Hs|].
  intros j Hj Hstart taskMap preds d_j required.
  destruct (schedule_Some _ _ _ Hs) as (_ & Hg & _ & _ & Hfw & _).
  destruct (schedule_order _ _ _ Hs) as (Hnd & Htop & Hcover).
  pose proof (buildGraph_invariant tasks) as (_ & _ & Hmirror & _). rewrite <- Hg in Hmirror.
  pose proof (forwardPass_final taskMap (graph s) (topoOrder s)
                (initTimes (nodes s) 0, initTimes (nodes s) 0) j
                Hnd Htop Hmirror (proj1 (Hcover j) Hj) Hstart) as Hfinal.
  cbv zeta in Hfinal. fold (forwardPass taskMap (graph s) (nodes s) (topoOrder s)) in Hfinal.
  assert (E1 : fst (forwardPass taskMap (graph s) (nodes s) (topoOrder s)) = es s)
    by (unfold taskMap; now rewrite <- Hfw).
  assert (E2 : snd (forwardPass taskMap (graph s) (nodes s) (topoOrder s)) = ef s)
    by (unfold taskMap; now rewrite <- Hfw).
  rewrite E1, E2 in Hfinal. destruct Hfinal as (Hes & Hef).
  assert (Efold : earliestStartOf taskMap (graph s) (es s) (ef s) j
                  = fold_left (fun earliestStartJ i => Qmax earliestStartJ (required i))
                      preds 0).
  { unfold earliestStartOf. apply fold_left_ext_in. intros i _ a.
    unfold startDueTo, requiredStart, required. reflexivity. }
  exists (earliestStartOf taskMap (graph s) (es s) (ef s) j).
  split; [exact Hes|]. split; [exact Hef|]. split; [exact Efold|].
  rewrite Efold. split; [apply fold_Qmax_ge|].
  split; [apply fold_Qmax_upper | apply fold_Qmax_attained].
Qed.

(** In the lead example B starts at 0, above its required start of -5. *)
Lemma earliest_start_is_clamped_maximum_witness :
  exists s esB,
    schedule leadTasks [5; 3] = Some s /\
    JsMap.get (es s) "B" = Some esB /\ 0 <= esB /\
    JsMap.get (ef s) "B" = Some (esB + 3).
Proof.
  destruct (earliest_start_is_clamped_maximum leadTasks [5; 3] lead_acyclic)
    as (s & Hs & H).
  destruct (H "B") as (esB & Hes & Hef & _ & H0 & _).
  - vm_compute in Hs. injection Hs as <-. right. right. right. left. reflexivity.
  - discriminate.
  - exists s, esB. split; [exact Hs|]. split; [exact Hes|]. split; [exact H0|].
    rewrite Hef. reflexivity.
Defined.

(** ** The linear chain *)

(** C4: the chain T1 -> T2 -> T3 (finish-to-start, no lag) with durations
    Triangular(5,5,5), Triangular(3,3,3), Triangular(4,4,4): every draw of
    the durations is 5, 3, 4 and leaves the generator untouched; the
    scheduler returns a total duration of 12, marks the three tasks
    critical, their slack is zero, and END's earliest finish equals its
    latest finish. *)
Theorem linear_chain_schedule :
  (forall (RNG : Type) uniform normal sqrt exp (r : RNG),
      drawDurations RNG uniform normal sqrt exp chainTasks r = ([5; 3; 4], r)) /\
  exists s r,
    schedule chainTasks [5; 3; 4] = Some s /\
    calculateCPM chainTasks [5; 3; 4] = Some r /\
    totalDuration r == 12 /\
    criticalPathTasks r = ["T1"; "T2"; "T3"] /\
    (forall t, In t chainTasks -> slackOf s (id t) == 0) /\
    JsMap.get (ef s) "END" = Some 12 /\
    JsMap.get (lf s) "END" = Some 12.
Proof.
  split; [reflexivity|].
  destruct (schedule chainTasks [5; 3; 4]) as [s|] eqn:E; [|discriminate E].
  exists s, (resultOf chainTasks s).
  split; [reflexivity|]. split; [now apply calculateCPM_schedule|].
  vm_compute in E. injection E as <-.
  split; [reflexivity|]. split; [reflexivity|].
  split; [|split; reflexivity].
  intros t [<-|[<-|[<-|[]]]]; reflexivity.
Qed.

(** ** Durations are clamped at zero *)

Lemma buildTaskMap_other (durs : list Q) (l : list Task) (m : JsMap.t TaskEntry)
  (k : nat) (key : string) :
  ~ In key (map id l) ->
  JsMap.get (fst (fold_left
                    (fun (acc : JsMap.t TaskEntry * nat) t =>
                       let (m, i) := acc in
                       (JsMap.set m (id t)
                          {| task := t; index := i; sampled := nth_error durs i |}, S i))
                    l (m, k))) key
  = JsMap.get m key.
Proof.
  revert m k. induction l as [|t l IH]; intros m k Hk; [reflexivity|].
  cbn [fold_left]. rewrite IH by (intros H; apply Hk; now right).
  apply get_set_other. intros ->. apply Hk. now left.
Qed.









(** ** The critical-path test *)

Lemma isCritical_spec tasks runDurations s n :
  schedule tasks runDurations = Some s -> In n (nodes s) ->
  isCritical s n = true
  <-> Qabs (slackOf s n) < MIN_SLACK_TOLERANCE
      \/ Qabs (getOr (ef s) n 0 - projectFinish s) < MIN_SLACK_TOLERANCE.
Proof.
  intros Hs Hn.
  destruct (schedule_entries _ _ _ n Hs Hn) as (a & b & c & d & Ha & Hb & Hc & _).
  unfold isCritical, slackOf, getOr. rewrite Ha, Hb, Hc.
  rewrite orb_true_iff, !Qltb_lt. reflexivity.
Qed.



(** ** The sample arrays *)

Lemma modifyAt_app {A} (f : A -> A) (pre : list A) (a : A) (suf : list A) :
  modifyAt f (List.length pre) (pre ++ a :: suf) = pre ++ f a :: suf.
Proof. induction pre as [|p pre IH]; simpl; [reflexivity | now rewrite IH]. Qed.

(** Touching every index once is a map over the array. *)
Lemma forEachIndexed_modifyAt {A} (F : nat -> A -> A) (tasks : list Task) :
  forall (pre suf : list A),
    List.length suf = List.length tasks ->
    fold_left (fun s (ti : nat * Task) => modifyAt (F (fst ti)) (fst ti) s)
      (combine (seq (List.length pre) (List.length tasks)) tasks) (pre ++ suf)
    = pre ++ map (fun ia => F (fst ia) (snd ia))
               (combine (seq (List.length pre) (List.length suf)) suf).
Proof.
  induction tasks as [|t ts IH]; intros pre suf Hlen.
  - destruct suf; [reflexivity | discriminate].
  - destruct suf as [|a suf]; [discriminate|]. simpl in Hlen. injection Hlen as Hlen.
    cbn [List.length seq combine fold_left map fst snd].
    rewrite modifyAt_app.
    replace (pre ++ F (List.length pre) a :: suf)
      with ((pre ++ [F (List.length pre) a]) ++ suf)
      by (now rewrite <- app_assoc).
    replace (S (List.length pre)) with (List.length (pre ++ [F (List.length pre) a]))
      by (rewrite length_app; simpl; lia).
    rewrite IH by exact Hlen. now rewrite <- app_assoc.
Qed.

Lemma Forall_indexed_map {A} (F : nat -> A -> A) (P R : A -> Prop) :
  (forall i a, P a -> R (F i a)) ->
  forall (l : list A) k, Forall P l ->
    Forall R (map (fun ia => F (fst ia) (snd ia)) (combine (seq k (List.length l)) l)).
Proof.
  intros HF. induction l as [|a l IH]; intros k Hl; simpl; [constructor|].
  inversion Hl; subst. constructor; [now apply HF | now apply IH].
Qed.

Lemma length_indexed_map {A} (F : nat -> A -> A) (l : list A) k :
  List.length (map (fun ia => F (fst ia) (snd ia)) (combine (seq k (List.length l)) l))
  = List.length l.
Proof. rewrite length_map, length_combine, length_seq. apply Nat.min_id. Qed.

Lemma recordSamples_spec tasks values samples :
  List.length samples = List.length tasks ->
  recordSamples tasks values samples
  = map (fun ia => snd ia ++ [nth (fst ia) values 0])
      (combine (seq 0 (List.length samples)) samples).
Proof.
  intros Hlen. unfold recordSamples, forEachIndexed.
  exact (forEachIndexed_modifyAt (fun idx l => l ++ [nth idx values 0]) tasks [] samples Hlen).
Qed.

Lemma dropSamples_spec tasks samples :
  List.length samples = List.length tasks ->
  dropSamples tasks samples
  = map (fun ia => removelast (snd ia)) (combine (seq 0 (List.length samples)) samples).
Proof.
  intros Hlen. unfold dropSamples, forEachIndexed.
  exact (forEachIndexed_modifyAt (fun _ l => removelast l) tasks [] samples Hlen).
Qed.

Lemma recordSamples_lengths tasks values samples n :
  List.length samples = List.length tasks ->
  Forall (fun l => List.length l = n) samples ->
  List.length (recordSamples tasks values samples) = List.length tasks /\
  Forall (fun l => List.length l = S n) (recordSamples tasks values samples).
Proof.
  intros Hlen Hall. rewrite recordSamples_spec by exact Hlen. split.
  - now rewrite (length_indexed_map (fun idx l => l ++ [nth idx values 0])).
  - apply (Forall_indexed_map (fun idx l => l ++ [nth idx values 0])
             (fun l => List.length l = n)); [|exact Hall].
    intros i a <-. rewrite length_app. simpl. lia.
Qed.

Lemma dropSamples_lengths tasks samples n :
  List.length samples = List.length tasks ->
  Forall (fun l => List.length l = S n) samples ->
  List.length (dropSamples tasks samples) = List.length tasks /\
  Forall (fun l => List.length l = n) (dropSamples tasks samples).
Proof.
  intros Hlen Hall. rewrite dropSamples_spec by exact Hlen. split.
  - now rewrite (length_indexed_map (fun _ l => removelast l)).
  - apply (Forall_indexed_map (fun _ l => removelast l)
             (fun l => List.length l = S n)); [|exact Hall].
    intros _ a Ha. destruct (exists_last (l := a)) as (l' & x & ->).
    + intros ->. discriminate.
    + rewrite removelast_last. rewrite length_app in Ha. simpl in Ha. lia.
Qed.

(** With distinct ids every task's timing sequences grow by one entry. *)
Lemma get_recordTimings taskTimings (tasks : list Task) :
  NoDup (map id tasks) ->
  forall all k,
    JsMap.get (recordTimings tasks taskTimings all) k
    = match JsMap.get all k with
      | Some samples =>
          if in_dec string_dec k (map id tasks)
          then match JsMap.get taskTimings k with
               | Some timing =>
                   Some {| starts := starts samples ++ [timing_es timing];
                           finishes := finishes samples ++ [timing_ef timing] |}
               | None => Some samples
               end
          else Some samples
      | None => None
      end.
Proof.
  unfold recordTimings.
  induction tasks as [|t ts IH]; intros Hnd all k.
  - simpl. now destruct (JsMap.get all k).
  - cbn [map] in Hnd. inversion Hnd as [|? ? Hnotin Hnd']; subst.
    cbn [fold_left]. rewrite (IH Hnd'). clear IH. cbn [map].
    destruct (string_dec (id t) k) as [<-|Hne].
    + destruct (in_dec string_dec (id t) (map id ts)) as [Hin|_]; [contradiction|].
      destruct (in_dec string_dec (id t) (id t :: map id ts)) as [_|Hn];
        [|exfalso; apply Hn; now left].
      destruct (JsMap.get all (id t)) as [samples|] eqn:Ea.
      * destruct (JsMap.get taskTimings (id t)) as [timing|] eqn:Et.
        -- now rewrite get_set_same.
        -- now rewrite Ea.
      * now rewrite Ea.
    + assert (Hget : JsMap.get
                 (match JsMap.get all (id t), JsMap.get taskTimings (id t) with
                  | Some samples, Some timing =>
                      JsMap.set all (id t)
                        {| starts := starts samples ++ [timing_es timing];
                           finishes := finishes samples ++ [timing_ef timing] |}
                  | _, _ => all
                  end) k = JsMap.get all k).
      { destruct (JsMap.get all (id t)); [|reflexivity].
        destruct (JsMap.get taskTimings (id t)); [|reflexivity].
        apply get_set_other. congruence. }
      rewrite Hget. destruct (JsMap.get all k) as [samples|]; [|reflexivity].
      destruct (in_dec string_dec k (map id ts)) as [Hin|Hnin];
        destruct (in_dec string_dec k (id t :: map id ts)) as [Hin'|Hnin'];
        try reflexivity.
      * exfalso. apply Hnin'. now right.
      * destruct Hin' as [E|Hin']; [congruence | contradiction].
Qed.

Lemma initialAccumulators_consistent tasks :
  consistentAccumulators tasks (initialAccumulators tasks).
Proof.
  unfold consistentAccumulators, initialAccumulators.
  cbn [simulationRuns taskDurationSamples taskCostSamples allTaskTimings List.length].
  rewrite !length_map.
  assert (Hget : forall k,
             JsMap.get (fold_left (fun acc t => JsMap.set acc (id t)
                                     {| starts := []; finishes := [] |})
                          tasks JsMap.empty) k
             = if in_dec string_dec k (map id tasks)
               then Some {| starts := []; finishes := [] |} else None).
  { intros k.
    pose proof (get_fold_set (map id tasks)
                  (fun _ => {| starts := []; finishes := [] |}) JsMap.empty k) as H.
    cbn [JsMap.get JsMap.empty] in H. rewrite <- H. clear H. f_equal.
    generalize (@JsMap.empty TimingSamples).
    induction tasks as [|t ts IH]; intros m; simpl; [reflexivity | apply IH]. }
  split; [reflexivity|]. split; [reflexivity|].
  split; [|split; [|split]].
  - apply Forall_forall. intros l Hl. apply in_map_iff in Hl. now destruct Hl as (_ & <- & _).
  - apply Forall_forall. intros l Hl. apply in_map_iff in Hl. now destruct Hl as (_ & <- & _).
  - intros t Ht. unfold JsMap.has. rewrite Hget.
    destruct in_dec as [_|Hn]; [reflexivity|]. exfalso. apply Hn. now apply in_map.
  - intros k samples H. rewrite Hget in H. destruct in_dec; [|discriminate].
    injection H as <-. auto.
Qed.

Lemma settleTrial_consistent tasks runDurations runCosts acc :
  NoDup (map id tasks) ->
  consistentAccumulators tasks acc ->
  consistentAccumulators tasks (settleTrial tasks runDurations runCosts acc).
Proof.
  intros Hnd (Hld & Hlc & Hd & Hc & Hhas & Hlen).
  destruct (recordSamples_lengths tasks runDurations _ _ Hld Hd) as (Hld1 & Hd1).
  destruct (recordSamples_lengths tasks runCosts _ _ Hlc Hc) as (Hlc1 & Hc1).
  unfold settleTrial, consistentAccumulators.
  destruct (calculateCPM tasks runDurations) as [r|] eqn:Er;
    cbn [simulationRuns taskDurationSamples taskCostSamples allTaskTimings].
  - destruct (calculateCPM_Some _ _ _ Er) as (s & _ & ->).
    rewrite length_app. cbn [List.length]. rewrite Nat.add_1_r.
    split; [exact Hld1|]. split; [exact Hlc1|].
    split; [exact Hd1|]. split; [exact Hc1|]. split.
    + intros t Ht. unfold JsMap.has. rewrite (get_recordTimings _ _ Hnd).
      pose proof (Hhas t Ht) as H. unfold JsMap.has in H.
      destruct (JsMap.get (allTaskTimings acc) (id t)); [|discriminate].
      destruct in_dec; [|reflexivity]. now destruct (JsMap.get _ (id t)).
    + intros k samples. rewrite (get_recordTimings _ _ Hnd).
      destruct (JsMap.get (allTaskTimings acc) k) as [old|] eqn:Eo; [|discriminate].
      destruct (Hlen _ _ Eo) as (Hk & Hs & Hf).
      destruct in_dec as [_|Hn]; [|contradiction].
      rewrite get_taskTimings. destruct in_dec as [_|Hn]; [|contradiction].
      intros [= <-]. cbn [starts finishes]. rewrite !length_app. simpl.
      split; [exact Hk | lia].
  - destruct (dropSamples_lengths tasks _ _ Hld1 Hd1) as (Hld2 & Hd2).
    destruct (dropSamples_lengths tasks _ _ Hlc1 Hc1) as (Hlc2 & Hc2).
    split; [exact Hld2|]. split; [exact Hlc2|].
    split; [exact Hd2|]. split; [exact Hc2|]. split; assumption.
Qed.

Lemma pop_after_push (g : nat -> Q) (l : list (list Q)) :
  forall k k',
    map (fun ia : nat * list Q => removelast (snd ia))
      (combine (seq k' (List.length l))
         (map (fun ia : nat * list Q => snd ia ++ [g (fst ia)])
            (combine (seq k (List.length l)) l)))
    = l.
Proof.
  induction l as [|a l IH]; intros k k'; cbn [List.length seq combine map fst snd];
    [reflexivity|].
  rewrite removelast_last. f_equal. apply IH.
Qed.

(** Popping after pushing restores the sample arrays. *)
Lemma dropSamples_recordSamples tasks values samples :
  List.length samples = List.length tasks ->
  dropSamples tasks (recordSamples tasks values samples) = samples.
Proof.
  intros Hlen. rewrite recordSamples_spec by exact Hlen.
  rewrite dropSamples_spec.
  - rewrite (length_indexed_map (fun idx l => l ++ [nth idx values 0])).
    apply (pop_after_push (fun idx => nth idx values 0)).
  - now rewrite (length_indexed_map (fun idx l => l ++ [nth idx values 0])).
Qed.

(** A trial whose scheduling fails leaves every accumulator as it was. *)
Lemma settleTrial_failure tasks runDurations runCosts acc :
  consistentAccumulators tasks acc ->
  calculateCPM tasks runDurations = None ->
  settleTrial tasks runDurations runCosts acc = acc.
Proof.
  intros (Hld & Hlc & _) Hnone. unfold settleTrial. rewrite Hnone.
  rewrite !dropSamples_recordSamples by assumption. now destruct acc.
Qed.

Lemma settleTrial_success tasks runDurations runCosts acc r :
  calculateCPM tasks runDurations = Some r ->
  List.length (simulationRuns (settleTrial tasks runDurations runCosts acc))
  = S (List.length (simulationRuns acc)).
Proof.
  intros Hr. unfold settleTrial. rewrite Hr. cbn [simulationRuns].
  rewrite length_app. simpl. lia.
Qed.

(** Whether the scheduler returns depends on the tasks alone. *)
Lemma calculateCPM_None_any tasks d d' :
  calculateCPM tasks d = None -> calculateCPM tasks d' = None.
Proof.
  unfold calculateCPM, schedule.
  destruct (topoSort (buildNodes tasks) (adj (buildGraph tasks))); [|reflexivity].
  destruct (negb _); [reflexivity | discriminate].
Qed.

(** ** The trials of the engine *)

Lemma indexed_map_seq {A B} (G : nat -> A) (h : nat -> A -> B) (n k : nat) :
  map (fun ia => h (fst ia) (snd ia))
    (combine (seq k (List.length (map G (seq k n)))) (map G (seq k n)))
  = map (fun idx => h idx (G idx)) (seq k n).
Proof.
  rewrite length_map, length_seq. revert k.
  induction n as [|n IH]; intros k; cbn [seq map combine fst snd]; [reflexivity|].
  now rewrite IH.
Qed.

Lemma filter_snoc {A} (f : A -> bool) (l : list A) (x : A) :
  filter f (l ++ [x]) = filter f l ++ (if f x then [x] else []).
Proof. rewrite filter_app. reflexivity. Qed.

Lemma isValidTrial_acyclic tasks :
  acyclic (adj (buildGraph tasks)) -> forall draw, isValidTrial tasks draw = true.
Proof.
  intros H draw. unfold isValidTrial.
  destruct (proj2 (schedule_iff_acyclic tasks (fst draw)) H) as (s & Hs).
  now rewrite (calculateCPM_schedule _ _ _ Hs).
Qed.

Lemma isValidTrial_cyclic tasks :
  ~ acyclic (adj (buildGraph tasks)) -> forall draw, isValidTrial tasks draw = false.
Proof.
  intros H draw. unfold isValidTrial.
  destruct (calculateCPM tasks (fst draw)) as [r|] eqn:Er; [|reflexivity].
  exfalso. apply H. destruct (calculateCPM_Some _ _ _ Er) as (s & Hs & _).
  apply (proj1 (schedule_iff_acyclic tasks (fst draw))). eauto.
Qed.

Lemma filter_all {A} (f : A -> bool) (l : list A) :
  (forall a, f a = true) -> filter f l = l.
Proof.
  intros H. induction l as [|a l IH]; [reflexivity|].
  cbn [filter]. now rewrite H, IH.
Qed.

Lemma filter_none {A} (f : A -> bool) (l : list A) :
  (forall a, f a = false) -> filter f l = [].
Proof.
  intros H. induction l as [|a l IH]; [reflexivity|].
  cbn [filter]. now rewrite H, IH.
Qed.

Section EngineProperties.
Variable RNG : Type.
Variable uniform : RNG -> Q * RNG.
Variable normal : RNG -> Q * RNG.
Variable sqrt : Q -> Q.
Variable exp : Q -> Q.
Variable Analysis : Type.
Variable analyse : list Task -> Accumulators -> Analysis.

Local Abbreviation loop := (simulationLoop RNG uniform normal sqrt exp).
Local Abbreviation trial := (runTrial RNG uniform normal sqrt exp).
Local Abbreviation run :=
  (runMonteCarloSimulation RNG uniform normal sqrt exp Analysis analyse).

Lemma simulationLoop_S tasks n st :
  loop tasks (S n) st = trial tasks (loop tasks n st).
Proof. reflexivity. Qed.

Lemma runTrial_settles tasks acc w :
  exists runDurations runCosts g,
    trial tasks (acc, w)
    = (settleTrial tasks runDurations runCosts acc,
       {| gen := g; trialsExecuted := S (trialsExecuted w) |}).
Proof.
  unfold runTrial.
  destruct (drawDurations _ _ _ _ _ tasks (gen w)) as [ds g1].
  destruct (drawCosts _ _ _ tasks g1) as [cs g2]. eauto.
Qed.

Lemma simulationLoop_invariant tasks numRuns acc w :
  NoDup (map id tasks) ->
  consistentAccumulators tasks acc ->
  consistentAccumulators tasks (fst (loop tasks numRuns (acc, w))) /\
  trialsExecuted (snd (loop tasks numRuns (acc, w)))
  = (trialsExecuted w + numRuns)%nat /\
  (List.length (simulationRuns (fst (loop tasks numRuns (acc, w))))
   <= List.length (simulationRuns acc) + numRuns)%nat.
Proof.
  intros Hnd Hacc.
  induction numRuns as [|n IH]; [|rewrite simulationLoop_S].
  - cbn [simulationLoop Nat.iter nat_rect fst snd]. split; [exact Hacc | split; lia].
  - destruct (loop tasks n (acc, w)) as [acc' w'] eqn:E.
    cbn [fst snd] in IH. destruct IH as (Hc & Ht & Hl).
    destruct (runTrial_settles tasks acc' w') as (ds & cs & g & ->).
    cbn [fst snd trialsExecuted]. split; [|split].
    + now apply settleTrial_consistent.
    + lia.
    + destruct (calculateCPM tasks ds) as [r|] eqn:Er.
      * rewrite (settleTrial_success _ _ _ _ _ Er). lia.
      * rewrite (settleTrial_failure _ _ _ _ Hc Er). lia.
Qed.

(** No trial succeeds on a task set that the scheduler rejects. *)
Lemma simulationLoop_rejected tasks numRuns acc w :
  consistentAccumulators tasks acc ->
  (forall runDurations, calculateCPM tasks runDurations = None) ->
  fst (loop tasks numRuns (acc, w)) = acc.
Proof.
  intros Hacc Hnone.
  induction numRuns as [|n IH]; [reflexivity | rewrite simulationLoop_S].
  destruct (loop tasks n (acc, w)) as [acc' w'] eqn:E.
  cbn [fst] in IH. subst acc'.
  destruct (runTrial_settles tasks acc w') as (ds & cs & g & ->).
  cbn [fst]. apply settleTrial_failure; auto.
Qed.

Local Abbreviation draws := (drawnTrials RNG uniform normal sqrt exp).
Local Abbreviation valid := (validTrials RNG uniform normal sqrt exp).

Lemma length_drawnTrials tasks n g : List.length (fst (draws tasks n g)) = n.
Proof.
  induction n as [|n IH]; [reflexivity|].
  cbn [drawnTrials]. unfold bind at 1. destruct (draws tasks n g) as [l g'].
  cbn [fst] in IH. unfold bind, ret.
  destruct (drawTrial _ _ _ _ _ tasks g') as [d g'']. cbn [fst].
  rewrite length_app. cbn [List.length]. lia.
Qed.

(** What the loop has done after [numRuns] trials: the generator is the
    one after their draws, and the sample arrays hold, task by task, the
    samples of the valid ones. *)
Lemma simulationLoop_trace tasks numRuns w :
  NoDup (map id tasks) ->
  let acc := fst (loop tasks numRuns (initialAccumulators tasks, w)) in
  let w' := snd (loop tasks numRuns (initialAccumulators tasks, w)) in
  let trials := valid tasks numRuns (gen w) in
  gen w' = snd (draws tasks numRuns (gen w)) /\
  trialsExecuted w' = (trialsExecuted w + numRuns)%nat /\
  consistentAccumulators tasks acc /\
  List.length (simulationRuns acc) = List.length trials /\
  taskDurationSamples acc
  = map (fun idx => map (fun draw => nth idx (fst draw) 0) trials)
      (seq 0 (List.length tasks)) /\
  taskCostSamples acc
  = map (fun idx => map (fun draw => nth idx (snd draw) 0) trials)
      (seq 0 (List.length tasks)).
Proof.
  intros Hnd. induction numRuns as [|n IH].
  - cbn [simulationLoop Nat.iter nat_rect fst snd validTrials drawnTrials ret filter
           List.length map initialAccumulators simulationRuns taskDurationSamples
           taskCostSamples].
    split; [reflexivity|]. split; [lia|].
    split; [apply initialAccumulators_consistent|]. split; [reflexivity|].
    unfold validTrials. cbn [drawnTrials ret fst filter map].
    split; rewrite <- (map_map (fun _ => tt) (fun _ => @nil Q)) at 1.
    + clear. generalize 0%nat. induction tasks as [|t ts IHt]; intros k; [reflexivity|].
      cbn [map List.length seq]. f_equal. rewrite <- IHt. now rewrite !map_map.
    + clear. generalize 0%nat. induction tasks as [|t ts IHt]; intros k; [reflexivity|].
      cbn [map List.length seq]. f_equal. rewrite <- IHt. now rewrite !map_map.
  - cbv zeta in IH |- *.
    change (loop tasks (S n) (initialAccumulators tasks, w))
      with (runTrial RNG uniform normal sqrt exp tasks
              (loop tasks n (initialAccumulators tasks, w))).
    destruct (loop tasks n (initialAccumulators tasks, w)) as [acc wn].
    cbn [fst snd] in IH. destruct IH as (Hg & Ht & Hc & Hl & Hd & Hcs).
    unfold validTrials in *. cbn [drawnTrials]. unfold bind at 1 3 5 7.
    destruct (draws tasks n (gen w)) as [l g'] eqn:El. cbn [fst snd] in *.
    unfold runTrial, drawTrial, bind, ret. rewrite Hg.
    destruct (drawDurations _ _ _ _ _ tasks g') as [ds g1].
    destruct (drawCosts _ _ _ tasks g1) as [cs g2].
    cbn [fst snd gen trialsExecuted]. rewrite filter_snoc.
    split; [reflexivity|]. split; [lia|].
    split; [now apply settleTrial_consistent|].
    unfold isValidTrial at 2 4 6. cbn [fst].
    destruct (calculateCPM tasks ds) as [r|] eqn:Er.
    + unfold settleTrial. rewrite Er.
      cbn [simulationRuns taskDurationSamples taskCostSamples].
      destruct Hc as (Hld & Hlc & _).
      rewrite !length_app, Hl. split; [reflexivity|].
      rewrite !recordSamples_spec by assumption. rewrite Hd, Hcs.
      rewrite (indexed_map_seq
                 (fun idx => map (fun draw : list Q * list Q => nth idx (fst draw) 0)
                               (filter (isValidTrial tasks) l))
                 (fun idx samples => samples ++ [nth idx ds 0])).
      rewrite (indexed_map_seq
                 (fun idx => map (fun draw : list Q * list Q => nth idx (snd draw) 0)
                               (filter (isValidTrial tasks) l))
                 (fun idx samples => samples ++ [nth idx cs 0])).
      split; apply map_ext; intros idx; now rewrite map_app.
    + rewrite (settleTrial_failure _ _ _ _ Hc Er), app_nil_r. auto.
Qed.

(** ** The engine's output *)

(** C5: the engine makes exactly [numRuns] trials, each with the next
    draws of the generator and none retried; the valid trials are those
    whose durations the scheduler accepts (all of them on an acyclic
    graph, none on a cyclic one), and the run list has one run per valid
    trial.  With distinct task ids, every duration-sample, cost-sample,
    earliest-start and earliest-finish sequence of the output has that
    length; when there is a valid trial the output has one duration and one
    cost sequence per task, holding the samples that the valid trials drew
    for the task, in their order (what a rejected trial drew is in none),
    and earliest-start and earliest-finish sequences for every task; when
    there is none the output is the empty one.  A trial that the scheduler
    rejects leaves the accumulators as they were before it, one that it
    accepts adds one run. *)
Theorem sample_sequences_match_valid_runs tasks numRuns w :
  NoDup (map id tasks) ->
  let out :=
    fst (runMonteCarloSimulation RNG uniform normal sqrt exp Analysis analyse
           tasks numRuns w) in
  let w' :=
    snd (runMonteCarloSimulation RNG uniform normal sqrt exp Analysis analyse
           tasks numRuns w) in
  let trials := drawnTrials RNG uniform normal sqrt exp tasks numRuns (gen w) in
  let validOnes := validTrials RNG uniform normal sqrt exp tasks numRuns (gen w) in
  let validRuns := List.length validOnes in
  (List.length (fst trials) = numRuns /\
   trialsExecuted w' = (trialsExecuted w + numRuns)%nat /\
   gen w' = snd trials) /\
  (validOnes = filter (isValidTrial tasks) (fst trials) /\
   (validRuns <= numRuns)%nat /\
   (acyclic (adj (buildGraph tasks)) -> validRuns = numRuns) /\
   (~ acyclic (adj (buildGraph tasks)) -> validRuns = 0%nat)) /\
  List.length (out_simulationRuns out) = validRuns /\
  Forall (fun l => List.length l = validRuns) (out_taskDurationSamples out) /\
  Forall (fun l => List.length l = validRuns) (out_taskCostSamples out) /\
  (forall k samples,
      JsMap.get (out_allTaskTimings out) k = Some samples ->
      List.length (starts samples) = validRuns /\
      List.length (finishes samples) = validRuns) /\
  (validRuns <> 0%nat ->
   out_taskDurationSamples out
   = map (fun idx => map (fun draw => nth idx (fst draw) 0) validOnes)
       (seq 0 (List.length tasks)) /\
   out_taskCostSamples out
   = map (fun idx => map (fun draw => nth idx (snd draw) 0) validOnes)
       (seq 0 (List.length tasks)) /\
   forall t, In t tasks ->
     exists samples,
       JsMap.get (out_allTaskTimings out) (id t) = Some samples /\
       List.length (starts samples) = validRuns /\
       List.length (finishes samples) = validRuns) /\
  (validRuns = 0%nat -> out = emptyOutput) /\
  (forall acc runDurations runCosts,
      consistentAccumulators tasks acc ->
      match calculateCPM tasks runDurations with
      | None => settleTrial tasks runDurations runCosts acc = acc
      | Some _ =>
          List.length (simulationRuns (settleTrial tasks runDurations runCosts acc))
          = S (List.length (simulationRuns acc))
      end).
Proof.
  intros Hnd out w' trials validOnes validRuns.
  assert (Htrial : forall acc runDurations runCosts,
             consistentAccumulators tasks acc ->
             match calculateCPM tasks runDurations with
             | None => settleTrial tasks runDurations runCosts acc = acc
             | Some _ =>
                 List.length (simulationRuns (settleTrial tasks runDurations runCosts acc))
                 = S (List.length (simulationRuns acc))
             end).
  { intros acc ds cs Hacc. destruct (calculateCPM tasks ds) as [r|] eqn:Er.
    - now apply (settleTrial_success _ _ _ _ r).
    - now apply settleTrial_failure. }
  pose proof (length_drawnTrials tasks numRuns (gen w)) as Hlen.
  fold trials in Hlen.
  assert (Hle : (validRuns <= numRuns)%nat).
  { unfold validRuns, validOnes, validTrials. rewrite <- Hlen at 2. apply filter_length_le. }
  pose proof (simulationLoop_trace tasks numRuns w Hnd) as H.
  cbv zeta in H. fold validOnes in H. fold trials in H.
  subst out w'. unfold runMonteCarloSimulation.
  destruct (loop tasks numRuns (initialAccumulators tasks, w)) as [acc wn].
  cbn [fst snd] in H. destruct H as (Hg & Ht & Hc & Hl & Hd & Hcs).
  fold validRuns in Hl.
  destruct Hc as (Hld & Hlc & Hfd & Hfc & Hhas & Htim). rewrite Hl in Hfd, Hfc, Htim.
  assert (Hparts :
            validOnes = filter (isValidTrial tasks) (fst trials) /\
            (validRuns <= numRuns)%nat /\
            (acyclic (adj (buildGraph tasks)) -> validRuns = numRuns) /\
            (~ acyclic (adj (buildGraph tasks)) -> validRuns = 0%nat)).
  { split; [reflexivity|]. split; [exact Hle|]. split; intros Hgraph.
    - unfold validRuns, validOnes, validTrials. fold trials.
      now rewrite (filter_all _ _ (isValidTrial_acyclic tasks Hgraph)).
    - unfold validRuns, validOnes, validTrials. fold trials.
      now rewrite (filter_none _ _ (isValidTrial_cyclic tasks Hgraph)). }
  destruct (Nat.eqb_spec (List.length (simulationRuns acc)) 0) as [E|E];
    cbn [fst snd emptyOutput out_simulationRuns out_taskDurationSamples
           out_taskCostSamples out_allTaskTimings List.length].
  - rewrite Hl in E.
    split; [auto|]. split; [exact Hparts|]. split; [now rewrite E|].
    split; [constructor|]. split; [constructor|].
    split; [intros k samples; discriminate|].
    split; [contradiction|]. split; [reflexivity | exact Htrial].
  - rewrite Hl in E.
    split; [auto|]. split; [exact Hparts|]. split; [exact Hl|].
    split; [exact Hfd|]. split; [exact Hfc|].
    split; [intros k samples Hk; now destruct (Htim _ _ Hk) as (_ & ? & ?)|].
    split; [|split; [contradiction | exact Htrial]].
    intros _. split; [exact Hd|]. split; [exact Hcs|].
    intros t Hin. pose proof (Hhas t Hin) as Ht'. unfold JsMap.has in Ht'.
    destruct (JsMap.get (allTaskTimings acc) (id t)) as [samples|] eqn:Es;
      [|discriminate].
    exists samples. split; [reflexivity|].
    now destruct (Htim _ _ Es) as (_ & ? & ?).
Qed.

(** The analysis is present when a trial is made on an acyclic task set. *)
Lemma analysis_present tasks numRuns w runDurations r :
  numRuns <> 0%nat -> calculateCPM tasks runDurations = Some r ->
  out_analysis (fst (run tasks numRuns w)) <> None.
Proof.
  intros Hn Hr. unfold runMonteCarloSimulation.
  destruct numRuns as [|n]; [contradiction|]. rewrite simulationLoop_S.
  destruct (loop tasks n (initialAccumulators tasks, w)) as [acc' w'].
  destruct (runTrial_settles tasks acc' w') as (ds & cs & g & ->).
  destruct (calculateCPM tasks ds) as [r'|] eqn:Er.
  - pose proof (settleTrial_success tasks ds cs acc' r' Er) as Hs.
    destruct (Nat.eqb_spec (List.length (simulationRuns (settleTrial tasks ds cs acc'))) 0);
      [lia | discriminate].
  - apply (calculateCPM_None_any _ _ runDurations) in Er. congruence.
Qed.

(** C6: no trial succeeds when no trial is made or when the dependency
    graph has a cycle, so that the scheduler rejects every trial; then, and
    only then, the engine returns the empty output: no run, no analysis
    object, no sample array, an empty timing map. *)
Theorem no_valid_trial_gives_empty_output tasks numRuns w :
  numRuns = 0%nat \/ ~ acyclic (adj (buildGraph tasks))
  <-> fst (run tasks numRuns w)
      = {| out_simulationRuns := [];
           out_analysis := None;
           out_taskDurationSamples := [];
           out_taskCostSamples := [];
           out_allTaskTimings := JsMap.empty |}.
Proof.
  split.
  - intros H. unfold runMonteCarloSimulation.
    assert (E : fst (loop tasks numRuns (initialAccumulators tasks, w))
                = initialAccumulators tasks).
    { destruct H as [-> | H]; [reflexivity|].
      apply simulationLoop_rejected; [apply initialAccumulators_consistent|].
      intros d. destruct (calculateCPM tasks d) as [r|] eqn:Er; [|reflexivity].
      exfalso. apply H. destruct (calculateCPM_Some _ _ _ Er) as (s & Hs & _).
      apply (proj1 (schedule_iff_acyclic tasks d)). eauto. }
    destruct (loop tasks numRuns (initialAccumulators tasks, w)) as [acc w'].
    cbn [fst] in E. subst acc. reflexivity.
  - intros E. destruct (Nat.eq_dec numRuns 0) as [Hn|Hn]; [now left|]. right.
    intros Hacyclic.
    destruct (proj2 (schedule_iff_acyclic tasks []) Hacyclic) as (s & Hs).
    apply (analysis_present tasks numRuns w [] _ Hn (calculateCPM_schedule _ _ _ Hs)).
    now rewrite E.
Qed.

(** ** The direct-cycle check of [runSimulation] *)

Lemma get_tasksById tasks t :
  NoDup (map id tasks) -> In t tasks -> JsMap.get (tasksById tasks) (id t) = Some t.
Proof.
  unfold tasksById. generalize (@JsMap.empty Task).
  induction tasks as [|t0 ts IH]; intros m Hnd Hin; [contradiction|].
  cbn [map] in Hnd. inversion Hnd as [|? ? Hnotin Hnd']; subst.
  cbn [fold_left]. destruct Hin as [->|Hin]; [|now apply IH].
  clear IH Hnd Hnd'. revert m. induction ts as [|t1 ts IH]; intros m.
  - apply get_set_same.
  - cbn [fold_left]. cbn [map] in Hnotin.
    assert (Hne : id t1 <> id t) by (intros E; apply Hnotin; now left).
    assert (Hnotin' : ~ In (id t) (map id ts)) by (intros H; apply Hnotin; now right).
    specialize (IH Hnotin').
    (* the later insertion of [t1] does not touch the entry of [t] *)
    assert (G : forall m1 m2,
               JsMap.get m1 (id t) = JsMap.get m2 (id t) ->
               JsMap.get (fold_left (fun m t => JsMap.set m (id t) t) ts m1) (id t)
               = JsMap.get (fold_left (fun m t => JsMap.set m (id t) t) ts m2) (id t)).
    { clear - Hnotin'. induction ts as [|t2 ts IH2]; intros m1 m2 E; [exact E|].
      cbn [fold_left]. apply IH2.
      - intros H. apply Hnotin'. now right.
      - rewrite !get_set. destruct (String.eqb (id t) (id t2)); [reflexivity | exact E]. }
    rewrite (G _ (JsMap.set m (id t) t)); [apply IH|].
    rewrite get_set_other by congruence. reflexivity.
Qed.

Lemma directCycleOf_Some byId a b da db :
  JsMap.get byId (id b) = Some b ->
  In da (dependencies a) -> predecessorId da = id b ->
  In db (dependencies b) -> predecessorId db = id a ->
  exists x y, directCycleOf byId a = Some (DirectCycle x y).
Proof.
  intros Hb Hda Eda Hdb Edb. unfold directCycleOf.
  destruct (find _ (dependencies a)) as [dep|] eqn:Ef.
  - apply find_some in Ef. destruct Ef as (_ & Hback).
    destruct (JsMap.get byId (predecessorId dep)) as [p|]; [eauto | discriminate].
  - exfalso. apply (find_none _ _ Ef) in Hda. rewrite Eda, Hb in Hda.
    cbn [dependsBack] in Hda.
    assert (Ht : existsb (fun pDep => String.eqb (predecessorId pDep) (id a))
                   (dependencies b) = true).
    { apply existsb_exists. exists db. split; [exact Hdb|].
      rewrite Edb. apply String.eqb_refl. }
    congruence.
Qed.

Lemma findDirectCycle_Some byId tasks a x y :
  In a tasks -> directCycleOf byId a = Some (DirectCycle x y) ->
  exists x' y', findDirectCycle byId tasks = Some (DirectCycle x' y').
Proof.
  intros Hin Ha. induction tasks as [|t ts IH]; [contradiction|].
  cbn [findDirectCycle]. destruct (directCycleOf byId t) as [e|] eqn:Et.
  - unfold directCycleOf in Et.
    destruct (find _ (dependencies t)); [|discriminate].
    destruct (JsMap.get byId _); [|discriminate]. injection Et as <-. eauto.
  - destruct Hin as [->|Hin]; [congruence | now apply IH].
Qed.

(** C1: if two tasks of a task set with distinct ids depend on each other
    (or a task on itself), [runSimulation] stops with a direct-cycle error
    before the engine is entered: the generator and the count of executed
    trials are as before, for every [numRuns]. *)
Theorem direct_cycle_rejected_before_any_trial tasks numRuns st w a b da db :
  NoDup (map id tasks) ->
  In a tasks -> In b tasks ->
  In da (dependencies a) -> predecessorId da = id b ->
  In db (dependencies b) -> predecessorId db = id a ->
  exists x y,
    runSimulation RNG uniform normal sqrt exp Analysis analyse tasks numRuns st w
    = (setError st (DirectCycle x y), w).
Proof.
  intros Hnd Ha Hb Hda Eda Hdb Edb.
  destruct (directCycleOf_Some (tasksById tasks) a b da db
              (get_tasksById tasks b Hnd Hb) Hda Eda Hdb Edb) as (x & y & Hxy).
  destruct (findDirectCycle_Some (tasksById tasks) tasks a x y Ha Hxy)
    as (x' & y' & Hfind).
  exists x', y'. unfold runSimulation. rewrite Hfind.
  destruct tasks; [contradiction | reflexivity].
Qed.

(** Entered on such a task set, the engine would make all its trials and
    find no valid one. *)
Lemma engine_alone_repeats_the_check numRuns w :
  trialsExecuted (snd (loop cyclicTasks numRuns (initialAccumulators cyclicTasks, w)))
  = (trialsExecuted w + numRuns)%nat
  /\ simulationRuns (fst (loop cyclicTasks numRuns (initialAccumulators cyclicTasks, w)))
     = [].
Proof.
  split.
  - apply (simulationLoop_invariant cyclicTasks numRuns _ w).
    + repeat constructor; simpl; intuition discriminate.
    + apply initialAccumulators_consistent.
  - rewrite simulationLoop_rejected; [reflexivity | apply initialAccumulators_consistent |].
    intros d. apply (calculateCPM_None_any cyclicTasks []). reflexivity.
Qed.
End EngineProperties.

Lemma NoDup_chain_ids : NoDup (map id chainTasks).
Proof. repeat constructor; simpl; intuition discriminate. Defined.

Lemma NoDup_cyclic_ids : NoDup (map id cyclicTasks).
Proof. repeat constructor; simpl; intuition discriminate. Defined.

(** The mutually dependent pair is rejected whatever the number of runs. *)
Lemma direct_cycle_rejected_before_any_trial_witness :
  exists x y,
    runSimulation unit halves zeros sameNumber sameNumber unit noAnalysis
      cyclicTasks 500 startState startWorld
    = (setError startState (DirectCycle x y), startWorld).
Proof.
  apply (direct_cycle_rejected_before_any_trial unit halves zeros
           sameNumber sameNumber unit noAnalysis cyclicTasks 500 startState startWorld
           (fixedTask "A" 5 [dependsOn "B" FS 0]) (fixedTask "B" 3 [dependsOn "A" FS 0])
           (dependsOn "B" FS 0) (dependsOn "A" FS 0)).
  - exact NoDup_cyclic_ids.
  - left; reflexivity.
  - right; left; reflexivity.
  - left; reflexivity.
  - reflexivity.
  - left; reflexivity.
  - reflexivity.
Defined.

(** Seven runs of the chain: the seven trials are valid, and every task
    has seven duration samples, its fixed duration each time. *)
Lemma sample_sequences_match_valid_runs_witness :
  List.length (validTrials unit halves zeros sameNumber sameNumber chainTasks 7 tt)
  = 7%nat /\
  out_taskDurationSamples
    (fst (runMonteCarloSimulation unit halves zeros sameNumber sameNumber
            unit noAnalysis chainTasks 7 startWorld))
  = [[5; 5; 5; 5; 5; 5; 5]; [3; 3; 3; 3; 3; 3; 3]; [4; 4; 4; 4; 4; 4; 4]].
Proof.
  split; [reflexivity|].
  rewrite (proj1 (proj1 (proj2 (proj2 (proj2 (proj2 (proj2 (proj2
    (sample_sequences_match_valid_runs unit halves zeros sameNumber
       sameNumber unit noAnalysis chainTasks 7 startWorld NoDup_chain_ids)))))))
    ltac:(vm_compute; discriminate))).
  reflexivity.
Defined.

(** The data model makes task ids unique, and the timing sequences depend
    on it: two tasks under one id would share them, and one valid run
    would append two entries. *)
Lemma twins_share_their_timings :
  exists samples,
    List.length
      (out_simulationRuns
         (fst (runMonteCarloSimulation unit halves zeros sameNumber sameNumber
                 unit noAnalysis twinTasks 1 startWorld))) = 1%nat /\
    JsMap.get
      (out_allTaskTimings
         (fst (runMonteCarloSimulation unit halves zeros sameNumber sameNumber
                 unit noAnalysis twinTasks 1 startWorld))) "T" = Some samples /\
    List.length (starts samples) = 2%nat.
Proof. eexists. vm_compute. repeat split. Qed.

(** The mutually dependent pair, entered directly into the engine. *)
Lemma no_valid_trial_gives_empty_output_witness :
  out_analysis
    (fst (runMonteCarloSimulation unit halves zeros sameNumber sameNumber
            unit noAnalysis cyclicTasks 500 startWorld)) = None.
Proof.
  rewrite (proj1 (no_valid_trial_gives_empty_output unit halves zeros
                    sameNumber sameNumber unit noAnalysis cyclicTasks 500 startWorld));
    [reflexivity|].
  right. exact cyclic_pair_has_cycle.
Defined.

(** ** Percentiles *)













(** ** The samplers, the correlation and the scheduler in doubles *)

Module DoubleFacts.
Import Floats.
Local Open Scope float_scope.

(** *** The order of the doubles *)






(** *** The PERT sampler *)


Section PertProperties.
Variable RNG : Type.
Variable uniform : RNG -> float * RNG.
Variable random : RNG -> float * RNG.
Variable pow : float -> float -> float.

End PertProperties.


(** *** Pearson correlation *)




(** *** Infinite durations in the scheduler *)



End DoubleFacts.

(** * Further properties *)

(** ** The backward pass *)

Lemma backwardStep_other taskMap g total st i k :
  k <> i ->
  JsMap.get (fst (backwardStep taskMap g total st i)) k = JsMap.get (fst st) k /\
  JsMap.get (snd (backwardStep taskMap g total st i)) k = JsMap.get (snd st) k.
Proof.
  intros Hne. unfold backwardStep. destruct (String.eqb i "END"); [tauto|].
  cbn [fst snd]. now rewrite !get_set_other.
Qed.

Lemma backwardSteps_other taskMap g total l st k :
  ~ In k l ->
  JsMap.get (fst (fold_left (backwardStep taskMap g total) l st)) k = JsMap.get (fst st) k /\
  JsMap.get (snd (fold_left (backwardStep taskMap g total) l st)) k = JsMap.get (snd st) k.
Proof.
  revert st. induction l as [|j l IH]; intros st Hk; [tauto|]. cbn [fold_left].
  destruct (IH (backwardStep taskMap g total st j)) as (H1 & H2);
    [intros H; apply Hk; now right|].
  destruct (backwardStep_other taskMap g total st j k) as (H3 & H4);
    [intros ->; apply Hk; now left|].
  now rewrite H1, H2, H3, H4.
Qed.

(** The backward pass never writes the entries of END. *)
Lemma backwardSteps_END taskMap g total l st :
  JsMap.get (fst (fold_left (backwardStep taskMap g total) l st)) "END"
  = JsMap.get (fst st) "END" /\
  JsMap.get (snd (fold_left (backwardStep taskMap g total) l st)) "END"
  = JsMap.get (snd st) "END".
Proof.
  revert st. induction l as [|j l IH]; intros st; [tauto|]. cbn [fold_left].
  destruct (IH (backwardStep taskMap g total st j)) as (-> & ->).
  destruct (String.eqb_spec j "END") as [E|Hne].
  - subst j. unfold backwardStep. cbn [String.eqb Ascii.eqb Bool.eqb]. tauto.
  - apply backwardStep_other. intros E. now apply Hne.
Qed.

(** The latest finish of [i] reads the tables at the successors of [i]
    only. *)
Lemma latestFinishOf_ext taskMap g total ls1 lf1 ls2 lf2 i :
  (forall j, In j (getList (adj g) i) ->
     JsMap.get ls1 j = JsMap.get ls2 j /\ JsMap.get lf1 j = JsMap.get lf2 j) ->
  latestFinishOf taskMap g total ls1 lf1 i = latestFinishOf taskMap g total ls2 lf2 i.
Proof.
  intros H. unfold latestFinishOf. apply fold_left_ext_in.
  intros j Hj a. unfold finishDueTo, getOr. destruct (H j Hj) as (-> & ->). reflexivity.
Qed.

Lemma backwardPass_final taskMap g total (order : list string) st0 i :
  NoDup order ->
  (forall j, In j (getList (adj g) i) -> precedes order j i) ->
  In i order -> i <> "END" ->
  let final := fold_left (backwardStep taskMap g total) order st0 in
  JsMap.get (snd final) i
  = Some (latestFinishOf taskMap g total (fst final) (snd final) i) /\
  JsMap.get (fst final) i
  = Some (latestFinishOf taskMap g total (fst final) (snd final) i
          - backwardDuration taskMap i).
Proof.
  intros Hnd Hsucc Hi Hend final.
  destruct (in_split _ _ Hi) as (l1 & l2 & E).
  assert (Hi2 : ~ In i l2).
  { rewrite E in Hnd. apply NoDup_remove_2 in Hnd. intros H. apply Hnd, in_or_app. now right. }
  assert (Hs : forall j, In j (getList (adj g) i) -> j <> i /\ ~ In j l2).
  { intros j Hj. destruct (Hsucc j Hj) as (a & b & E' & Hja).
    assert (Ea : l1 = a).
    { apply (NoDup_split_unique l1 l2 a b i); [now rewrite <- E | now rewrite <- E]. }
    subst a. rewrite E in Hnd. split.
    - intros ->. apply NoDup_remove_2 in Hnd. apply Hnd, in_or_app. now left.
    - intros Hj2. apply NoDup_remove_1 in Hnd.
      exact (NoDup_app_disjoint _ _ Hnd j Hja Hj2). }
  set (st1 := fold_left (backwardStep taskMap g total) l1 st0).
  assert (Efinal : final = fold_left (backwardStep taskMap g total) l2
                             (backwardStep taskMap g total st1 i)).
  { unfold final. rewrite E, fold_left_app. reflexivity. }
  assert (Elf : latestFinishOf taskMap g total (fst final) (snd final) i
                = latestFinishOf taskMap g total (fst st1) (snd st1) i).
  { apply latestFinishOf_ext. intros j Hj. destruct (Hs j Hj) as (Hne & Hj2).
    rewrite Efinal.
    destruct (backwardSteps_other taskMap g total l2 (backwardStep taskMap g total st1 i)
                j Hj2) as (-> & ->).
    apply backwardStep_other, Hne. }
  rewrite Elf, Efinal.
  destruct (backwardSteps_other taskMap g total l2 (backwardStep taskMap g total st1 i)
              i Hi2) as (-> & ->).
  unfold backwardStep. apply String.eqb_neq in Hend. rewrite Hend. cbn [fst snd].
  now rewrite !get_set_same.
Qed.

(** In the reversed topological order every successor comes first. *)
Lemma successors_first_in_reverse (adj : Adjacency) (order : list string) (u v : string) :
  topologicallyOrdered adj order -> In v order -> In v (getList adj u) ->
  precedes (rev order) v u.
Proof.
  intros Htop Hv Huv. destruct (in_split _ _ Hv) as (l1 & l2 & E).
  pose proof (Htop l1 v l2 E u Huv) as Hu.
  destruct (in_split _ _ Hu) as (a & b & ->).
  exists (rev (b ++ v :: l2)), (rev a). split.
  - rewrite E, <- app_assoc. cbn [app]. rewrite rev_app_distr. cbn [rev].
    now rewrite <- app_assoc.
  - rewrite <- in_rev. apply in_or_app. right. now left.
Qed.

Lemma fold_Qmin_lower {A} (f : A -> Q) (l : list A) (a : Q) :
  forall i, In i l -> fold_left (fun acc i => Qmin acc (f i)) l a <= f i.
Proof.
  revert a. induction l as [|x l IH]; intros a i Hi; [contradiction|]. cbn [fold_left].
  destruct Hi as [->|Hi]; [|now apply IH].
  eapply Qle_trans; [apply fold_Qmin_le | apply Q.le_min_r].
Qed.

Lemma fold_Qmin_attained {A} (f : A -> Q) (l : list A) (a : Q) :
  fold_left (fun acc i => Qmin acc (f i)) l a == a
  \/ exists i, In i l /\ fold_left (fun acc i => Qmin acc (f i)) l a == f i.
Proof.
  revert a. induction l as [|x l IH]; intros a; cbn [fold_left]; [left; reflexivity|].
  destruct (IH (Qmin a (f x))) as [E|(i & Hi & E)].
  - destruct (Q.min_spec a (f x)) as [(_ & Em)|(_ & Em)].
    + left. now rewrite E.
    + right. exists x. split; [now left|]. now rewrite E.
  - right. exists i. split; [now right | exact E].
Qed.

(** X1: the backward pass.  For every acyclic task set, with finite
    durations and lags, the scheduler returns; the latest start and the
    latest finish of END are the project finish; every other node [i] has
    latestFinish(i) = min(project finish, min over its successors [j] of the
    required finish), the required finish being, by the type and the lag of
    the first dependency of [j] that names [i] (finish-to-start without lag
    when there is none; a later dependency of [j] on the same [i] is not
    read):
    FS: latestStart(j) - lag, SS: latestStart(j) - lag + d_i,
    FF: latestFinish(j) - lag, SF: latestFinish(j) - lag + d_i,
    taken at the final times of [j]; so no latest finish exceeds the project
    finish; and latestStart(i) = latestFinish(i) - d_i, where d_i is the
    sampled duration clamped at 0 (0 for START). *)
Theorem latest_finish_is_capped_minimum tasks runDurations :
  acyclic (adj (buildGraph tasks)) ->
  exists s,
    schedule tasks runDurations = Some s /\
    JsMap.get (ls s) "END" = Some (projectFinish s) /\
    JsMap.get (lf s) "END" = Some (projectFinish s) /\
    forall i, In i (nodes s) -> i <> "END" ->
      let taskMap := buildTaskMap tasks runDurations in
      let succs := getList (adj (graph s)) i in
      let d_i := backwardDuration taskMap i in
      let required := fun j =>
        let dependency := findDependency (JsMap.get taskMap j) i in
        match depTypeOf dependency with
        | FS => getOr (ls s) j (projectFinish s) - lagOf dependency
        | SS => getOr (ls s) j (projectFinish s) - lagOf dependency + d_i
        | FF => getOr (lf s) j (projectFinish s) - lagOf dependency
        | SF => getOr (lf s) j (projectFinish s) - lagOf dependency + d_i
        end in
      exists lfI,
        JsMap.get (lf s) i = Some lfI /\
        JsMap.get (ls s) i = Some (lfI - d_i) /\
        lfI = fold_left (fun latestFinishI j => Qmin latestFinishI (required j)) succs
                (projectFinish s) /\
        lfI <= projectFinish s /\
        (forall j, In j succs -> lfI <= required j) /\
        (lfI == projectFinish s \/ exists j, In j succs /\ lfI == required j).
Proof.
  intros Hacyclic.
  destruct (proj2 (schedule_iff_acyclic tasks runDurations) Hacyclic) as (s & Hs).
  exists s. split; [exact Hs|].
  destruct (schedule_Some _ _ _ Hs) as (Hn & Hg & _ & _ & _ & _ & Hbw).
  destruct (schedule_order _ _ _ Hs) as (Hnd & Htop & Hcover).
  pose proof (buildGraph_invariant tasks) as (_ & _ & _ & Hnodes).
  rewrite <- Hg, <- Hn in Hnodes.
  set (taskMap := buildTaskMap tasks runDurations) in *.
  assert (E1 : fst (backwardPass taskMap (graph s) (nodes s) (topoOrder s) (projectFinish s))
               = ls s) by now rewrite <- Hbw.
  assert (E2 : snd (backwardPass taskMap (graph s) (nodes s) (topoOrder s) (projectFinish s))
               = lf s) by now rewrite <- Hbw.
  assert (Hend : JsMap.get (ls s) "END" = Some (projectFinish s) /\
                 JsMap.get (lf s) "END" = Some (projectFinish s)).
  { rewrite <- E1, <- E2. unfold backwardPass.
    destruct (backwardSteps_END taskMap (graph s) (projectFinish s) (rev (topoOrder s))
                (JsMap.set (initTimes (nodes s) (projectFinish s)) "END" (projectFinish s),
                 JsMap.set (initTimes (nodes s) (projectFinish s)) "END" (projectFinish s)))
      as (-> & ->).
    cbn [fst snd]. now rewrite get_set_same. }
  split; [apply Hend|]. split; [apply Hend|].
  intros i Hi Hne tm succs d_i required.
  assert (Hrev : NoDup (rev (topoOrder s))) by now apply NoDup_rev.
  pose proof (backwardPass_final taskMap (graph s) (projectFinish s) (rev (topoOrder s))
                (JsMap.set (initTimes (nodes s) (projectFinish s)) "END" (projectFinish s),
                 JsMap.set (initTimes (nodes s) (projectFinish s)) "END" (projectFinish s))
                i Hrev) as Hfinal.
  cbv zeta in Hfinal.
  fold (backwardPass taskMap (graph s) (nodes s) (topoOrder s) (projectFinish s)) in Hfinal.
  rewrite E1, E2 in Hfinal.
  destruct Hfinal as (Hlf & Hls).
  - intros j Hj. apply (successors_first_in_reverse (adj (graph s))); [exact Htop | | exact Hj].
    apply Hcover. now apply (Hnodes i).
  - rewrite <- in_rev. now apply Hcover.
  - exact Hne.
  - assert (Efold : latestFinishOf taskMap (graph s) (projectFinish s) (ls s) (lf s) i
                    = fold_left (fun latestFinishI j => Qmin latestFinishI (required j))
                        succs (projectFinish s)).
    { unfold latestFinishOf. apply fold_left_ext_in. intros j _ a.
      unfold finishDueTo, requiredFinish, required. reflexivity. }
    exists (latestFinishOf taskMap (graph s) (projectFinish s) (ls s) (lf s) i).
    split; [exact Hlf|]. split; [exact Hls|]. split; [exact Efold|].
    rewrite Efold. split; [apply fold_Qmin_le|].
    split; [apply fold_Qmin_lower | apply fold_Qmin_attained].
Qed.

(** ** The edges of the graph *)

Lemma existsb_eqb_In (k : string) (l : list string) :
  existsb (String.eqb k) l = true <-> In k l.
Proof. exact (JsSetFacts.has_In l k). Qed.

Lemma initGraph_keysOf (tasks : list Task) : keysOf tasks (initGraph tasks).
Proof.
  unfold initGraph.
  set (step := fun (g : Graph) (t : Task) =>
                 {| adj := JsMap.set (adj g) (id t) [];
                    revAdj := JsMap.set (revAdj g) (id t) [] |}).
  assert (G : forall l g,
             (forall k, JsMap.has (adj (fold_left step l g)) k
                        = JsMap.has (adj g) k || existsb (String.eqb k) (map id l)) /\
             (forall k, JsMap.has (revAdj (fold_left step l g)) k
                        = JsMap.has (revAdj g) k || existsb (String.eqb k) (map id l))).
  { induction l as [|t l IH]; intros g; cbn [fold_left existsb map].
    - split; intros k; now rewrite orb_false_r.
    - destruct (IH (step g t)) as (Ha & Hr). split; intros k.
      + rewrite Ha. unfold step. cbn [adj]. rewrite has_set.
        now destruct (String.eqb k (id t)), (JsMap.has (adj g) k).
      + rewrite Hr. unfold step. cbn [revAdj]. rewrite has_set.
        now destruct (String.eqb k (id t)), (JsMap.has (revAdj g) k). }
  destruct (G tasks {| adj := JsMap.empty; revAdj := JsMap.empty |}) as (Ha & Hr).
  split; intros k; cbn [adj revAdj]; rewrite has_set; [rewrite Ha | rewrite Hr];
    reflexivity.
Qed.

Lemma initGraph_lists (tasks : list Task) (k : string) :
  getList (adj (initGraph tasks)) k = [] /\ getList (revAdj (initGraph tasks)) k = [].
Proof.
  unfold initGraph.
  set (step := fun (g : Graph) (t : Task) =>
                 {| adj := JsMap.set (adj g) (id t) [];
                    revAdj := JsMap.set (revAdj g) (id t) [] |}).
  assert (G : forall l g,
             ((forall u, getList (adj g) u = []) /\ (forall u, getList (revAdj g) u = [])) ->
             (forall u, getList (adj (fold_left step l g)) u = []) /\
             (forall u, getList (revAdj (fold_left step l g)) u = [])).
  { induction l as [|t l IH]; intros g Hg; [exact Hg|].
    cbn [fold_left]. apply IH. destruct Hg as (Ha & Hr). unfold step. cbn [adj revAdj].
    split; intros u; unfold getList; rewrite get_set;
      destruct (String.eqb u (id t)); try reflexivity; [apply Ha | apply Hr]. }
  destruct (G tasks {| adj := JsMap.empty; revAdj := JsMap.empty |}) as (Ha & Hr).
  { split; reflexivity. }
  cbn [adj revAdj]. unfold getList. rewrite !get_set.
  split.
  - destruct (String.eqb k "START"); [reflexivity | apply Ha].
  - destruct (String.eqb k "END"); [reflexivity | apply Hr].
Qed.

Lemma addEdge_keysOf tasks g from to : keysOf tasks g -> keysOf tasks (addEdge g from to).
Proof.
  intros (Ha & Hr). split; intros k.
  - rewrite (proj1 (addEdge_keys g from to k)). apply Ha.
  - rewrite (proj1 (proj2 (addEdge_keys g from to k))). apply Hr.
Qed.

Lemma addDependencies_keysOf tasks tid deps g :
  keysOf tasks g -> keysOf tasks (fold_left (addDependency tid) deps g).
Proof.
  revert g. induction deps as [|d deps IH]; intros g Hg; [exact Hg|]. cbn [fold_left].
  apply IH. unfold addDependency. destruct (_ && _); [now apply addEdge_keysOf | exact Hg].
Qed.

Lemma addTaskEdges_keysOf tasks g t : keysOf tasks g -> keysOf tasks (addTaskEdges g t).
Proof.
  intros Hg. unfold addTaskEdges. destruct (dependencies t) as [|d deps].
  - now apply addEdge_keysOf.
  - destruct (_ =? 0)%nat; [apply addEdge_keysOf|]; now apply addDependencies_keysOf.
Qed.

Lemma linkToEnd_keysOf tasks g t : keysOf tasks g -> keysOf tasks (linkToEnd g t).
Proof.
  intros Hg. unfold linkToEnd.
  destruct (JsMap.get (adj g) (id t)) as [[|? ?]|]; try exact Hg. now apply addEdge_keysOf.
Qed.

Lemma keysOf_task tasks g t :
  keysOf tasks g -> In t tasks ->
  JsMap.has (adj g) (id t) = true /\ JsMap.has (revAdj g) (id t) = true.
Proof.
  intros (Ha & Hr) Ht.
  assert (E : existsb (String.eqb (id t)) (map id tasks) = true)
    by (apply existsb_eqb_In; now apply in_map).
  now rewrite Ha, Hr, E, !orb_true_r.
Qed.

(** The two lists that [addEdge] extends. *)
Lemma addEdge_lists g from to :
  JsMap.has (adj g) from = true -> JsMap.has (revAdj g) to = true ->
  (forall k, getList (adj (addEdge g from to)) k
             = if String.eqb k from then getList (adj g) k ++ [to] else getList (adj g) k) /\
  (forall k, getList (revAdj (addEdge g from to)) k
             = if String.eqb k to then getList (revAdj g) k ++ [from]
               else getList (revAdj g) k).
Proof.
  intros Hf Ht. unfold addEdge. cbn [adj revAdj]. split; intros k; rewrite getList_push.
  - rewrite Hf, andb_true_r. destruct (String.eqb_spec k from) as [E|_]; [now subst|reflexivity].
  - rewrite Ht, andb_true_r. destruct (String.eqb_spec k to) as [E|_]; [now subst|reflexivity].
Qed.

Lemma addEdge_mirrored g from to :
  JsMap.has (adj g) from = true -> JsMap.has (revAdj g) to = true ->
  mirrored g -> mirrored (addEdge g from to).
Proof.
  intros Hf Ht Hm u v. destruct (addEdge_lists g from to Hf Ht) as (Ea & Er).
  rewrite Ea, Er. specialize (Hm u v).
  destruct (String.eqb_spec u from) as [Eu|Hu], (String.eqb_spec v to) as [Ev|Hv];
    rewrite ?in_app_iff; cbn [In]; subst; intuition congruence.
Qed.

Lemma addDependency_known tasks g tid dep :
  keysOf tasks g ->
  addDependency tid g dep
  = if isKnown tasks (predecessorId dep) then addEdge g (predecessorId dep) tid else g.
Proof. intros (Ha & _). unfold addDependency, isKnown. now rewrite Ha. Qed.

Lemma isKnown_has tasks g p :
  keysOf tasks g -> isKnown tasks p = true -> JsMap.has (adj g) p = true.
Proof.
  intros (Ha & _) H. unfold isKnown in H. apply andb_true_iff in H. rewrite Ha. apply H.
Qed.

(** What the dependencies of one task add to the graph. *)
Lemma addDependencies_spec tasks tid deps g :
  keysOf tasks g -> JsMap.has (revAdj g) tid = true -> mirrored g ->
  let g' := fold_left (addDependency tid) deps g in
  mirrored g' /\
  getList (revAdj g') tid
  = getList (revAdj g) tid ++ filter (isKnown tasks) (map predecessorId deps) /\
  (forall k, k <> tid -> getList (revAdj g') k = getList (revAdj g) k).
Proof.
  revert g. induction deps as [|d deps IH]; intros g Hk Ht Hm; cbn [fold_left map filter].
  - split; [exact Hm|]. split; [now rewrite app_nil_r | reflexivity].
  - rewrite (addDependency_known tasks g tid d Hk).
    destruct (isKnown tasks (predecessorId d)) eqn:E.
    + pose proof (isKnown_has tasks g _ Hk E) as Hp.
      destruct (addEdge_lists g (predecessorId d) tid Hp Ht) as (_ & Er).
      destruct (IH (addEdge g (predecessorId d) tid)) as (Hm' & Hl & Ho).
      * now apply addEdge_keysOf.
      * now rewrite (proj1 (proj2 (addEdge_keys g (predecessorId d) tid tid))).
      * now apply addEdge_mirrored.
      * split; [exact Hm'|]. split.
        -- rewrite Hl, Er, String.eqb_refl, <- app_assoc. reflexivity.
        -- intros k Hne. rewrite (Ho k Hne), Er.
           apply String.eqb_neq in Hne. now rewrite Hne.
    + now apply IH.
Qed.

Lemma keysOf_START tasks g : keysOf tasks g -> JsMap.has (adj g) "START" = true.
Proof. intros (Ha & _). now rewrite Ha. Qed.

Lemma keysOf_END tasks g : keysOf tasks g -> JsMap.has (revAdj g) "END" = true.
Proof. intros (_ & Hr). now rewrite Hr. Qed.

(** What one task adds to the graph. *)
Lemma addTaskEdges_spec tasks g t :
  keysOf tasks g -> In t tasks -> mirrored g -> getList (revAdj g) (id t) = [] ->
  mirrored (addTaskEdges g t) /\
  getList (revAdj (addTaskEdges g t)) (id t) = incomingOf tasks t /\
  (forall k, k <> id t -> getList (revAdj (addTaskEdges g t)) k = getList (revAdj g) k).
Proof.
  intros Hk Ht Hm He.
  destruct (keysOf_task tasks g t Hk Ht) as (_ & Hrev).
  pose proof (addDependencies_spec tasks (id t) (dependencies t) g Hk Hrev Hm) as Hd.
  cbv zeta in Hd. destruct Hd as (Hm' & Hl & Ho). rewrite He in Hl. cbn [app] in Hl.
  fold (knownPredecessors tasks t) in Hl.
  set (g' := fold_left (addDependency (id t)) (dependencies t) g) in *.
  assert (Hk' : keysOf tasks g') by now apply addDependencies_keysOf.
  destruct (keysOf_task tasks g' t Hk' Ht) as (_ & Hrev').
  destruct (addEdge_lists g' "START" (id t) (keysOf_START tasks g' Hk') Hrev') as (_ & Er).
  assert (Hstart : mirrored (addEdge g' "START" (id t)) /\
                   getList (revAdj (addEdge g' "START" (id t))) (id t)
                   = knownPredecessors tasks t ++ ["START"] /\
                   (forall k, k <> id t ->
                      getList (revAdj (addEdge g' "START" (id t))) k = getList (revAdj g) k)).
  { split; [apply addEdge_mirrored; [apply (keysOf_START tasks g' Hk') | exact Hrev' | exact Hm']|].
    split.
    - now rewrite Er, String.eqb_refl, Hl.
    - intros k Hne. rewrite Er, (Ho k Hne). apply String.eqb_neq in Hne. now rewrite Hne. }
  unfold addTaskEdges, incomingOf.
  destruct (dependencies t) as [|d deps] eqn:Edeps.
  - unfold g' in Hstart. cbn [fold_left] in Hstart.
    unfold knownPredecessors in *. rewrite Edeps in *. cbn [map filter List.length] in *.
    exact Hstart.
  - fold g'. rewrite Hl.
    destruct (_ =? 0)%nat; [exact Hstart|]. split; [exact Hm'|]. split; [exact Hl | exact Ho].
Qed.

Lemma addTaskEdges_fold_spec tasks (l : list Task) g :
  NoDup (map id l) -> incl l tasks -> keysOf tasks g -> mirrored g ->
  (forall t, In t l -> getList (revAdj g) (id t) = []) ->
  let g' := fold_left addTaskEdges l g in
  keysOf tasks g' /\ mirrored g' /\
  (forall t, In t l -> getList (revAdj g') (id t) = incomingOf tasks t) /\
  (forall k, ~ In k (map id l) -> getList (revAdj g') k = getList (revAdj g) k).
Proof.
  revert g. induction l as [|t l IH]; intros g Hnd Hincl Hk Hm He; cbn [fold_left].
  - split; [exact Hk|]. split; [exact Hm|]. split; [intros t []| reflexivity].
  - cbn [map] in Hnd. inversion Hnd as [|? ? Hnot Hnd']; subst.
    assert (Ht : In t tasks) by (apply Hincl; now left).
    destruct (addTaskEdges_spec tasks g t Hk Ht Hm (He t (or_introl eq_refl)))
      as (Hm1 & Hl1 & Ho1).
    destruct (IH (addTaskEdges g t)) as (Hk' & Hm' & Hl' & Ho'); try assumption.
    + intros x Hx. apply Hincl. now right.
    + now apply addTaskEdges_keysOf.
    + intros t' Ht'. rewrite Ho1; [apply He; now right|].
      intros E. apply Hnot. rewrite <- E. now apply in_map.
    + split; [exact Hk'|]. split; [exact Hm'|]. split.
      * intros t' [<-|Ht']; [|now apply Hl']. rewrite Ho'; [exact Hl1 | exact Hnot].
      * intros k Hnk. cbn [map In] in Hnk. rewrite Ho'; [|tauto]. apply Ho1.
        intros ->. apply Hnk. now left.
Qed.


(** What [linkToEnd] adds to the graph. *)
Lemma linkToEnd_spec tasks g t :
  keysOf tasks g -> In t tasks -> mirrored g ->
  mirrored (linkToEnd g t) /\
  (forall k, getList (revAdj (linkToEnd g t)) k
             = if String.eqb k "END" && isEmpty (getList (adj g) (id t))
               then getList (revAdj g) k ++ [id t] else getList (revAdj g) k) /\
  (forall k, k <> id t -> getList (adj (linkToEnd g t)) k = getList (adj g) k).
Proof.
  intros Hk Ht Hm. destruct (keysOf_task tasks g t Hk Ht) as (Hadj & _).
  unfold linkToEnd, getList at 2. apply has_true in Hadj. destruct Hadj as (l & El).
  rewrite El. destruct l as [|x l]; cbn [isEmpty].
  - assert (Hadj : JsMap.has (adj g) (id t) = true) by (apply has_true; eauto).
    destruct (addEdge_lists g (id t) "END" Hadj (keysOf_END tasks g Hk)) as (Ea & Er).
    split; [apply addEdge_mirrored; [exact Hadj | exact (keysOf_END tasks g Hk) | exact Hm]|].
    split.
    + intros k. rewrite Er, andb_true_r. reflexivity.
    + intros k Hne. rewrite Ea. apply String.eqb_neq in Hne. now rewrite Hne.
  - split; [exact Hm|]. split; [|reflexivity]. intros k. now rewrite andb_false_r.
Qed.

Lemma linkToEnd_fold_spec tasks (l : list Task) g :
  NoDup (map id l) -> incl l tasks -> keysOf tasks g -> mirrored g ->
  let g' := fold_left linkToEnd l g in
  mirrored g' /\
  (forall k, k <> "END" -> getList (revAdj g') k = getList (revAdj g) k) /\
  getList (revAdj g') "END"
  = getList (revAdj g) "END"
    ++ map id (filter (fun t => isEmpty (getList (adj g) (id t))) l) /\
  (forall k, ~ In k (map id l) -> getList (adj g') k = getList (adj g) k).
Proof.
  revert g. induction l as [|t l IH]; intros g Hnd Hincl Hk Hm; cbn [fold_left].
  - split; [exact Hm|]. split; [reflexivity|]. split; [|reflexivity].
    cbn [filter map]. now rewrite app_nil_r.
  - cbn [map] in Hnd. inversion Hnd as [|? ? Hnot Hnd']; subst.
    assert (Ht : In t tasks) by (apply Hincl; now left).
    destruct (linkToEnd_spec tasks g t Hk Ht Hm) as (Hm1 & Hr1 & Ha1).
    destruct (IH (linkToEnd g t)) as (Hm' & Hr' & He' & Ha'); try assumption.
    + intros x Hx. apply Hincl. now right.
    + now apply linkToEnd_keysOf.
    + split; [exact Hm'|]. split; [|split].
      * intros k Hne. rewrite (Hr' k Hne), Hr1. apply String.eqb_neq in Hne.
        now rewrite Hne.
      * rewrite He', Hr1. cbn [String.eqb Ascii.eqb Bool.eqb andb filter].
        assert (Ef : filter (fun t0 => isEmpty (getList (adj (linkToEnd g t)) (id t0))) l
                     = filter (fun t0 => isEmpty (getList (adj g) (id t0))) l).
        { apply filter_ext_in. intros t' Ht'. rewrite Ha1; [reflexivity|].
          intros E. apply Hnot. rewrite <- E. now apply in_map. }
        rewrite Ef. destruct (isEmpty (getList (adj g) (id t))); cbn [map app].
        -- now rewrite <- app_assoc.
        -- reflexivity.
      * intros k Hnk. cbn [map In] in Hnk. rewrite Ha'; [|tauto]. apply Ha1.
        intros ->. apply Hnk. now left.
Qed.

Lemma initGraph_mirrored tasks : mirrored (initGraph tasks).
Proof.
  intros u v. destruct (initGraph_lists tasks u) as (-> & _).
  destruct (initGraph_lists tasks v) as (_ & ->). tauto.
Qed.

Lemma In_incomingOf tasks t u :
  In u (incomingOf tasks t) -> u = "START" \/ In u (knownPredecessors tasks t).
Proof.
  unfold incomingOf. destruct (_ =? 0)%nat; [|tauto].
  rewrite in_app_iff. cbn [In]. intuition.
Qed.

Lemma knownPredecessors_incoming tasks t u :
  In u (knownPredecessors tasks t) -> In u (incomingOf tasks t).
Proof.
  unfold incomingOf. destruct (_ =? 0)%nat; [|tauto]. intros H. apply in_or_app. now left.
Qed.

(** The two stages of [buildGraph] on tasks with distinct ids. *)
Lemma buildGraph_stages tasks :
  NoDup (map id tasks) ->
  let g1 := fold_left addTaskEdges tasks (initGraph tasks) in
  mirrored g1 /\
  (forall t, In t tasks -> getList (revAdj g1) (id t) = incomingOf tasks t) /\
  (forall k, ~ In k (map id tasks) -> getList (revAdj g1) k = []) /\
  (forall k, k <> "END" -> getList (revAdj (buildGraph tasks)) k = getList (revAdj g1) k) /\
  getList (revAdj (buildGraph tasks)) "END"
  = getList (revAdj g1) "END"
    ++ map id (filter (fun t => isEmpty (getList (adj g1) (id t))) tasks).
Proof.
  intros Hnd g1.
  pose proof (addTaskEdges_fold_spec tasks tasks (initGraph tasks) Hnd (incl_refl _)
                (initGraph_keysOf tasks) (initGraph_mirrored tasks)
                (fun t _ => proj2 (initGraph_lists tasks (id t)))) as H1.
  cbv zeta in H1. fold g1 in H1. destruct H1 as (Hk1 & Hm1 & Hin1 & Hout1).
  pose proof (linkToEnd_fold_spec tasks tasks g1 Hnd (incl_refl _) Hk1 Hm1) as H2.
  cbv zeta in H2. destruct H2 as (_ & Hr2 & He2 & _).
  split; [exact Hm1|]. split; [exact Hin1|]. split; [|split; [exact Hr2 | exact He2]].
  intros k Hk. rewrite (Hout1 k Hk). apply initGraph_lists.
Qed.

(** With distinct ids, none of them END, the predecessors of a task in the
    graph are those it declares and the graph knows, or START. *)
Lemma buildGraph_incoming tasks t :
  NoDup (map id tasks) -> ~ In "END" (map id tasks) -> In t tasks ->
  getList (revAdj (buildGraph tasks)) (id t) = incomingOf tasks t.
Proof.
  intros Hnd Hend Ht. destruct (buildGraph_stages tasks Hnd) as (_ & Hin & _ & Hr & _).
  rewrite Hr; [now apply Hin|]. intros E. apply Hend. rewrite <- E. now apply in_map.
Qed.

Lemma buildGraph_START tasks :
  NoDup (map id tasks) -> ~ In "START" (map id tasks) ->
  getList (revAdj (buildGraph tasks)) "START" = [].
Proof.
  intros Hnd Hstart. destruct (buildGraph_stages tasks Hnd) as (_ & _ & Hnone & Hr & _).
  rewrite Hr; [now apply Hnone | discriminate].
Qed.


(** ** The project finish *)

Lemma addTaskEdges_mirrored tasks g t :
  keysOf tasks g -> In t tasks -> mirrored g -> mirrored (addTaskEdges g t).
Proof.
  intros Hk Ht Hm. destruct (keysOf_task tasks g t Hk Ht) as (_ & Hrev).
  pose proof (addDependencies_spec tasks (id t) (dependencies t) g Hk Hrev Hm) as Hd.
  cbv zeta in Hd. destruct Hd as (Hm' & _).
  pose proof (addDependencies_keysOf tasks (id t) (dependencies t) g Hk) as Hk'.
  unfold addTaskEdges. destruct (dependencies t) as [|d deps].
  - apply addEdge_mirrored; [exact (keysOf_START tasks g Hk) | exact Hrev | exact Hm].
  - destruct (_ =? 0)%nat; [|exact Hm'].
    apply addEdge_mirrored; [exact (keysOf_START tasks _ Hk') | | exact Hm'].
    apply (keysOf_task tasks _ t Hk' Ht).
Qed.

Lemma buildGraph_mirrored tasks :
  keysOf tasks (buildGraph tasks) /\ mirrored (buildGraph tasks).
Proof.
  unfold buildGraph.
  assert (G1 : forall l g, incl l tasks -> keysOf tasks g /\ mirrored g ->
                 keysOf tasks (fold_left addTaskEdges l g) /\
                 mirrored (fold_left addTaskEdges l g)).
  { induction l as [|t l IH]; intros g Hl Hg; [exact Hg|]. cbn [fold_left].
    apply IH; [intros x Hx; apply Hl; now right|]. destruct Hg as (Hk & Hm).
    split; [now apply addTaskEdges_keysOf|].
    apply (addTaskEdges_mirrored tasks); [exact Hk | apply Hl; now left | exact Hm]. }
  assert (G2 : forall l g, incl l tasks -> keysOf tasks g /\ mirrored g ->
                 keysOf tasks (fold_left linkToEnd l g) /\
                 mirrored (fold_left linkToEnd l g)).
  { induction l as [|t l IH]; intros g Hl Hg; [exact Hg|]. cbn [fold_left].
    apply IH; [intros x Hx; apply Hl; now right|]. destruct Hg as (Hk & Hm).
    split; [now apply linkToEnd_keysOf|].
    apply (linkToEnd_spec tasks g t Hk); [apply Hl; now left | exact Hm]. }
  apply G2; [apply incl_refl|]. apply G1; [apply incl_refl|].
  split; [apply initGraph_keysOf | apply initGraph_mirrored].
Qed.

(** X2: the edges of the dependency graph.  With distinct task ids, none of
    them START or END: the predecessors of a task are, in the order of its
    declarations, the predecessors it declares that are START or the id of a
    task (an empty or unknown id adds no edge), followed by START when none
    of them is a task; the predecessors of END are the tasks that no task
    declares as a predecessor; START has no predecessor; and [adj] and
    [revAdj] hold the same edges. *)
Theorem graph_edges tasks :
  NoDup (map id tasks) -> ~ In "START" (map id tasks) -> ~ In "END" (map id tasks) ->
  let g := buildGraph tasks in
  (forall t, In t tasks -> getList (revAdj g) (id t) = incomingOf tasks t) /\
  getList (revAdj g) "END"
  = map id (filter (fun t => negb (hasSuccessor tasks t)) tasks) /\
  getList (revAdj g) "START" = [] /\
  (forall u v, In v (getList (adj g) u) <-> In u (getList (revAdj g) v)).
Proof.
  intros Hnd Hstart Hend g. unfold g. clear g.
  destruct (buildGraph_stages tasks Hnd) as (Hm1 & Hin1 & Hnone & _ & He2).
  set (g1 := fold_left addTaskEdges tasks (initGraph tasks)) in *.
  split; [|split; [|split]].
  - intros t Ht. now apply buildGraph_incoming.
  - rewrite He2, (Hnone "END" Hend). cbn [app]. f_equal. apply filter_ext_in.
    intros t Ht. destruct (getList (adj g1) (id t)) as [|v l] eqn:E; cbn [isEmpty].
    + symmetry. apply negb_true_iff. destruct (hasSuccessor tasks t) eqn:Es; [|reflexivity].
      exfalso. unfold hasSuccessor in Es. apply existsb_exists in Es.
      destruct Es as (t' & Ht' & Hin). apply existsb_eqb_In in Hin.
      apply knownPredecessors_incoming in Hin. rewrite <- (Hin1 t' Ht') in Hin.
      apply Hm1 in Hin. rewrite E in Hin. exact Hin.
    + symmetry. apply negb_false_iff. unfold hasSuccessor. apply existsb_exists.
      assert (Hv : In (id t) (getList (revAdj g1) v)) by (apply Hm1; rewrite E; now left).
      destruct (in_dec string_dec v (map id tasks)) as [Hid|Hnid];
        [|rewrite (Hnone v Hnid) in Hv; contradiction].
      apply in_map_iff in Hid. destruct Hid as (t' & <- & Ht').
      exists t'. split; [exact Ht'|]. apply existsb_eqb_In.
      rewrite (Hin1 t' Ht') in Hv. apply In_incomingOf in Hv.
      destruct Hv as [E'|Hv]; [|exact Hv].
      exfalso. apply Hstart. rewrite <- E'. now apply in_map.
  - now apply buildGraph_START.
  - apply buildGraph_mirrored.
Qed.

Lemma graph_edges_witness :
  getList (revAdj (buildGraph strayTasks)) "A" = ["START"] /\
  getList (revAdj (buildGraph strayTasks)) "B" = ["A"; "START"] /\
  getList (revAdj (buildGraph strayTasks)) "END" = ["B"].
Proof.
  assert (Hnd : NoDup (map id strayTasks)).
  { repeat constructor; simpl; intuition discriminate. }
  assert (Hs : ~ In "START" (map id strayTasks)) by (simpl; intuition discriminate).
  assert (He : ~ In "END" (map id strayTasks)) by (simpl; intuition discriminate).
  destruct (graph_edges strayTasks Hnd Hs He) as (Ht & Hend & _).
  split; [|split].
  - apply (Ht (fixedTask "A" 1 [dependsOn "ghost" FS 0])). now left.
  - apply (Ht (fixedTask "B" 2 [dependsOn "A" FS 0; dependsOn "START" FS 0])).
    right. now left.
  - exact Hend.
Defined.

Lemma In_getList_has {V} (m : JsMap.t (list V)) (k : string) (x : V) :
  In x (match JsMap.get m k with Some l => l | None => [] end) -> JsMap.has m k = true.
Proof. unfold JsMap.has. destruct (JsMap.get m k); [reflexivity | contradiction]. Qed.

(** Every edge leads to a task or to END. *)
Lemma buildGraph_successors tasks u v :
  In v (getList (adj (buildGraph tasks)) u) -> v = "END" \/ In v (map id tasks).
Proof.
  intros H. destruct (buildGraph_mirrored tasks) as ((_ & Hr) & Hm).
  apply Hm in H. apply In_getList_has in H. rewrite Hr in H.
  apply orb_true_iff in H. destruct H as [H|H].
  - left. now apply String.eqb_eq.
  - right. now apply existsb_eqb_In.
Qed.

Lemma addTaskEdges_fold_keysOf tasks (l : list Task) g :
  keysOf tasks g -> keysOf tasks (fold_left addTaskEdges l g).
Proof.
  revert g. induction l as [|t l IH]; intros g Hg; [exact Hg|]. cbn [fold_left].
  now apply IH, addTaskEdges_keysOf.
Qed.

(** [linkToEnd] empties no list of successors and leaves none of its
    tasks without one. *)
Lemma linkToEnd_fold_successors tasks (l : list Task) g :
  incl l tasks -> keysOf tasks g ->
  (forall k, getList (adj g) k <> [] -> getList (adj (fold_left linkToEnd l g)) k <> []) /\
  (forall t, In t l -> getList (adj (fold_left linkToEnd l g)) (id t) <> []).
Proof.
  revert g. induction l as [|t0 l IH]; intros g Hl Hk; cbn [fold_left].
  - split; [tauto | intros ? []].
  - assert (Ht0 : In t0 tasks) by (apply Hl; now left).
    assert (Hgrow : forall k, getList (adj g) k <> [] ->
                              getList (adj (linkToEnd g t0)) k <> []).
    { intros k Hne. unfold linkToEnd.
      destruct (JsMap.get (adj g) (id t0)) as [[|? ?]|]; try exact Hne.
      unfold addEdge. cbn [adj]. rewrite getList_push.
      destruct (_ && _); [|exact Hne]. intros E. now apply app_eq_nil in E. }
    assert (Hlink : getList (adj (linkToEnd g t0)) (id t0) <> []).
    { destruct (keysOf_task tasks g t0 Hk Ht0) as (Hadj & _).
      unfold linkToEnd. destruct (JsMap.get (adj g) (id t0)) as [[|x l0]|] eqn:E.
      - unfold addEdge. cbn [adj]. rewrite getList_push, String.eqb_refl, Hadj.
        cbn [andb]. intros E'. now apply app_eq_nil in E'.
      - unfold getList. rewrite E. discriminate.
      - unfold JsMap.has in Hadj. rewrite E in Hadj. discriminate. }
    destruct (IH (linkToEnd g t0)) as (Hg & Hin).
    + intros x Hx. apply Hl. now right.
    + now apply linkToEnd_keysOf.
    + split; [intros k Hne; now apply Hg, Hgrow|].
      intros t' [<-|Ht']; [now apply Hg | now apply Hin].
Qed.

(** Every task has a successor, END if no other. *)
Lemma task_has_successor tasks t :
  In t tasks -> getList (adj (buildGraph tasks)) (id t) <> [].
Proof.
  intros Ht. unfold buildGraph.
  apply (linkToEnd_fold_successors tasks tasks); [apply incl_refl | | exact Ht].
  apply addTaskEdges_fold_keysOf, initGraph_keysOf.
Qed.

(** The predecessors of END are tasks. *)
Lemma terminals_are_tasks tasks i :
  ~ In "END" (map id tasks) ->
  In i (getList (revAdj (buildGraph tasks)) "END") -> In i (map id tasks).
Proof.
  intros Hend. unfold buildGraph.
  set (P := fun g : Graph =>
              forall i, In i (getList (revAdj g) "END") -> In i (map id tasks)).
  assert (Hedge : forall g from to, (to = "END" -> In from (map id tasks)) ->
                    P g -> P (addEdge g from to)).
  { intros g from to Hto Hg x Hx. unfold addEdge in Hx. cbn [revAdj] in Hx.
    apply In_getList_push in Hx. destruct Hx as [Hx|(E & ->)]; [now apply Hg|].
    apply Hto. now symmetry. }
  assert (Hne : forall t, In t tasks -> id t = "END" -> In "START" (map id tasks)).
  { intros t Ht E. exfalso. apply Hend. rewrite <- E. now apply in_map. }
  assert (H1 : forall g t, In t tasks -> P g -> P (addTaskEdges g t)).
  { intros g t Ht Hg. unfold addTaskEdges.
    assert (Hdeps : forall l g', P g' -> P (fold_left (addDependency (id t)) l g')).
    { induction l as [|d l IH]; intros g' Hg'; [exact Hg'|]. cbn [fold_left]. apply IH.
      unfold addDependency. destruct (_ && _); [|exact Hg'].
      apply Hedge; [|exact Hg']. intros E. exfalso. apply Hend. rewrite <- E.
      now apply in_map. }
    destruct (dependencies t) as [|d deps]; [apply Hedge; [now apply Hne | exact Hg]|].
    destruct (_ =? 0)%nat; [apply Hedge; [now apply Hne|]|]; now apply Hdeps. }
  assert (H2 : forall g t, In t tasks -> P g -> P (linkToEnd g t)).
  { intros g t Ht Hg. unfold linkToEnd.
    destruct (JsMap.get (adj g) (id t)) as [[|? ?]|]; try exact Hg.
    apply Hedge; [|exact Hg]. intros _. now apply in_map. }
  assert (G1 : forall l g, incl l tasks -> P g -> P (fold_left addTaskEdges l g)).
  { induction l as [|t l IH]; intros g Hl Hg; [exact Hg|]. cbn [fold_left].
    apply IH; [intros x Hx; apply Hl; now right|]. apply H1; [apply Hl; now left | exact Hg]. }
  assert (G2 : forall l g, incl l tasks -> P g -> P (fold_left linkToEnd l g)).
  { induction l as [|t l IH]; intros g Hl Hg; [exact Hg|]. cbn [fold_left].
    apply IH; [intros x Hx; apply Hl; now right|]. apply H2; [apply Hl; now left | exact Hg]. }
  revert i. apply G2; [apply incl_refl|]. apply G1; [apply incl_refl|].
  intros x Hx. rewrite (proj2 (initGraph_lists tasks "END")) in Hx. contradiction.
Qed.

Lemma clos_trans_flip (R : string -> string -> Prop) (x y : string) :
  clos_trans string (fun a b => R b a) x y -> clos_trans string R y x.
Proof.
  induction 1 as [x y H|x y z _ IH1 _ IH2]; [now apply t_step|].
  eapply t_trans; eassumption.
Qed.

(** In an acyclic graph some task is linked to END. *)
Lemma some_task_is_terminal tasks :
  acyclic (adj (buildGraph tasks)) -> tasks <> [] ->
  getList (revAdj (buildGraph tasks)) "END" <> [].
Proof.
  intros Hacyclic Hne Hnil.
  destruct (buildGraph_mirrored tasks) as (_ & Hm).
  destruct (predecessors_make_cycle
              (fun a b => edgeOf (adj (buildGraph tasks)) b a) (map id tasks))
    as (x & Hx).
  - intros v Hv. apply in_map_iff in Hv. destruct Hv as (t & <- & Ht).
    pose proof (task_has_successor tasks t Ht) as Hs.
    destruct (getList (adj (buildGraph tasks)) (id t)) as [|w l] eqn:E; [congruence|].
    assert (Hw : In w (getList (adj (buildGraph tasks)) (id t))) by (rewrite E; now left).
    exists w. split; [|exact Hw].
    destruct (buildGraph_successors tasks (id t) w Hw) as [->|H]; [|exact H].
    apply Hm in Hw. rewrite Hnil in Hw. contradiction.
  - destruct tasks; [congruence | discriminate].
  - apply clos_trans_flip in Hx. exact (Hacyclic x Hx).
Qed.

(** The project finish is the earliest start of END: the largest earliest
    finish of END's predecessors, and at least 0. *)
Lemma projectFinish_spec tasks runDurations s :
  schedule tasks runDurations = Some s -> ~ In "END" (map id tasks) ->
  let terminals := getList (revAdj (graph s)) "END" in
  0 <= projectFinish s /\
  (forall i, In i terminals -> getOr (ef s) i 0 <= projectFinish s) /\
  (projectFinish s == 0 \/
   exists i, In i terminals /\ projectFinish s == getOr (ef s) i 0).
Proof.
  intros Hs Hend terminals.
  destruct (schedule_Some _ _ _ Hs) as (Hn & Hg & _ & _ & Hfw & Hpf & _).
  destruct (schedule_order _ _ _ Hs) as (Hnd & Htop & Hcover).
  pose proof (buildGraph_invariant tasks) as (_ & _ & Hmirror & _). rewrite <- Hg in Hmirror.
  set (taskMap := buildTaskMap tasks runDurations) in *.
  assert (HendNode : In "END" (topoOrder s)).
  { apply Hcover. rewrite Hn. apply In_buildNodes. auto. }
  pose proof (forwardPass_final taskMap (graph s) (topoOrder s)
                (initTimes (nodes s) 0, initTimes (nodes s) 0) "END"
                Hnd Htop Hmirror HendNode) as Hfinal.
  cbv zeta in Hfinal. fold (forwardPass taskMap (graph s) (nodes s) (topoOrder s)) in Hfinal.
  rewrite <- Hfw in Hfinal. cbn [fst snd] in Hfinal.
  destruct Hfinal as (_ & Hef); [discriminate|].
  assert (Enone : JsMap.get taskMap "END" = None).
  { unfold taskMap, buildTaskMap. now rewrite buildTaskMap_other. }
  assert (Efold : earliestStartOf taskMap (graph s) (es s) (ef s) "END"
                  = fold_left (fun acc i => Qmax acc (getOr (ef s) i 0 + 0)) terminals 0).
  { unfold earliestStartOf. apply fold_left_ext_in. intros i _ a.
    unfold startDueTo. rewrite Enone. reflexivity. }
  assert (Epf : projectFinish s
                == fold_left (fun acc i => Qmax acc (getOr (ef s) i 0 + 0)) terminals 0).
  { rewrite Hpf. unfold finishOfEnd, getOr. rewrite Hef, Efold.
    unfold forwardDuration. cbn [String.eqb Ascii.eqb Bool.eqb]. apply Qplus_0_r. }
  split; [|split].
  - rewrite Epf. apply fold_Qmax_ge.
  - intros i Hi. rewrite Epf.
    pose proof (fold_Qmax_upper (fun i => getOr (ef s) i 0 + 0) terminals 0 i Hi) as H.
    cbv beta in H. now rewrite Qplus_0_r in H.
  - destruct (fold_Qmax_attained (fun i => getOr (ef s) i 0 + 0) terminals 0)
      as [E|(i & Hi & E)].
    + left. now rewrite Epf.
    + right. exists i. split; [exact Hi|]. rewrite Epf, E. apply Qplus_0_r.
Qed.

(** Earliest finishes are never negative. *)
Lemma earliest_finish_nonneg tasks runDurations s i :
  schedule tasks runDurations = Some s -> 0 <= getOr (ef s) i 0.
Proof.
  intros Hs. destruct (schedule_Some _ _ _ Hs) as (_ & _ & _ & _ & Hfw & _).
  pose proof (forwardPass_invariant (buildTaskMap tasks runDurations) (graph s)
                (nodes s) (topoOrder s)) as (Hk & H0 & Hle).
  rewrite <- Hfw in Hk, H0, Hle. cbn [fst snd] in Hk, H0, Hle.
  unfold getOr. destruct (JsMap.get (ef s) i) as [b|] eqn:Eb; [|apply Qle_refl].
  assert (Hhas : JsMap.has (es s) i = true).
  { rewrite Hk. unfold JsMap.has. now rewrite Eb. }
  apply has_true in Hhas. destruct Hhas as (a & Ea).
  eapply Qle_trans; [apply (H0 i a Ea) | apply (Hle i a b Ea Eb)].
Qed.

(** A project with tasks ends when one of the tasks linked to END does. *)
Lemma finishing_task tasks runDurations s :
  schedule tasks runDurations = Some s -> ~ In "END" (map id tasks) -> tasks <> [] ->
  exists t, In t tasks /\ In (id t) (getList (revAdj (graph s)) "END") /\
            projectFinish s == getOr (ef s) (id t) 0.
Proof.
  intros Hs Hend Hne.
  destruct (projectFinish_spec _ _ _ Hs Hend) as (_ & Hup & Hat).
  destruct (schedule_Some _ _ _ Hs) as (_ & Hg & _).
  assert (Hacyclic : acyclic (adj (buildGraph tasks))).
  { apply (proj1 (schedule_iff_acyclic tasks runDurations)). eauto. }
  pose proof (some_task_is_terminal tasks Hacyclic Hne) as Hterm. rewrite <- Hg in Hterm.
  assert (Htask : forall i, In i (getList (revAdj (graph s)) "END") ->
                    exists t, In t tasks /\ id t = i).
  { intros i Hi. rewrite Hg in Hi. apply (terminals_are_tasks tasks i Hend) in Hi.
    apply in_map_iff in Hi. destruct Hi as (t & E & Ht). eauto. }
  destruct Hat as [E0|(i & Hi & E)].
  - destruct (getList (revAdj (graph s)) "END") as [|i l] eqn:El; [congruence|].
    destruct (Htask i (or_introl eq_refl)) as (t & Ht & <-).
    exists t. split; [exact Ht|]. split; [now left|].
    apply Qle_antisym.
    + rewrite E0. now apply (earliest_finish_nonneg tasks runDurations).
    + apply Hup. now left.
  - destruct (Htask i Hi) as (t & Ht & <-). exists t. auto.
Qed.

(** X3: the project finish.  For every acyclic task set without a task
    named END, with finite durations and lags, the scheduler returns; the
    predecessors of END are tasks, and
    none of them finishes (at its earliest) after the project finish; when
    there is a task, the project finish is the earliest finish of one of
    them; without tasks it is 0.  Tasks that have a successor do not count:
    in the lead example A finishes at 5 and the project at 3. *)
Theorem project_finish_is_latest_terminal_finish tasks runDurations :
  acyclic (adj (buildGraph tasks)) -> ~ In "END" (map id tasks) ->
  exists s,
    schedule tasks runDurations = Some s /\
    let terminals := getList (revAdj (graph s)) "END" in
    (forall i, In i terminals ->
       In i (map id tasks) /\ getOr (ef s) i 0 <= projectFinish s) /\
    (tasks <> [] ->
     exists t, In t tasks /\ In (id t) terminals /\
               projectFinish s == getOr (ef s) (id t) 0) /\
    (tasks = [] -> projectFinish s == 0).
Proof.
  intros Hacyclic Hend.
  destruct (proj2 (schedule_iff_acyclic tasks runDurations) Hacyclic) as (s & Hs).
  exists s. split; [exact Hs|]. intros terminals.
  destruct (projectFinish_spec _ _ _ Hs Hend) as (_ & Hup & Hat).
  destruct (schedule_Some _ _ _ Hs) as (_ & Hg & _).
  assert (Htask : forall i, In i terminals -> In i (map id tasks)).
  { intros i Hi. unfold terminals in Hi. rewrite Hg in Hi.
    exact (terminals_are_tasks tasks i Hend Hi). }
  split; [|split].
  - intros i Hi. split; [now apply Htask | now apply Hup].
  - intros Hne. exact (finishing_task _ _ _ Hs Hend Hne).
  - intros ->. destruct Hat as [E|(i & Hi & _)]; [exact E|].
    destruct (Htask i Hi).
Qed.

Lemma project_finish_is_latest_terminal_finish_witness :
  exists s, schedule leadTasks [5; 3] = Some s /\
            getList (revAdj (graph s)) "END" = ["B"] /\
            projectFinish s == getOr (ef s) "B" 0 /\
            projectFinish s < getOr (ef s) "A" 0.
Proof.
  destruct (project_finish_is_latest_terminal_finish leadTasks [5; 3] lead_acyclic)
    as (s & Hs & _ & Hfin & _).
  - simpl. intuition discriminate.
  - exists s. destruct Hfin as (t & _ & _ & _); [discriminate|].
    vm_compute in Hs. injection Hs as <-.
    split; [reflexivity|]. split; [reflexivity|]. split; reflexivity.
Defined.

(** X4: for every acyclic task set that is not empty and has no task named
    END, and for finite sampled durations whose project finish is finite,
    the scheduler marks at least one task critical: a task whose earliest
    finish is the project finish, which the second test of the
    critical-path check accepts. *)
Theorem some_task_is_critical tasks runDurations :
  acyclic (adj (buildGraph tasks)) -> ~ In "END" (map id tasks) -> tasks <> [] ->
  exists s r t,
    schedule tasks runDurations = Some s /\
    calculateCPM tasks runDurations = Some r /\
    In t tasks /\
    getOr (ef s) (id t) 0 == totalDuration r /\
    JsSet.has (criticalPathTasks r) (id t) = true.
Proof.
  intros Hacyclic Hend Hne.
  destruct (proj2 (schedule_iff_acyclic tasks runDurations) Hacyclic) as (s & Hs).
  destruct (finishing_task _ _ _ Hs Hend Hne) as (t & Ht & _ & E).
  exists s, (resultOf tasks s), t. split; [exact Hs|].
  split; [now apply calculateCPM_schedule|].
  split; [exact Ht|]. split; [cbn [resultOf totalDuration]; now rewrite E|].
  apply JsSetFacts.has_In, In_criticalPathTasks.
  split; [now apply in_map|].
  apply (isCritical_spec _ _ _ _ Hs (task_is_node _ _ _ _ Hs Ht)). right.
  assert (E0 : getOr (ef s) (id t) 0 - projectFinish s == 0) by (rewrite E; ring).
  rewrite E0. reflexivity.
Qed.

(** In the lead example a task that finishes with the project is
    critical. *)
Lemma some_task_is_critical_witness :
  exists s r t,
    schedule leadTasks [5; 3] = Some s /\
    calculateCPM leadTasks [5; 3] = Some r /\
    In t leadTasks /\
    getOr (ef s) (id t) 0 == totalDuration r /\
    JsSet.has (criticalPathTasks r) (id t) = true.
Proof.
  apply (some_task_is_critical leadTasks [5; 3] lead_acyclic).
  - simpl. intuition discriminate.
  - discriminate.
Defined.

(** ** Cycles of declared dependencies *)

(** X5: when the scheduler returns, the order in which its passes visit the
    nodes has no duplicate, consists of START, END and the task ids, and
    lists every node after all its predecessors. *)
Theorem visiting_order_is_topological tasks runDurations s :
  schedule tasks runDurations = Some s ->
  NoDup (topoOrder s) /\
  (forall n, In n (topoOrder s) <-> n = "START" \/ n = "END" \/ In n (map id tasks)) /\
  (forall u v, In v (getList (adj (graph s)) u) -> precedes (topoOrder s) u v).
Proof.
  intros Hs. destruct (schedule_order _ _ _ Hs) as (Hnd & Htop & Hcover).
  destruct (schedule_Some _ _ _ Hs) as (Hn & Hg & _).
  split; [exact Hnd|]. split.
  - intros n. rewrite <- Hcover, Hn. apply In_buildNodes.
  - intros u v Huv.
    assert (Hv : In v (topoOrder s)).
    { apply Hcover. rewrite Hn. apply In_buildNodes.
      rewrite Hg in Huv. destruct (buildGraph_successors tasks u v Huv); auto. }
    destruct (in_split _ _ Hv) as (l1 & l2 & E). exists l1, l2.
    split; [exact E | exact (Htop l1 v l2 E u Huv)].
Qed.

Lemma visiting_order_is_topological_witness :
  exists s, schedule chainTasks [5; 3; 4] = Some s /\
            precedes (topoOrder s) "T1" "T2" /\ precedes (topoOrder s) "T3" "END".
Proof.
  destruct (schedule chainTasks [5; 3; 4]) as [s|] eqn:Hs; [|discriminate Hs].
  exists s. split; [reflexivity|].
  destruct (visiting_order_is_topological chainTasks [5; 3; 4] s Hs) as (_ & _ & H).
  vm_compute in Hs. injection Hs as <-.
  split; apply H; cbv; auto.
Defined.

(** No edge leaves END or enters START. *)
Lemma edges_avoid_the_ends tasks u v :
  NoDup (map id tasks) -> ~ In "START" (map id tasks) -> ~ In "END" (map id tasks) ->
  edgeOf (adj (buildGraph tasks)) u v -> u <> "END" /\ v <> "START".
Proof.
  intros Hnd Hstart Hend Huv. unfold edgeOf in Huv. split.
  - intros ->. apply In_getList_has in Huv.
    destruct (buildGraph_mirrored tasks) as ((Ha & _) & _). rewrite Ha in Huv.
    destruct (String.eqb_spec "END" "START") as [E|_]; [discriminate E|].
    cbn [orb] in Huv. apply existsb_eqb_In in Huv. contradiction.
  - intros ->. apply (proj2 (buildGraph_mirrored tasks)) in Huv.
    now rewrite (buildGraph_START tasks Hnd Hstart) in Huv.
Qed.

Lemma paths_avoid_the_ends tasks x y :
  NoDup (map id tasks) -> ~ In "START" (map id tasks) -> ~ In "END" (map id tasks) ->
  clos_trans string (edgeOf (adj (buildGraph tasks))) x y -> x <> "END" /\ y <> "START".
Proof.
  intros Hnd Hstart Hend. induction 1 as [x y H|x y z _ IH1 _ IH2].
  - now apply (edges_avoid_the_ends tasks).
  - tauto.
Qed.

(** An edge between tasks is a declared dependency, and conversely. *)
Lemma edge_between_tasks tasks u v :
  NoDup (map id tasks) -> ~ In "START" (map id tasks) -> ~ In "END" (map id tasks) ->
  (edgeOf (adj (buildGraph tasks)) u v /\ u <> "START" /\ v <> "END")
  <-> dependsDirectly tasks u v.
Proof.
  intros Hnd Hstart Hend. destruct (buildGraph_mirrored tasks) as (_ & Hm). split.
  - intros (Huv & Hu & Hv). unfold edgeOf in Huv.
    destruct (buildGraph_successors tasks u v Huv) as [->|Hid]; [congruence|].
    apply in_map_iff in Hid. destruct Hid as (t & <- & Ht).
    apply Hm in Huv. rewrite (buildGraph_incoming tasks t Hnd Hend Ht) in Huv.
    apply In_incomingOf in Huv. destruct Huv as [->|Hk]; [congruence|].
    exists t. auto.
  - intros (t & Ht & <- & Hk & Hu). split; [|split; [exact Hu|]].
    + apply Hm. rewrite (buildGraph_incoming tasks t Hnd Hend Ht).
      now apply knownPredecessors_incoming.
    + intros E. apply Hend. rewrite <- E. now apply in_map.
Qed.

(** The graph has a cycle exactly when the declared dependencies have
    one. *)
Lemma acyclic_iff_no_dependency_cycle tasks :
  NoDup (map id tasks) -> ~ In "START" (map id tasks) -> ~ In "END" (map id tasks) ->
  acyclic (adj (buildGraph tasks))
  <-> (forall x, ~ clos_trans string (dependsDirectly tasks) x x).
Proof.
  intros Hnd Hstart Hend. split.
  - intros Hacyclic x Hx. apply (Hacyclic x).
    assert (G : forall a b, clos_trans string (dependsDirectly tasks) a b ->
                  clos_trans string (edgeOf (adj (buildGraph tasks))) a b).
    { clear x Hx. induction 1 as [a b H|a b c _ IH1 _ IH2].
      - apply t_step. now apply (edge_between_tasks tasks a b Hnd Hstart Hend).
      - eapply t_trans; eassumption. }
    now apply G.
  - intros Hnone x Hx. apply (Hnone x).
    destruct (paths_avoid_the_ends tasks x x Hnd Hstart Hend Hx) as (Hx1 & Hx2).
    assert (G : forall a b, clos_trans string (edgeOf (adj (buildGraph tasks))) a b ->
                  a <> "START" -> b <> "END" ->
                  clos_trans string (dependsDirectly tasks) a b).
    { clear x Hx Hx1 Hx2. induction 1 as [a b H|a b c Hab IH1 Hbc IH2]; intros Ha Hb.
      - apply t_step. apply (edge_between_tasks tasks a b Hnd Hstart Hend). auto.
      - destruct (paths_avoid_the_ends tasks a b Hnd Hstart Hend Hab) as (_ & Hb1).
        destruct (paths_avoid_the_ends tasks b c Hnd Hstart Hend Hbc) as (Hb2 & _).
        eapply t_trans; [apply IH1 | apply IH2]; assumption. }
    now apply G.
Qed.

Lemma calculateCPM_iff_acyclic tasks runDurations :
  (exists r, calculateCPM tasks runDurations = Some r) <-> acyclic (adj (buildGraph tasks)).
Proof.
  rewrite <- (schedule_iff_acyclic tasks runDurations). split.
  - intros (r & Hr). destruct (calculateCPM_Some _ _ _ Hr) as (s & Hs & _). eauto.
  - intros (s & Hs). eexists. exact (calculateCPM_schedule _ _ _ Hs).
Qed.

(** X6: with distinct task ids, none of them START or END, the scheduler
    returns a result exactly when the declared dependencies between tasks
    have no cycle, whatever the durations are; dependencies on START, on an
    empty id or on an id that is no task play no part. *)
Theorem schedule_exists_iff_no_dependency_cycle tasks runDurations :
  NoDup (map id tasks) -> ~ In "START" (map id tasks) -> ~ In "END" (map id tasks) ->
  (exists r, calculateCPM tasks runDurations = Some r)
  <-> (forall x, ~ clos_trans string (dependsDirectly tasks) x x).
Proof.
  intros Hnd Hstart Hend. rewrite calculateCPM_iff_acyclic.
  now apply acyclic_iff_no_dependency_cycle.
Qed.

Lemma schedule_exists_iff_no_dependency_cycle_witness :
  ~ exists r, calculateCPM ringTasks [1; 1; 1] = Some r.
Proof.
  assert (Hnd : NoDup (map id ringTasks)).
  { repeat constructor; simpl; intuition discriminate. }
  assert (Hs : ~ In "START" (map id ringTasks)) by (simpl; intuition discriminate).
  assert (He : ~ In "END" (map id ringTasks)) by (simpl; intuition discriminate).
  intros Hex.
  apply (proj1 (schedule_exists_iff_no_dependency_cycle ringTasks [1; 1; 1] Hnd Hs He) Hex "A").
  assert (HAB : dependsDirectly ringTasks "A" "B").
  { exists (fixedTask "B" 1 [dependsOn "A" FS 0]). cbv. intuition discriminate. }
  assert (HBC : dependsDirectly ringTasks "B" "C").
  { exists (fixedTask "C" 1 [dependsOn "B" FS 0]). cbv. intuition discriminate. }
  assert (HCA : dependsDirectly ringTasks "C" "A").
  { exists (fixedTask "A" 1 [dependsOn "C" FS 0]). cbv. intuition discriminate. }
  eapply t_trans; [apply t_step, HAB|]. eapply t_trans; apply t_step; eassumption.
Defined.

(** ** The runs that the engine records *)

Lemma countCritical_spec tasks cp :
  forall (pre counts : list Z),
    List.length counts = List.length tasks ->
    fold_left (fun c (ti : nat * Task) =>
                 if JsSet.has cp (id (snd ti))
                 then modifyAt (fun n => (n + 1)%Z) (fst ti) c else c)
      (combine (seq (List.length pre) (List.length tasks)) tasks) (pre ++ counts)
    = pre ++ map (fun tc => if JsSet.has cp (id (fst tc)) then (snd tc + 1)%Z else snd tc)
               (combine tasks counts).
Proof.
  induction tasks as [|t ts IH]; intros pre counts Hlen.
  - destruct counts; [reflexivity | discriminate].
  - destruct counts as [|a counts]; [discriminate|]. simpl in Hlen. injection Hlen as Hlen.
    cbn [List.length seq combine fold_left map fst snd].
    assert (E : (if JsSet.has cp (id t)
                 then modifyAt (fun n => (n + 1)%Z) (List.length pre) (pre ++ a :: counts)
                 else pre ++ a :: counts)
                = (pre ++ [if JsSet.has cp (id t) then (a + 1)%Z else a]) ++ counts).
    { rewrite <- app_assoc. cbn [app].
      destruct (JsSet.has cp (id t)); [|reflexivity].
      exact (modifyAt_app (fun n => (n + 1)%Z) pre a counts). }
    rewrite E.
    replace (S (List.length pre))
      with (List.length (pre ++ [if JsSet.has cp (id t) then (a + 1)%Z else a]))
      by (rewrite length_app; simpl; lia).
    rewrite IH by exact Hlen. now rewrite <- app_assoc.
Qed.

Lemma countCritical_map tasks cp (f : Task -> Z) :
  countCritical tasks cp (map f tasks)
  = map (fun t => if JsSet.has cp (id t) then (f t + 1)%Z else f t) tasks.
Proof.
  unfold countCritical, forEachIndexed.
  pose proof (countCritical_spec tasks cp [] (map f tasks) (length_map f tasks)) as E.
  cbn [app List.length] in E. rewrite E. clear E. induction tasks as [|t ts IH]; [reflexivity|].
  cbn [map combine fst snd]. now rewrite IH.
Qed.

Lemma timesCritical_snoc t runs r :
  timesCritical t (runs ++ [r])
  = (timesCritical t runs
     + if JsSet.has (run_criticalPathTasks r) (id t) then 1 else 0)%nat.
Proof.
  unfold timesCritical. rewrite filter_app, length_app. cbn [filter].
  now destruct (JsSet.has (run_criticalPathTasks r) (id t)).
Qed.

(** One trial keeps the counts in step with the runs. *)
Lemma settleTrial_counts tasks runDurations runCosts acc :
  criticalCounts acc = map (fun t => Z.of_nat (timesCritical t (simulationRuns acc))) tasks ->
  criticalCounts (settleTrial tasks runDurations runCosts acc)
  = map (fun t => Z.of_nat (timesCritical t
                              (simulationRuns (settleTrial tasks runDurations runCosts acc))))
      tasks.
Proof.
  intros H. unfold settleTrial. destruct (calculateCPM tasks runDurations) as [r|].
  - cbn [criticalCounts simulationRuns]. rewrite H, countCritical_map.
    apply map_ext. intros t. rewrite timesCritical_snoc. cbn [run_criticalPathTasks].
    destruct (JsSet.has (criticalPathTasks r) (id t)); [lia | f_equal; lia].
  - exact H.
Qed.

Lemma timesCritical_le t runs : (timesCritical t runs <= List.length runs)%nat.
Proof. unfold timesCritical. apply filter_length_le. Qed.

(** A count over the number of runs is a frequency. *)
Lemma frequency_bounds (k n : nat) :
  (k <= n)%nat -> (0 < n)%nat ->
  0 <= inject_Z (Z.of_nat k) / inject_Z (Z.of_nat n) <= 1.
Proof.
  intros Hk Hn.
  assert (Hpos : 0 < inject_Z (Z.of_nat n)).
  { change 0 with (inject_Z 0). rewrite <- Zlt_Qlt. lia. }
  assert (H0 : 0 <= inject_Z (Z.of_nat k)).
  { change 0 with (inject_Z 0). rewrite <- Zle_Qle. lia. }
  assert (Hle : inject_Z (Z.of_nat k) <= inject_Z (Z.of_nat n)).
  { rewrite <- Zle_Qle. lia. }
  split.
  - apply Qle_shift_div_l; [exact Hpos|]. now rewrite Qmult_0_l.
  - apply Qle_shift_div_r; [exact Hpos|]. now rewrite Qmult_1_l.
Qed.

Lemma present_snoc {A} (l : list (option A)) (x : option A) :
  present (l ++ [x]) = present l ++ match x with Some a => [a] | None => [] end.
Proof.
  induction l as [|[a|] l IH]; cbn [app present].
  - destruct x; reflexivity.
  - now rewrite IH.
  - exact IH.
Qed.

Section EngineRuns.
Variable RNG : Type.
Variable uniform : RNG -> Q * RNG.
Variable normal : RNG -> Q * RNG.
Variable sqrt : Q -> Q.
Variable exp : Q -> Q.
Variable Analysis : Type.
Variable analyse : list Task -> Accumulators -> Analysis.

Local Abbreviation loop := (simulationLoop RNG uniform normal sqrt exp).
Local Abbreviation trial := (runTrial RNG uniform normal sqrt exp).
Local Abbreviation run :=
  (runMonteCarloSimulation RNG uniform normal sqrt exp Analysis analyse).
Local Abbreviation simulate :=
  (runSimulation RNG uniform normal sqrt exp Analysis analyse).
Local Abbreviation draws := (drawnTrials RNG uniform normal sqrt exp).

Lemma mapRand_length {R A B} (f : A -> Rand R B) (l : list A) (r : R) :
  List.length (fst (mapRand f l r)) = List.length l.
Proof.
  revert r. induction l as [|a l IH]; intros r; [reflexivity|].
  cbn [mapRand]. unfold bind at 1. destruct (f a r) as [b r1].
  unfold bind, ret. specialize (IH r1). destruct (mapRand f l r1) as [bs r2].
  cbn [fst List.length] in *. now rewrite IH.
Qed.

(** One trial draws a duration and a cost for every task. *)
Lemma runTrial_draws tasks acc w :
  exists runDurations runCosts g,
    trial tasks (acc, w)
    = (settleTrial tasks runDurations runCosts acc,
       {| gen := g; trialsExecuted := S (trialsExecuted w) |}) /\
    List.length runDurations = List.length tasks /\
    List.length runCosts = List.length tasks.
Proof.
  unfold runTrial.
  pose proof (mapRand_length
                (sampleDuration RNG uniform normal sqrt exp) tasks (gen w)) as Hd.
  fold (drawDurations RNG uniform normal sqrt exp tasks (gen w)) in Hd.
  destruct (drawDurations _ _ _ _ _ tasks (gen w)) as [ds g1].
  pose proof (mapRand_length (sampleCost RNG uniform sqrt) tasks g1) as Hc.
  fold (drawCosts RNG uniform sqrt tasks g1) in Hc.
  destruct (drawCosts _ _ _ tasks g1) as [cs g2]. cbn [fst] in *. eauto 6.
Qed.

(** A property of the accumulators that every trial keeps holds after the
    loop. *)
Lemma simulationLoop_keeps (P : Accumulators -> Prop) tasks numRuns acc w :
  (forall acc runDurations runCosts,
     List.length runDurations = List.length tasks ->
     List.length runCosts = List.length tasks ->
     P acc -> P (settleTrial tasks runDurations runCosts acc)) ->
  P acc -> P (fst (loop tasks numRuns (acc, w))).
Proof.
  intros Hstep Hacc. induction numRuns as [|n IH]; [exact Hacc | rewrite simulationLoop_S].
  destruct (loop tasks n (acc, w)) as [acc' w'].
  destruct (runTrial_draws tasks acc' w') as (ds & cs & g & -> & Hd & Hc).
  cbn [fst] in *. now apply Hstep.
Qed.

Lemma simulationLoop_trials tasks numRuns acc w :
  trialsExecuted (snd (loop tasks numRuns (acc, w))) = (trialsExecuted w + numRuns)%nat.
Proof.
  induction numRuns as [|n IH]; [cbn; lia | rewrite simulationLoop_S].
  destruct (loop tasks n (acc, w)) as [acc' w'].
  destruct (runTrial_settles RNG uniform normal sqrt exp tasks acc' w')
    as (ds & cs & g & ->).
  cbn [fst snd trialsExecuted] in *. lia.
Qed.

(** On a task set that the scheduler accepts every trial adds a run. *)
Lemma simulationLoop_accepted tasks numRuns acc w :
  (forall runDurations, calculateCPM tasks runDurations <> None) ->
  List.length (simulationRuns (fst (loop tasks numRuns (acc, w))))
  = (List.length (simulationRuns acc) + numRuns)%nat.
Proof.
  intros Hsome. induction numRuns as [|n IH]; [cbn; lia | rewrite simulationLoop_S].
  destruct (loop tasks n (acc, w)) as [acc' w'].
  destruct (runTrial_settles RNG uniform normal sqrt exp tasks acc' w')
    as (ds & cs & g & ->).
  cbn [fst] in *. destruct (calculateCPM tasks ds) as [r|] eqn:Er.
  - rewrite (settleTrial_success _ _ _ _ _ Er). lia.
  - now apply Hsome in Er.
Qed.

Lemma out_simulationRuns_run tasks numRuns w :
  out_simulationRuns (fst (run tasks numRuns w))
  = simulationRuns (fst (loop tasks numRuns (initialAccumulators tasks, w))).
Proof.
  unfold runMonteCarloSimulation.
  destruct (loop tasks numRuns (initialAccumulators tasks, w)) as [acc w'].
  cbn [fst]. destruct (Nat.eqb_spec (List.length (simulationRuns acc)) 0) as [E|_];
    cbn [fst out_simulationRuns emptyOutput]; [|reflexivity].
  now destruct (simulationRuns acc).
Qed.

Lemma simulationLoop_all tasks numRuns w :
  (exists s, schedule tasks [] = Some s) ->
  List.length (simulationRuns (fst (loop tasks numRuns (initialAccumulators tasks, w))))
  = numRuns.
Proof.
  intros Hex. rewrite simulationLoop_accepted; [reflexivity|].
  intros d Hnone. apply (calculateCPM_None_any _ _ []) in Hnone.
  destruct Hex as (s & Hs). now rewrite (calculateCPM_schedule _ _ _ Hs) in Hnone.
Qed.

Lemma simulationLoop_none tasks numRuns w :
  schedule tasks [] = None ->
  fst (loop tasks numRuns (initialAccumulators tasks, w)) = initialAccumulators tasks.
Proof.
  intros Hnone. apply simulationLoop_rejected; [apply initialAccumulators_consistent|].
  intros d. apply (calculateCPM_None_any tasks []). unfold calculateCPM. now rewrite Hnone.
Qed.

(** X7: the number of valid runs of the engine is [numRuns] on an acyclic
    task set and 0 on a cyclic one: never a number in between. *)
Theorem valid_runs_all_or_none tasks numRuns w :
  let validRuns := List.length (out_simulationRuns (fst (run tasks numRuns w))) in
  (acyclic (adj (buildGraph tasks)) -> validRuns = numRuns) /\
  (~ acyclic (adj (buildGraph tasks)) -> validRuns = 0%nat) /\
  (validRuns = numRuns \/ validRuns = 0%nat).
Proof.
  intros validRuns. unfold validRuns. rewrite out_simulationRuns_run.
  split; [|split].
  - intros Hacyclic. apply simulationLoop_all. now apply schedule_iff_acyclic.
  - intros Hcyclic. destruct (schedule tasks []) as [s|] eqn:Hs.
    + exfalso. apply Hcyclic. apply (proj1 (schedule_iff_acyclic tasks [])). eauto.
    + now rewrite simulationLoop_none.
  - destruct (schedule tasks []) as [s|] eqn:Hs.
    + left. apply simulationLoop_all. eauto.
    + right. now rewrite simulationLoop_none.
Qed.

(** X8: after the simulation loop the criticality index of every task is
    the number of recorded runs whose critical set holds the task, divided by
    the number of recorded runs; when there is a run, every index lies in
    [0, 1]. *)
Theorem criticality_index_is_a_frequency tasks numRuns w :
  let acc := fst (loop tasks numRuns (initialAccumulators tasks, w)) in
  let validRuns := List.length (simulationRuns acc) in
  criticalityIndex acc
  = map (fun t => inject_Z (Z.of_nat (timesCritical t (simulationRuns acc)))
                  / inject_Z (Z.of_nat validRuns)) tasks /\
  (validRuns <> 0%nat -> Forall (fun c => 0 <= c <= 1) (criticalityIndex acc)).
Proof.
  intros acc validRuns.
  assert (Hcounts : criticalCounts acc
                    = map (fun t => Z.of_nat (timesCritical t (simulationRuns acc))) tasks).
  { unfold acc.
    apply (simulationLoop_keeps
             (fun a => criticalCounts a
                       = map (fun t => Z.of_nat (timesCritical t (simulationRuns a))) tasks)).
    - intros a ds cs _ _ Ha. now apply settleTrial_counts.
    - reflexivity. }
  assert (E : criticalityIndex acc
              = map (fun t => inject_Z (Z.of_nat (timesCritical t (simulationRuns acc)))
                              / inject_Z (Z.of_nat validRuns)) tasks).
  { unfold criticalityIndex. rewrite Hcounts, map_map. reflexivity. }
  split; [exact E|]. intros Hpos. rewrite E. apply Forall_forall. intros c Hc.
  apply in_map_iff in Hc. destruct Hc as (t & <- & _).
  apply frequency_bounds; [apply timesCritical_le | unfold validRuns in Hpos; lia].
Qed.

(** The loop after one more trial, and the draws after one more. *)
Lemma simulationLoop_step tasks n acc0 w :
  gen (snd (loop tasks n (acc0, w))) = snd (draws tasks n (gen w)) ->
  exists draw g,
    drawTrial RNG uniform normal sqrt exp tasks (snd (draws tasks n (gen w))) = (draw, g) /\
    draws tasks (S n) (gen w) = (fst (draws tasks n (gen w)) ++ [draw], g) /\
    loop tasks (S n) (acc0, w)
    = (settleTrial tasks (fst draw) (snd draw) (fst (loop tasks n (acc0, w))),
       {| gen := g; trialsExecuted := S (trialsExecuted (snd (loop tasks n (acc0, w)))) |}).
Proof.
  intros Hg.
  change (loop tasks (S n) (acc0, w))
    with (runTrial RNG uniform normal sqrt exp tasks (loop tasks n (acc0, w))).
  destruct (loop tasks n (acc0, w)) as [acc wn]. cbn [fst snd] in *.
  cbn [drawnTrials]. unfold bind at 1.
  destruct (draws tasks n (gen w)) as [l g'] eqn:El. cbn [fst snd] in *.
  unfold runTrial, drawTrial, bind, ret. rewrite Hg.
  destruct (drawDurations _ _ _ _ _ tasks g') as [ds g1].
  destruct (drawCosts _ _ _ tasks g1) as [cs g2].
  exists (ds, cs), g2. auto.
Qed.

Lemma simulationLoop_gen tasks n acc0 w :
  gen (snd (loop tasks n (acc0, w))) = snd (draws tasks n (gen w)).
Proof.
  induction n as [|n IH]; [reflexivity|].
  destruct (simulationLoop_step tasks n acc0 w IH) as (draw & g & _ & -> & ->).
  reflexivity.
Qed.

(** The run list holds the runs of the valid trials, in their order. *)
Lemma simulationLoop_runs tasks n w :
  simulationRuns (fst (loop tasks n (initialAccumulators tasks, w)))
  = present (map (recordedRun tasks) (fst (draws tasks n (gen w)))).
Proof.
  induction n as [|n IH]; [reflexivity|].
  destruct (simulationLoop_step tasks n (initialAccumulators tasks) w
              (simulationLoop_gen tasks n (initialAccumulators tasks) w))
    as (draw & g & _ & -> & ->).
  cbn [fst]. rewrite map_app. cbn [map]. rewrite present_snoc, <- IH.
  unfold settleTrial, recordedRun.
  destruct (calculateCPM tasks (fst draw)); cbn [simulationRuns];
    [reflexivity | now rewrite app_nil_r].
Qed.

(** With distinct ids the timing sequences of a task hold the timings that
    the scheduler returned for it in the valid trials. *)
Lemma simulationLoop_timings tasks n w :
  NoDup (map id tasks) ->
  consistentAccumulators tasks (fst (loop tasks n (initialAccumulators tasks, w))) /\
  forall t, In t tasks ->
    JsMap.get (allTaskTimings (fst (loop tasks n (initialAccumulators tasks, w)))) (id t)
    = Some {| starts :=
                map timing_es
                  (present (map (recordedTiming tasks (id t)) (fst (draws tasks n (gen w)))));
              finishes :=
                map timing_ef
                  (present (map (recordedTiming tasks (id t)) (fst (draws tasks n (gen w)))))
           |}.
Proof.
  intros Hnd. induction n as [|n IH].
  - split; [apply initialAccumulators_consistent|]. intros t Ht.
    cbn [simulationLoop Nat.iter nat_rect fst drawnTrials ret map present].
    pose proof (initialAccumulators_consistent tasks) as (_ & _ & _ & _ & Hhas & Hlen).
    specialize (Hhas t Ht). unfold JsMap.has in Hhas.
    destruct (JsMap.get (allTaskTimings (initialAccumulators tasks)) (id t))
      as [samples|] eqn:E; [|discriminate].
    destruct (Hlen _ _ E) as (_ & Hs & Hf). cbn [initialAccumulators simulationRuns] in Hs, Hf.
    destruct samples as [[|? ?] [|? ?]]; try discriminate. reflexivity.
  - destruct IH as (Hc & IH).
    destruct (simulationLoop_step tasks n (initialAccumulators tasks) w
              (simulationLoop_gen tasks n (initialAccumulators tasks) w))
      as (draw & g & _ & -> & ->).
    cbn [fst]. split; [now apply settleTrial_consistent|].
    intros t Ht. rewrite map_app. cbn [map]. rewrite present_snoc.
    unfold settleTrial, recordedTiming at 2 4.
    destruct (calculateCPM tasks (fst draw)) as [r|] eqn:Er; cbn [allTaskTimings].
    + rewrite (get_recordTimings _ _ Hnd), (IH t Ht).
      destruct in_dec as [_|Hn]; [|exfalso; apply Hn; now apply in_map].
      destruct (JsMap.get (taskTimings r) (id t)) as [timing|].
      * cbn [starts finishes]. now rewrite !map_app.
      * now rewrite !app_nil_r.
    + rewrite !app_nil_r. exact (IH t Ht).
Qed.

(** X9: the runs that the engine returns are those of its valid trials, in
    the order of the trials: the total duration and the critical set that
    the scheduler returned for the durations drawn in the trial, and the
    sum of the costs drawn in it; a trial that the scheduler rejects leaves
    no run. *)
Theorem recorded_runs_are_those_of_valid_trials tasks numRuns w :
  out_simulationRuns
    (fst (runMonteCarloSimulation RNG uniform normal sqrt exp Analysis analyse
            tasks numRuns w))
  = present (map (recordedRun tasks)
               (fst (drawnTrials RNG uniform normal sqrt exp tasks numRuns (gen w)))).
Proof.
  rewrite <- simulationLoop_runs. unfold runMonteCarloSimulation.
  destruct (loop tasks numRuns (initialAccumulators tasks, w)) as [acc w'].
  cbn [fst]. destruct (Nat.eqb_spec (List.length (simulationRuns acc)) 0) as [E|_];
    cbn [fst out_simulationRuns emptyOutput]; [|reflexivity].
  now destruct (simulationRuns acc).
Qed.

Lemma run_unfold tasks numRuns w :
  run tasks numRuns w
  = let st := loop tasks numRuns (initialAccumulators tasks, w) in
    if (List.length (simulationRuns (fst st)) =? 0)%nat then (emptyOutput, snd st)
    else
      ({| out_simulationRuns := simulationRuns (fst st);
          out_analysis := Some (analyse tasks (fst st));
          out_taskDurationSamples := taskDurationSamples (fst st);
          out_taskCostSamples := taskCostSamples (fst st);
          out_allTaskTimings := allTaskTimings (fst st) |}, snd st).
Proof.
  unfold runMonteCarloSimulation.
  now destruct (loop tasks numRuns (initialAccumulators tasks, w)).
Qed.

(** X10: [runSimulation] on a task list that is not empty and passes the
    direct-cycle check executes [numRuns] trials; on an acyclic task set with
    [numRuns] other than 0 it stores [numRuns] runs and an analysis and no
    error; on a cyclic one (a cycle through three tasks or more) or with no
    run to make it stores the error that no valid result was produced, and
    neither runs nor analysis, after having executed all the trials. *)
Theorem simulation_outcomes tasks numRuns st w :
  tasks <> [] -> findDirectCycle (tasksById tasks) tasks = None ->
  let st' := fst (simulate tasks numRuns st w) in
  let w' := snd (simulate tasks numRuns st w) in
  trialsExecuted w' = (trialsExecuted w + numRuns)%nat /\
  (acyclic (adj (buildGraph tasks)) -> numRuns <> 0%nat ->
   error st' = None /\ analysis st' <> None /\
   exists runs, simulationResults st' = Some runs /\ List.length runs = numRuns) /\
  (~ acyclic (adj (buildGraph tasks)) \/ numRuns = 0%nat ->
   error st' = Some NoValidResults /\ simulationResults st' = None /\
   analysis st' = None).
Proof.
  intros Hne Hcheck st' w'. unfold st', w', runSimulation. clear st' w'.
  destruct tasks as [|t0 ts] eqn:Et; [congruence|]. rewrite <- Et in *. rewrite Hcheck.
  rewrite run_unfold. cbv zeta.
  pose proof (simulationLoop_trials tasks numRuns (initialAccumulators tasks) w) as Htr.
  pose proof (simulationLoop_all tasks numRuns w) as Hall.
  pose proof (simulationLoop_none tasks numRuns w) as Hnone.
  destruct (loop tasks numRuns (initialAccumulators tasks, w)) as [acc wl].
  cbn [fst snd] in *.
  assert (Hzero : ~ acyclic (adj (buildGraph tasks)) \/ numRuns = 0%nat ->
                  List.length (simulationRuns acc) = 0%nat).
  { intros [Hcyc| ->].
    - destruct (schedule tasks []) as [s|] eqn:Hs.
      + exfalso. apply Hcyc. apply (proj1 (schedule_iff_acyclic tasks [])). eauto.
      + now rewrite Hnone.
    - destruct (schedule tasks []) as [s|] eqn:Hs; [apply Hall; eauto | now rewrite Hnone]. }
  destruct (Nat.eqb_spec (List.length (simulationRuns acc)) 0) as [E|E].
  - cbn [fst snd out_simulationRuns out_analysis emptyOutput error simulationResults
           analysis]. split; [exact Htr|]. split; [|auto].
    intros Hacyclic Hn. exfalso. apply Hn. rewrite <- E. symmetry. apply Hall.
    now apply schedule_iff_acyclic.
  - cbn [fst snd out_simulationRuns out_analysis].
    destruct (simulationRuns acc) as [|r rs] eqn:Er; [now cbn in E|].
    cbn [fst snd error simulationResults analysis]. split; [exact Htr|]. split.
    + intros Hacyclic _. split; [reflexivity|]. split; [discriminate|].
      eexists. split; [reflexivity|]. apply Hall. now apply schedule_iff_acyclic.
    + intros H. now apply Hzero in H.
Qed.

Lemma nth_after_push (h : nat -> Q) (n k : nat) (samples : list (list Q)) :
  Forall (fun l => List.length l = n) samples ->
  forall a,
    map (fun l => nth k l 0)
      (map (fun ia : nat * list Q => snd ia ++ [h (fst ia)])
         (combine (seq a (List.length samples)) samples))
    = if (k <? n)%nat then map (fun l => nth k l 0) samples
      else if (k =? n)%nat then map h (seq a (List.length samples))
      else map (fun _ => 0) samples.
Proof.
  intros Hall. induction Hall as [|l samples Hl _ IH]; intros a.
  - now destruct (k <? n)%nat, (k =? n)%nat.
  - cbn [List.length seq combine map fst snd]. rewrite (IH (S a)).
    destruct (Nat.ltb_spec k n) as [Hlt|Hge].
    + f_equal. apply app_nth1. lia.
    + destruct (Nat.eqb_spec k n) as [->|Hne].
      * f_equal. rewrite <- Hl. apply nth_middle.
      * f_equal. apply nth_overflow. rewrite length_app. simpl. lia.
Qed.

Lemma map_nth_seq_all (l pre : list Q) :
  map (fun i => nth i (pre ++ l) 0) (seq (List.length pre) (List.length l)) = l.
Proof.
  revert pre. induction l as [|x l IH]; intros pre; [reflexivity|].
  cbn [List.length seq map]. rewrite nth_middle. f_equal.
  specialize (IH (pre ++ [x])). rewrite <- app_assoc, length_app in IH. cbn in IH.
  now rewrite Nat.add_1_r in IH.
Qed.

(** The total cost of a run and the cost samples of the tasks in that
    run. *)
Lemma settleTrial_costs tasks runDurations runCosts acc :
  List.length runCosts = List.length tasks ->
  (List.length (taskCostSamples acc) = List.length tasks /\
   Forall (fun l => List.length l = List.length (simulationRuns acc)) (taskCostSamples acc) /\
   forall k r, nth_error (simulationRuns acc) k = Some r ->
     run_totalCost r = fold_left Qplus (map (fun l => nth k l 0) (taskCostSamples acc)) 0) ->
  let acc' := settleTrial tasks runDurations runCosts acc in
  List.length (taskCostSamples acc') = List.length tasks /\
  Forall (fun l => List.length l = List.length (simulationRuns acc')) (taskCostSamples acc') /\
  forall k r, nth_error (simulationRuns acc') k = Some r ->
    run_totalCost r = fold_left Qplus (map (fun l => nth k l 0) (taskCostSamples acc')) 0.
Proof.
  intros Hcs (Hlen & Hall & Hsum) acc'. unfold acc', settleTrial.
  destruct (calculateCPM tasks runDurations) as [res|];
    cbn [taskCostSamples simulationRuns].
  - destruct (recordSamples_lengths tasks runCosts _ _ Hlen Hall) as (Hlen' & Hall').
    split; [exact Hlen'|]. split.
    + rewrite length_app. cbn [List.length]. now rewrite Nat.add_1_r.
    + intros k r Hk. rewrite recordSamples_spec by exact Hlen.
      rewrite (nth_after_push (fun i => nth i runCosts 0) _ k _ Hall 0%nat).
      destruct (Nat.ltb_spec k (List.length (simulationRuns acc))) as [Hlt|Hge].
      * rewrite nth_error_app1 in Hk by exact Hlt. now apply Hsum.
      * rewrite nth_error_app2 in Hk by exact Hge.
        destruct (Nat.eqb_spec k (List.length (simulationRuns acc))) as [->|Hne].
        -- rewrite Nat.sub_diag in Hk. injection Hk as <-. cbn [run_totalCost].
           rewrite Hlen, <- Hcs. pose proof (map_nth_seq_all runCosts []) as E.
           cbn [app List.length] in E. now rewrite E.
        -- destruct (k - List.length (simulationRuns acc))%nat as [|m] eqn:Em; [lia|].
           destruct m; discriminate.
  - rewrite dropSamples_recordSamples by exact Hlen. auto.
Qed.

(** X11: the total cost of the k-th run of the engine's output is the sum,
    over the tasks in their order, of the k-th cost sample of each task. *)
Theorem run_cost_is_sum_of_cost_samples tasks numRuns w :
  let out := fst (runMonteCarloSimulation RNG uniform normal sqrt exp Analysis
                    analyse tasks numRuns w) in
  forall k r, nth_error (out_simulationRuns out) k = Some r ->
    run_totalCost r
    = fold_left Qplus (map (fun samples => nth k samples 0) (out_taskCostSamples out)) 0.
Proof.
  intros out k r. unfold out. rewrite run_unfold. cbv zeta.
  pose proof (simulationLoop_keeps
    (fun a =>
       List.length (taskCostSamples a) = List.length tasks /\
       Forall (fun l => List.length l = List.length (simulationRuns a)) (taskCostSamples a) /\
       forall k r, nth_error (simulationRuns a) k = Some r ->
         run_totalCost r = fold_left Qplus (map (fun l => nth k l 0) (taskCostSamples a)) 0)
    tasks numRuns (initialAccumulators tasks) w) as H.
  destruct H as (_ & _ & Hsum).
  - intros a ds cs _ Hcs Ha. now apply settleTrial_costs.
  - cbn [initialAccumulators taskCostSamples simulationRuns List.length].
    split; [apply length_map|]. split.
    + apply Forall_forall. intros l Hl. apply in_map_iff in Hl. now destruct Hl as (_ & <- & _).
    + intros k' r' Hk. now destruct k'.
  - destruct (loop tasks numRuns (initialAccumulators tasks, w)) as [acc w'].
    cbn [fst snd] in *. destruct (_ =? 0)%nat; cbn [fst out_simulationRuns out_taskCostSamples].
    + cbn [emptyOutput out_simulationRuns]. now destruct k.
    + apply Hsum.
Qed.
(** X12: with distinct task ids, when a trial is valid the timing record of
    every task in the engine's output holds, trial by trial in their
    order, the earliest start and the earliest finish that the scheduler
    returned for the task on the durations drawn in the valid trials; so it
    has as many starts as finishes. *)
Theorem recorded_timings_are_those_of_valid_trials tasks numRuns w t :
  NoDup (map id tasks) -> In t tasks ->
  let out :=
    fst (runMonteCarloSimulation RNG uniform normal sqrt exp Analysis analyse
           tasks numRuns w) in
  let timings :=
    present (map (recordedTiming tasks (id t))
               (fst (drawnTrials RNG uniform normal sqrt exp tasks numRuns (gen w)))) in
  out_simulationRuns out <> [] ->
  JsMap.get (out_allTaskTimings out) (id t)
  = Some {| starts := map timing_es timings; finishes := map timing_ef timings |} /\
  List.length timings = List.length (out_simulationRuns out).
Proof.
  intros Hnd Ht out timings Hne.
  destruct (simulationLoop_timings tasks numRuns w Hnd) as (Hc & Htim).
  specialize (Htim t Ht). fold timings in Htim.
  subst out. unfold runMonteCarloSimulation in *.
  destruct (loop tasks numRuns (initialAccumulators tasks, w)) as [acc w'].
  cbn [fst] in *.
  destruct (Nat.eqb_spec (List.length (simulationRuns acc)) 0) as [E|E];
    cbn [fst out_simulationRuns out_allTaskTimings emptyOutput] in *; [contradiction|].
  split; [exact Htim|].
  destruct Hc as (_ & _ & _ & _ & _ & Hlen).
  destruct (Hlen _ _ Htim) as (_ & Hs & _). cbn [starts] in Hs.
  now rewrite length_map in Hs.
Qed.
End EngineRuns.

Lemma ring_has_cycle : ~ acyclic (adj (buildGraph ringTasks)).
Proof.
  intros H. apply (proj2 (schedule_iff_acyclic ringTasks [])) in H.
  destruct H as (s & Hs). vm_compute in Hs. discriminate Hs.
Qed.

Lemma simulation_outcomes_witness :
  error (fst (runSimulation unit halves zeros sameNumber sameNumber unit
                noAnalysis ringTasks 3 startState startWorld)) = Some NoValidResults /\
  trialsExecuted (snd (runSimulation unit halves zeros sameNumber sameNumber
                         unit noAnalysis ringTasks 3 startState startWorld)) = 3%nat.
Proof.
  destruct (simulation_outcomes unit halves zeros sameNumber sameNumber unit
              noAnalysis ringTasks 3 startState startWorld) as (Ht & _ & Hbad).
  - discriminate.
  - reflexivity.
  - split; [|exact Ht]. apply Hbad. left. exact ring_has_cycle.
Defined.

Lemma run_cost_is_sum_of_cost_samples_witness :
  exists r,
    nth_error (out_simulationRuns
                 (fst (runMonteCarloSimulation unit halves zeros integerRoot
                         sameNumber unit noAnalysis pricedTasks 3 startWorld))) 1
    = Some r /\
    run_totalCost r == 42.
Proof.
  destruct (nth_error (out_simulationRuns
                 (fst (runMonteCarloSimulation unit halves zeros integerRoot
                         sameNumber unit noAnalysis pricedTasks 3 startWorld))) 1)
    as [r|] eqn:E; [|vm_compute in E; discriminate E].
  exists r. split; [reflexivity|].
  rewrite (run_cost_is_sum_of_cost_samples unit halves zeros integerRoot
             sameNumber unit noAnalysis pricedTasks 3 startWorld 1 r E).
  vm_compute. reflexivity.
Defined.

(** ** Editing the task list *)

Lemma length_deleteTask k tasks :
  (List.length (deleteTask k tasks) <= List.length tasks)%nat.
Proof. unfold deleteTask. rewrite length_map. apply filter_length_le. Qed.

Lemma applyEdit_limit tasks e :
  (List.length tasks <= MAX_TASKS)%nat -> (List.length (applyEdit tasks e) <= MAX_TASKS)%nat.
Proof.
  intros H. destruct e as [taskData isEditing|k]; cbn [applyEdit].
  - unfold handleSaveTask. destruct isEditing; cbn [negb andb].
    + now rewrite length_map.
    + destruct (Nat.leb_spec MAX_TASKS (List.length tasks)) as [Hfull|Hroom]; [exact H|].
      rewrite length_app. cbn [List.length]. lia.
  - pose proof (length_deleteTask k tasks). lia.
Qed.

(** X22: a task list within the limit of [MAX_TASKS] stays within it under
    every sequence of saves and deletions; saving an edited task keeps the
    ids and their order; saving a new task appends it while there is room,
    and is refused when the list is full. *)
Theorem task_list_stays_within_limit (edits : list Edit) (tasks : list Task) :
  (List.length tasks <= MAX_TASKS)%nat ->
  (List.length (fold_left applyEdit edits tasks) <= MAX_TASKS)%nat /\
  (forall taskData,
     map id (applyEdit tasks (Save taskData true)) = map id tasks) /\
  (forall taskData,
     (List.length tasks < MAX_TASKS)%nat ->
     applyEdit tasks (Save taskData false) = tasks ++ [taskData]) /\
  (forall taskData,
     List.length tasks = MAX_TASKS ->
     handleSaveTask taskData false tasks = CannotAddMore).
Proof.
  intros H. split; [|split; [|split]].
  - revert tasks H. induction edits as [|e edits IH]; intros tasks H; [exact H|].
    cbn [fold_left]. now apply IH, applyEdit_limit.
  - intros taskData. cbn [applyEdit handleSaveTask negb andb]. rewrite map_map.
    apply map_ext. intros t. destruct (String.eqb_spec (id t) (id taskData)); congruence.
  - intros taskData Hroom. cbn [applyEdit]. unfold handleSaveTask. cbn [negb andb].
    destruct (Nat.leb_spec MAX_TASKS (List.length tasks)); [lia | reflexivity].
  - intros taskData Hfull. unfold handleSaveTask. cbn [negb andb].
    destruct (Nat.leb_spec MAX_TASKS (List.length tasks)); [reflexivity | lia].
Qed.

Lemma task_list_stays_within_limit_witness :
  (List.length (fold_left applyEdit
                  [Save (fixedTask "T4" 2 [dependsOn "T3" FS 0]) false; Delete "T1"]
                  chainTasks) <= MAX_TASKS)%nat.
Proof.
  apply (task_list_stays_within_limit
           [Save (fixedTask "T4" 2 [dependsOn "T3" FS 0]) false; Delete "T1"] chainTasks).
  unfold MAX_TASKS. cbn. lia.
Defined.

Lemma In_deleteTask k tasks t' :
  In t' (deleteTask k tasks)
  <-> exists t, In t tasks /\ id t <> k /\
                t' = withDependencies t
                       (filter (fun dep => negb (String.eqb (predecessorId dep) k))
                          (dependencies t)).
Proof.
  unfold deleteTask. rewrite in_map_iff. split.
  - intros (t & <- & Ht). apply filter_In in Ht. destruct Ht as (Ht & Hk).
    exists t. split; [exact Ht|]. split; [|reflexivity].
    apply negb_true_iff, String.eqb_neq in Hk. exact Hk.
  - intros (t & Ht & Hk & ->). exists t. split; [reflexivity|].
    apply filter_In. split; [exact Ht|]. now apply negb_true_iff, String.eqb_neq.
Qed.

Lemma map_id_deleteTask k tasks :
  map id (deleteTask k tasks) = filter (fun i => negb (String.eqb i k)) (map id tasks).
Proof.
  unfold deleteTask. rewrite map_map. cbn [withDependencies id].
  induction tasks as [|t tasks IH]; [reflexivity|]. cbn [filter map].
  destruct (negb (String.eqb (id t) k)); cbn [map]; now rewrite IH.
Qed.

(** X23: after [deleteTask(k)] no task has the id [k] and no dependency
    names [k]; the ids of the other tasks are kept in their order, and each
    of them keeps its dependencies on tasks other than [k]. *)
Theorem deleted_task_leaves_no_reference (k : string) (tasks : list Task) :
  (forall t, In t (deleteTask k tasks) ->
     id t <> k /\ forall dep, In dep (dependencies t) -> predecessorId dep <> k) /\
  map id (deleteTask k tasks) = filter (fun i => negb (String.eqb i k)) (map id tasks) /\
  (forall t, In t tasks -> id t <> k ->
     exists t', In t' (deleteTask k tasks) /\ id t' = id t /\
                forall dep, In dep (dependencies t') <->
                            In dep (dependencies t) /\ predecessorId dep <> k).
Proof.
  split; [|split].
  - intros t' Ht'. apply In_deleteTask in Ht'. destruct Ht' as (t & Ht & Hk & ->).
    cbn [withDependencies id dependencies]. split; [exact Hk|].
    intros dep Hdep. apply filter_In in Hdep. destruct Hdep as (_ & Hdep).
    now apply negb_true_iff, String.eqb_neq in Hdep.
  - apply map_id_deleteTask.
  - intros t Ht Hk. eexists. split; [apply In_deleteTask; exists t; eauto|].
    cbn [withDependencies id dependencies]. split; [reflexivity|].
    intros dep. rewrite filter_In, negb_true_iff, String.eqb_neq. reflexivity.
Qed.

Lemma isKnown_spec tasks p :
  isKnown tasks p = true <-> p <> "" /\ (p = "START" \/ In p (map id tasks)).
Proof.
  unfold isKnown. rewrite andb_true_iff, negb_true_iff, String.eqb_neq, orb_true_iff,
    String.eqb_eq, existsb_eqb_In. reflexivity.
Qed.

(** A dependency declared after the deletion was declared before it. *)
Lemma dependsDirectly_deleteTask k tasks u v :
  dependsDirectly (deleteTask k tasks) u v -> dependsDirectly tasks u v.
Proof.
  intros (t' & Ht' & Hv & Hu & Hstart).
  apply In_deleteTask in Ht'. destruct Ht' as (t & Ht & Hk & ->).
  cbn [withDependencies id] in Hv. exists t. split; [exact Ht|]. split; [exact Hv|].
  split; [|exact Hstart].
  unfold knownPredecessors in *. cbn [withDependencies dependencies] in Hu.
  apply filter_In in Hu. destruct Hu as (Hu & Hknown). apply filter_In. split.
  - apply in_map_iff in Hu. destruct Hu as (dep & <- & Hdep).
    apply filter_In in Hdep. apply in_map, Hdep.
  - apply isKnown_spec in Hknown. apply isKnown_spec.
    destruct Hknown as (Hne & [->|Hin]); [auto|]. split; [exact Hne|]. right.
    rewrite map_id_deleteTask in Hin. now apply filter_In in Hin.
Qed.

(** X24: deleting a task from a task set that the scheduler accepts (ids
    distinct, none of them START or END) gives a task set that the scheduler
    accepts, whatever the durations are. *)
Theorem deletion_keeps_the_project_schedulable (k : string) (tasks : list Task)
  (runDurations otherDurations : list Q) :
  NoDup (map id tasks) -> ~ In "START" (map id tasks) -> ~ In "END" (map id tasks) ->
  (exists r, calculateCPM tasks runDurations = Some r) ->
  exists r', calculateCPM (deleteTask k tasks) otherDurations = Some r'.
Proof.
  intros Hnd Hstart Hend Hr.
  apply calculateCPM_iff_acyclic in Hr.
  pose proof (proj1 (acyclic_iff_no_dependency_cycle tasks Hnd Hstart Hend) Hr) as Hnone.
  clear Hr. rename Hnone into Hr.
  apply calculateCPM_iff_acyclic. apply acyclic_iff_no_dependency_cycle.
  - rewrite map_id_deleteTask. now apply NoDup_filter.
  - rewrite map_id_deleteTask. intros H. apply filter_In in H. tauto.
  - rewrite map_id_deleteTask. intros H. apply filter_In in H. tauto.
  - intros x Hx. apply (Hr x).
    assert (G : forall a b, clos_trans string (dependsDirectly (deleteTask k tasks)) a b ->
                  clos_trans string (dependsDirectly tasks) a b).
    { clear x Hx. induction 1 as [a b H|a b c _ IH1 _ IH2].
      - apply t_step. now apply (dependsDirectly_deleteTask k).
      - eapply t_trans; eassumption. }
    now apply G.
Qed.

Lemma deletion_keeps_the_project_schedulable_witness :
  exists r', calculateCPM (deleteTask "T2" chainTasks) [5; 4] = Some r'.
Proof.
  apply (deletion_keeps_the_project_schedulable "T2" chainTasks [5; 3; 4] [5; 4]).
  - exact NoDup_chain_ids.
  - simpl. intuition discriminate.
  - simpl. intuition discriminate.
  - eexists. reflexivity.
Defined.

(** ** The comparison of WBS codes *)

Lemma compareWbsArrays_refl (a : list Z) : compareWbsArrays a a = 0%Z.
Proof.
  induction a as [|x a IH]; [reflexivity|]. cbn [compareWbsArrays].
  rewrite Z.ltb_irrefl. exact IH.
Qed.

Lemma compareWbsArrays_zero (a b : list Z) : compareWbsArrays a b = 0%Z -> a = b.
Proof.
  revert b. induction a as [|x a IH]; intros [|y b] H; cbn [compareWbsArrays] in H.
  - reflexivity.
  - cbn [List.length] in H. lia.
  - cbn [List.length] in H. lia.
  - destruct (Z.ltb_spec x y); [discriminate|]. destruct (Z.ltb_spec y x); [discriminate|].
    f_equal; [lia | now apply IH].
Qed.

Lemma compareWbsArrays_swap (a b : list Z) :
  (compareWbsArrays a b < 0 <-> 0 < compareWbsArrays b a)%Z.
Proof.
  revert b. induction a as [|x a IH]; intros [|y b]; cbn [compareWbsArrays List.length];
    try lia.
  destruct (Z.ltb_spec x y), (Z.ltb_spec y x); try lia. apply IH.
Qed.

Lemma compareWbsArrays_trans (a b c : list Z) :
  (compareWbsArrays a b < 0 -> compareWbsArrays b c < 0 -> compareWbsArrays a c < 0)%Z.
Proof.
  revert b c. induction a as [|x a IH]; intros [|y b] [|z c];
    cbn [compareWbsArrays List.length]; try lia.
  destruct (Z.ltb_spec x y), (Z.ltb_spec y x), (Z.ltb_spec y z), (Z.ltb_spec z y),
    (Z.ltb_spec x z), (Z.ltb_spec z x); try lia.
  apply IH.
Qed.

(** X25: the comparison of WBS codes is an order: it returns 0 on equal
    arrays only, its sign flips when the arguments are exchanged, "comes
    before" is transitive, and an array comes before or equals each of its
    extensions. *)
Theorem wbs_comparison_is_an_order :
  (forall a b, compareWbsArrays a b = 0%Z <-> a = b) /\
  (forall a b, (compareWbsArrays a b < 0 <-> 0 < compareWbsArrays b a)%Z) /\
  (forall a b c, (compareWbsArrays a b < 0)%Z -> (compareWbsArrays b c < 0)%Z ->
                 (compareWbsArrays a c < 0)%Z) /\
  (forall a b, (compareWbsArrays a (a ++ b) <= 0)%Z).
Proof.
  split; [|split; [|split]].
  - intros a b. split; [apply compareWbsArrays_zero | intros ->; apply compareWbsArrays_refl].
  - exact compareWbsArrays_swap.
  - exact compareWbsArrays_trans.
  - induction a as [|x a IH]; intros b; cbn [app compareWbsArrays].
    + destruct b; cbn [compareWbsArrays List.length]; lia.
    + rewrite Z.ltb_irrefl. apply IH.
Qed.

(** ** The direct-cycle check rejects cyclic projects only *)

Lemma tasksById_lookup tasks k p :
  JsMap.get (tasksById tasks) k = Some p -> In p tasks /\ id p = k.
Proof.
  unfold tasksById.
  assert (G : forall l m,
             (forall k p, JsMap.get m k = Some p -> In p tasks /\ id p = k) ->
             incl l tasks ->
             forall k p,
               JsMap.get (fold_left (fun m t => JsMap.set m (id t) t) l m) k = Some p ->
               In p tasks /\ id p = k).
  { induction l as [|t l IH]; intros m Hm Hl k' p'; [apply Hm|]. cbn [fold_left].
    apply IH; [|intros x Hx; apply Hl; now right].
    intros k0 p0. rewrite get_set. destruct (String.eqb_spec k0 (id t)) as [E|_].
    - intros [= <-]. split; [apply Hl; now left | now symmetry].
    - apply Hm. }
  apply G; [intros k0 p0; discriminate | apply incl_refl].
Qed.

(** What a hit of the check has found. *)
Lemma findDirectCycle_found tasks l e :
  incl l tasks -> findDirectCycle (tasksById tasks) l = Some e ->
  exists t p dep pDep,
    In t tasks /\ In p tasks /\
    In dep (dependencies t) /\ predecessorId dep = id p /\
    In pDep (dependencies p) /\ predecessorId pDep = id t /\
    e = DirectCycle (name t) (name p).
Proof.
  induction l as [|t l IH]; intros Hl H; [discriminate|]. cbn [findDirectCycle] in H.
  destruct (directCycleOf (tasksById tasks) t) as [e'|] eqn:Et.
  - injection H as <-. unfold directCycleOf in Et.
    destruct (find _ (dependencies t)) as [dep|] eqn:Ef; [|discriminate].
    apply find_some in Ef. destruct Ef as (Hdep & Hback).
    destruct (JsMap.get (tasksById tasks) (predecessorId dep)) as [p|] eqn:Ep;
      [|discriminate].
    injection Et as <-. cbn [dependsBack] in Hback. apply existsb_exists in Hback.
    destruct Hback as (pDep & HpDep & E). apply String.eqb_eq in E.
    destruct (tasksById_lookup tasks _ p Ep) as (Hp & Eid).
    exists t, p, dep, pDep. repeat split; auto. apply Hl. now left.
  - apply IH; [intros x Hx; apply Hl; now right | exact H].
Qed.

(** X26: with distinct task ids, none of them empty, START or END, a hit
    of the direct-cycle check of [runSimulation] names two tasks (or one task
    twice) that declare each other as predecessor, and the scheduler rejects
    the task set whatever the durations are: the check rejects no task set
    that would have produced a result. *)
Theorem direct_cycle_check_is_sound tasks e :
  NoDup (map id tasks) -> ~ In "" (map id tasks) ->
  ~ In "START" (map id tasks) -> ~ In "END" (map id tasks) ->
  findDirectCycle (tasksById tasks) tasks = Some e ->
  (exists t p, In t tasks /\ In p tasks /\ e = DirectCycle (name t) (name p) /\
               dependsDirectly tasks (id p) (id t) /\
               dependsDirectly tasks (id t) (id p)) /\
  forall runDurations, calculateCPM tasks runDurations = None.
Proof.
  intros Hnd Hempty Hstart Hend Hfind.
  destruct (findDirectCycle_found tasks tasks e (incl_refl _) Hfind)
    as (t & p & dep & pDep & Ht & Hp & Hdep & Edep & HpDep & EpDep & ->).
  assert (Hdirect : forall a b d, In a tasks -> In b tasks -> In d (dependencies a) ->
                      predecessorId d = id b -> dependsDirectly tasks (id b) (id a)).
  { intros a b d Ha Hb Hd Ed. exists a. split; [exact Ha|]. split; [reflexivity|].
    assert (Hin : In (id b) (map id tasks)) by now apply in_map.
    split; [|intros E; apply Hstart; now rewrite <- E].
    unfold knownPredecessors. apply filter_In. split.
    - rewrite <- Ed. now apply in_map.
    - apply isKnown_spec. split; [intros E; apply Hempty; now rewrite <- E | now right]. }
  pose proof (Hdirect t p dep Ht Hp Hdep Edep) as Hpt.
  pose proof (Hdirect p t pDep Hp Ht HpDep EpDep) as Htp.
  split; [exists t, p; auto|].
  intros d. destruct (calculateCPM tasks d) as [r|] eqn:Er; [|reflexivity].
  exfalso.
  assert (Hacyclic : acyclic (adj (buildGraph tasks)))
    by (apply (calculateCPM_iff_acyclic tasks d); eauto).
  apply (proj1 (acyclic_iff_no_dependency_cycle tasks Hnd Hstart Hend) Hacyclic (id t)).
  eapply t_trans; apply t_step; eassumption.
Qed.

Lemma direct_cycle_check_is_sound_witness :
  calculateCPM cyclicTasks [5; 3] = None.
Proof.
  apply (direct_cycle_check_is_sound cyclicTasks (DirectCycle "A" "B")).
  - exact NoDup_cyclic_ids.
  - simpl. intuition discriminate.
  - simpl. intuition discriminate.
  - simpl. intuition discriminate.
  - reflexivity.
Defined.

(** ** The topological sort terminates *)

Lemma kahnLoop_more_fuel adj fuel :
  forall inDegree queue order o extra,
    kahnLoop fuel adj inDegree queue order = Some o ->
    kahnLoop (fuel + extra) adj inDegree queue order = Some o.
Proof.
  induction fuel as [|f IH]; intros inDegree queue order o extra H.
  - destruct queue as [|u rest]; [|discriminate]. cbn [kahnLoop] in H.
    destruct (0 + extra)%nat; exact H.
  - destruct queue as [|u rest]; [exact H|]. cbn [kahnLoop Nat.add] in *. now apply IH.
Qed.

(** X27: the loop of the topological sort terminates on every graph: the
    fuel that [topoSort] gives it is enough, and more fuel gives the same
    order. *)
Theorem topological_sort_terminates (nodes : JsSet.t) (adj : Adjacency) :
  exists order,
    topoSort nodes adj = Some order /\
    forall fuel,
      (kahnMeasure (buildInDegree nodes adj)
         (initialQueue nodes (buildInDegree nodes adj)) <= fuel)%nat ->
      kahnLoop fuel adj (buildInDegree nodes adj)
        (initialQueue nodes (buildInDegree nodes adj)) [] = Some order.
Proof.
  destruct (topoSort_total nodes adj) as (order & Ho). exists order.
  split; [exact Ho|]. intros fuel Hfuel. unfold topoSort in Ho.
  replace fuel
    with (kahnMeasure (buildInDegree nodes adj)
            (initialQueue nodes (buildInDegree nodes adj))
          + (fuel - kahnMeasure (buildInDegree nodes adj)
                      (initialQueue nodes (buildInDegree nodes adj))))%nat by lia.
  now apply kahnLoop_more_fuel.
Qed.

(** Two runs of the chain: T2 starts at 5 and finishes at 8 in both. *)
Lemma recorded_timings_are_those_of_valid_trials_witness :
  JsMap.get
    (out_allTaskTimings
       (fst (runMonteCarloSimulation unit halves zeros sameNumber sameNumber
               unit noAnalysis chainTasks 2 startWorld))) "T2"
  = Some {| starts := [5; 5]; finishes := [8; 8] |}.
Proof.
  refine (eq_trans
    (proj1 (recorded_timings_are_those_of_valid_trials unit halves zeros sameNumber
              sameNumber unit noAnalysis chainTasks 2 startWorld
              (fixedTask "T2" 3 [dependsOn "T1" FS 0]) NoDup_chain_ids _ _)) _).
  - right. left. reflexivity.
  - vm_compute. discriminate.
  - reflexivity.
Defined.

(** In the lead example the latest finish of A is the project finish, 3,
    and its latest start 3 - 5. *)
Lemma latest_finish_is_capped_minimum_witness :
  exists s lfA,
    schedule leadTasks [5; 3] = Some s /\
    JsMap.get (lf s) "A" = Some lfA /\ lfA <= projectFinish s /\
    JsMap.get (ls s) "A" = Some (lfA - 5).
Proof.
  destruct (latest_finish_is_capped_minimum leadTasks [5; 3] lead_acyclic)
    as (s & Hs & _ & _ & H).
  destruct (H "A") as (lfA & Hlf & Hls & _ & Hle & _).
  - vm_compute in Hs. injection Hs as <-. right. right. left. reflexivity.
  - discriminate.
  - exists s, lfA. split; [exact Hs|]. split; [exact Hlf|]. split; [exact Hle|].
    rewrite Hls. reflexivity.
Defined.

(** ** Samples, percentiles, bins and correlations in doubles *)

Module DoubleFurther.
Import Floats.
Local Open Scope float_scope.

(** X13: with the draw 0, Triangular(0.1, 0.1, 0.4) returns
    0.4 - sqrt(0.30000000000000004 * 0.30000000000000004), which is below
    its minimum. *)
Theorem triangular_sample_below_min :
  Double.randomTriangular unit Double.zeroDraws 0.1 0.1 0.4 tt
  = (0.09999999999999998, tt) /\
  (0.09999999999999998 <? 0.1) = true.
Proof. split; reflexivity. Qed.

(** X16: the percentile of level 10 of [6, 6, 6] is 6 * (1 - 0.2) + 6 * 0.2,
    computed as 4.800000000000001 + 1.2000000000000002 =
    6.000000000000001, above every value of the data. *)
Theorem percentile_above_maximum :
  Double.getPercentiles [6; 6; 6] [10] = [(10, 6.000000000000001)] /\
  (6 <? 6.000000000000001) = true.
Proof. split; reflexivity. Qed.

(** X17: on [6, 6, 6] the percentile of level 10 is above that of level
    50, and on ten values 12.6 that of level 80 is above that of level
    90. *)
Theorem percentile_falls_with_level :
  Double.getPercentiles [6; 6; 6] [10; 50] = [(10, 6.000000000000001); (50, 6)] /\
  Double.getPercentiles (repeat 12.6 10) [80; 90]
  = [(80, 12.600000000000001); (90, 12.6)] /\
  (6 <? 6.000000000000001) = true /\
  (12.6 <? 12.600000000000001) = true.
Proof. repeat split; reflexivity. Qed.



(** X19: with the values 0, 33 and 44 in 20 bins the bin width is 2.2 and
    bin 15 starts at 33, but 33 / 2.2 is 14.999999999999998 and the value
    33 is counted in bin 14. *)
Theorem histogram_value_below_its_bin :
  exists h,
    Double.calculateHistogram 100000%N [0; 33; 44] 20 = Returned h /\
    fst (nth 15 (Double.bounds h) (nan, nan)) = 33 /\
    Double.binIndexOf 0 ((44 - 0) / 20) 20 33 = Some 14%nat /\
    nth 14 (Double.counts h) 0%nat = 1%nat /\
    nth 15 (Double.counts h) 0%nat = 0%nat.
Proof. eexists. split; [vm_compute; reflexivity|]. repeat split; reflexivity. Qed.

(** X20: the correlation changes in its last digit when the arguments
    are exchanged. *)
Theorem pearson_not_symmetric :
  Double.pearsonCorrelation [6; 3; 1; 7] [0; 6; 6; 9] = -0.07214791053658226 /\
  Double.pearsonCorrelation [0; 6; 6; 9] [6; 3; 1; 7] = -0.07214791053658227 /\
  (-0.07214791053658227 <? -0.07214791053658226) = true.
Proof. repeat split; reflexivity. Qed.

(** X21: the correlation changes in its last digit when the first
    sequence is measured in another unit, here multiplied by 3. *)
Theorem pearson_depends_on_unit :
  Double.pearsonCorrelation [1; 2; 3; 7] [2; 1; 3; 0] = -0.6381449017759607 /\
  Double.pearsonCorrelation [3 * 1; 3 * 2; 3 * 3; 3 * 7] [2; 1; 3; 0]
  = -0.6381449017759608 /\
  (-0.6381449017759608 <? -0.6381449017759607) = true.
Proof. repeat split; reflexivity. Qed.

(** X28: a task alone with an infinite duration: the project finish is
    Infinity, the slack of the task and the distance of its finish from
    the project finish are Infinity - Infinity, and no task is critical. *)
Theorem infinite_duration_leaves_no_critical_task :
  exists r,
    Double.calculateCPM soloTasks [infinity] = Some r /\
    Double.totalDuration r = infinity /\
    Double.criticalPathTasks r = [].
Proof. eexists. split; [vm_compute; reflexivity|]. split; reflexivity. Qed.

Section PertInTheEngine.
Variable RNG : Type.
Variable uniform : RNG -> float * RNG.
Variable uniformQ : RNG -> Q * RNG.
Variable normal : RNG -> Q * RNG.
Variable sqrtQ : Q -> Q.
Variable exp : Q -> Q.

(** X14: for PERT(2, 4, 12) the shape (1.8, 4.2) is valid and [randomPERT]
    throws without a draw; the engine's [catch] makes the sampled duration
    0, which is below the minimum 2. *)
Theorem pert_task_is_sampled_as_zero (r : RNG) (g : RNG) :
  Double.pertShape 2 (Double.clamp 2 4 12) 12 4 = Some (1.8, 4.2) /\
  Double.randomPERT RNG uniform 2 4 12 4 r
  = (Thrown TypeError, r) /\
  randomPERT RNG uniformQ sqrtQ 2%Q 4%Q 12%Q 4%Q g
  = (Thrown TypeError, g) /\
  sampleDuration RNG uniformQ normal sqrtQ exp pertTask g = (0%Q, g).
Proof. repeat split; reflexivity. Qed.
End PertInTheEngine.

End DoubleFurther.
